(** * Validator enode announce protocol (consensus/istanbul/backend/announce.go)

    A shallow embedding of the announce gossip engine: the frequency state
    machine of [announceThread], the announce cache, the regossip throttle and
    the four message handlers, followed by the properties proved about them.

    Conventions of the embedding.
    - [common.Address] (20 bytes) and [common.Hash] (32 bytes) are read as
      big-endian numbers in [N]; Go's [uint] timestamps are [N] as well.
    - Go maps are [gmap]s.  A [map[common.Address]bool] is read through
      [inVals], which gives [false] for an absent key, as indexing does in Go.
    - Handlers are state-passing functions.  Every outbound call
      ([sb.Multicast], [peer.Send], [valEnodeTable.Upsert],
      [valEnodeTable.PruneEntries]) is appended to an event list, in program
      order; the goroutines started with [go] are recorded at the point where
      they are started.
    - What the handlers read from outside this file is an argument: the
      result of [retrieveActiveAndRegisteredValidators], the clock readings of
      [time.Since] and [time.Now], and the draw of [mrand.Int].
    - What they call outside this file (rlp, message signing and signature
      recovery, hashing, enode parsing, the validator enode table) is a method
      of the class [Collaborators]. *)

From Stdlib Require Import ZArith NArith List String Ascii Lia.
From Stdlib.Strings Require Import Byte.
From stdpp Require Import base option list gmap fin_maps strings sorting.

Local Open Scope N_scope.

(** ** Data model *)

Abbreviation Address := N (only parsing).
Abbreviation Hash := N (only parsing).
Abbreviation Peer := N (only parsing).
Abbreviation bytes := (list Byte.byte) (only parsing).
(** [time.Time], as a reading in nanoseconds. *)
Abbreviation Time := Z (only parsing).

Inductive error : Type :=
| errNoProxyConnection
| errUnauthorizedAnnounceMessage
| errOldAnnounceMessage
| errOther (what : string).

Inductive result (A : Type) : Type :=
| Ok (a : A)
| Err (e : error).
Arguments Ok {A} a.
Arguments Err {A} e.

(** The four message codes of the protocol. *)
Inductive msgCode : Type :=
| istanbulAnnounceMsg
| istanbulGetAnnouncesMsg
| istanbulGetAnnounceVersionsMsg
| istanbulAnnounceVersionsMsg.

Record encryptedEnode : Type := {
  DecrypterAddress : Address;
  EncryptedEnodeURL : bytes
}.

Record valEncryptedEnodes : Type := {
  ValAddress : Address;
  EncryptedEnodes : list encryptedEnode;
  EnodeURLHash : Hash;
  Timestamp : N
}.

Record announceMsgCachedEntry : Type := {
  MsgTimestamp : N;
  MsgPayload : bytes
}.

Record announceVersion : Type := {
  avValAddress : Address;
  AnnounceMsgTimestamp : N
}.

(** [istanbul.Message]. *)
Record Message : Type := {
  Code : msgCode;
  Msg : bytes;
  MsgAddress : Address;
  Signature : bytes
}.

(** [AnnounceGossipTimestamp], with the fields [regossipAnnounce] reads and
    writes. *)
Record AnnounceGossipTimestamp : Type := {
  enodeURLHash : Hash;
  timestamp : Time;
  destAddressesHash : Hash
}.

(** [enode.Node], identified by the URL it was parsed from. *)
Record Node : Type := { nodeURL : string }.

Abbreviation ValSet := (gmap N bool) (only parsing).

(** [regAndActiveVals[a]]. *)
Definition inVals (vals : ValSet) (a : Address) : bool :=
  match vals !! a with
  | Some b => b
  | None => false
  end.

(** ** Outbound calls *)

Inductive effect : Type :=
| EvMulticast (payload : bytes) (code : msgCode)
| EvSend (peer : Peer) (code : msgCode) (payload : bytes)
| EvUpsert (a : Address) (node : Node) (ts : N)
| EvPruneEntries (vals : ValSet).

(** ** Collaborators

    [VET] is the state of the validator enode table.  A decoder returns the
    value it left in its target together with the error, if any: the
    source reads the target after a failed [rlp.DecodeBytes] in two places. *)

Class Collaborators (VET : Type) : Type := {
  FromPayload : bytes -> result Message;
  MsgSign : Message -> result Message;
  MsgPayload_of : Message -> result bytes;
  EncodeVEE : valEncryptedEnodes -> result bytes;
  DecodeVEE : bytes -> valEncryptedEnodes * option error;
  EncodeAddresses : list Address -> result bytes;
  DecodeAddresses : bytes -> list Address * option error;
  EncodeVersions : list announceVersion -> result bytes;
  DecodeVersions : bytes -> list announceVersion * option error;
  RLPHashString : string -> Hash;
  RLPHashStrings : list string -> Hash;
  AddressString : Address -> string;
  ParseV4 : string -> result Node;
  Upsert : VET -> Address -> Node -> N -> VET * option error;
  PruneEntries : VET -> ValSet -> VET * option error
}.

(** ** Backend state *)

Record Backend (VET : Type) : Type := mkBackend {
  address : Address;
  coreStarted : bool;
  configProxied : bool;
  proxyNode : option string;
  p2pserverSelf : string;
  cachedAnnounceMsgs : gmap N announceMsgCachedEntry;
  lastAnnounceGossiped : gmap N AnnounceGossipTimestamp;
  valEnodeTable : VET
}.
Arguments mkBackend {VET}.
Arguments address {VET} _.
Arguments coreStarted {VET} _.
Arguments configProxied {VET} _.
Arguments proxyNode {VET} _.
Arguments p2pserverSelf {VET} _.
Arguments cachedAnnounceMsgs {VET} _.
Arguments lastAnnounceGossiped {VET} _.
Arguments valEnodeTable {VET} _.

Definition setCache {VET} (sb : Backend VET)
    (c : gmap N announceMsgCachedEntry) : Backend VET :=
  mkBackend (address sb) (coreStarted sb) (configProxied sb) (proxyNode sb)
    (p2pserverSelf sb) c (lastAnnounceGossiped sb) (valEnodeTable sb).

Definition setGossiped {VET} (sb : Backend VET)
    (g : gmap N AnnounceGossipTimestamp) : Backend VET :=
  mkBackend (address sb) (coreStarted sb) (configProxied sb) (proxyNode sb)
    (p2pserverSelf sb) (cachedAnnounceMsgs sb) g (valEnodeTable sb).

Definition setTable {VET} (sb : Backend VET) (t : VET) : Backend VET :=
  mkBackend (address sb) (coreStarted sb) (configProxied sb) (proxyNode sb)
    (p2pserverSelf sb) (cachedAnnounceMsgs sb) (lastAnnounceGossiped sb) t.

(** What a handler returns: the state it leaves, the outbound calls it made
    and its Go return value ([None] is [nil]). *)
Definition outcome (VET : Type) : Type :=
  (Backend VET * list effect * option error)%type.

(** ** Version exchange *)

Section VersionHandlers.
Context {VET : Type} `{Collaborators VET}.

(** The [for valAddress, cachedAnnounceEntry := range sb.cachedAnnounceMsgs]
    loop of [handleGetAnnounceVersionsMsg].  Go leaves the order of a map
    range unspecified; the embedding enumerates the map in [map_to_list]
    order. *)
Definition cacheVersions (cache : gmap N announceMsgCachedEntry)
    : list announceVersion :=
  (fun p => {| avValAddress := fst p;
               AnnounceMsgTimestamp := MsgTimestamp (snd p) |})
    <$> map_to_list cache.

Definition handleGetAnnounceVersionsMsg (sb : Backend VET) (peer : Peer)
    (payload : bytes) : outcome VET :=
  let announceVersions := cacheVersions (cachedAnnounceMsgs sb) in
  match EncodeVersions announceVersions with
  | Err e => (sb, [], Some e)
  | Ok announceVersionsBytes =>
      (sb, [EvSend peer istanbulAnnounceVersionsMsg announceVersionsBytes],
       None)
  end.

(** The condition under which [handleAnnounceVersionsMsg] appends an
    entry's address to [announcesToRequest]. *)
Definition shouldRequest (cache : gmap N announceMsgCachedEntry)
    (regAndActiveVals : ValSet) (av : announceVersion) : bool :=
  if negb (inVals regAndActiveVals (avValAddress av)) then false
  else
    match cache !! avValAddress av with
    | None => true
    | Some cachedEntry =>
        MsgTimestamp cachedEntry <? AnnounceMsgTimestamp av
    end.

Fixpoint announcesToRequest (cache : gmap N announceMsgCachedEntry)
    (regAndActiveVals : ValSet) (announceVersions : list announceVersion)
    : list Address :=
  match announceVersions with
  | [] => []
  | av :: rest =>
      if shouldRequest cache regAndActiveVals av
      then avValAddress av :: announcesToRequest cache regAndActiveVals rest
      else announcesToRequest cache regAndActiveVals rest
  end.

(** The decode error is logged and the handler goes on with whatever the
    decoder left in [announceVersions]. *)
Definition handleAnnounceVersionsMsg (sb : Backend VET) (peer : Peer)
    (payload : bytes) (retrieved : result ValSet) : outcome VET :=
  let announceVersions := fst (DecodeVersions payload) in
  match retrieved with
  | Err e => (sb, [], Some e)
  | Ok regAndActiveVals =>
      let toRequest :=
        announcesToRequest (cachedAnnounceMsgs sb) regAndActiveVals
          announceVersions in
      match toRequest with
      | [] => (sb, [], None)
      | _ :: _ =>
          match EncodeAddresses toRequest with
          | Err e => (sb, [], Some e)
          | Ok announcesToRequestBytes =>
              (sb, [EvSend peer istanbulGetAnnouncesMsg
                      announcesToRequestBytes], None)
          end
      end
  end.

(** [handleGetAnnouncesMsg]: one [peer.Send] per requested address that is
    cached, in request order. *)
Fixpoint cachedPayloads (cache : gmap N announceMsgCachedEntry)
    (valAddresses : list Address) : list bytes :=
  match valAddresses with
  | [] => []
  | valAddress :: rest =>
      match cache !! valAddress with
      | Some cachedAnnounceMsgEntry =>
          MsgPayload cachedAnnounceMsgEntry :: cachedPayloads cache rest
      | None => cachedPayloads cache rest
      end
  end.

Definition handleGetAnnouncesMsg (sb : Backend VET) (peer : Peer)
    (payload : bytes) : outcome VET :=
  match DecodeAddresses payload with
  | (_, Some e) => (sb, [], Some e)
  | (valAddresses, None) =>
      (sb,
       EvSend peer istanbulAnnounceMsg
         <$> cachedPayloads (cachedAnnounceMsgs sb) valAddresses,
       None)
  end.

End VersionHandlers.

(** ** Clock, random gate and sorting *)

(** [time.Duration] is a signed 64-bit count of nanoseconds; [Time.Sub]
    saturates at its bounds. *)
Definition minDuration : Z := (- 2 ^ 63)%Z.
Definition maxDuration : Z := (2 ^ 63 - 1)%Z.
Definition Minute : Z := (60 * 1000000000)%Z.

Definition timeSub (t u : Time) : Z :=
  Z.max minDuration (Z.min maxDuration (t - u)).

(** [time.Since(t)], evaluated when the clock reads [now]. *)
Definition timeSince (now t : Time) : Z := timeSub now t.

(** [mrand.Int()] returns a non-negative [int]: 63 random bits. *)
Definition randIntRange : Z := (2 ^ 63)%Z.

(** The guard [(mrand.Int() % 100) <= 5] of [regossipAnnounce]; Go's [%]
    truncates, as [Z.rem] does. *)
Definition pruneGate (draw : Z) : bool := (Z.rem draw 100 <=? 5)%Z.

(** [sort.Strings]: ascending byte-wise order. *)
Fixpoint insertString (s : string) (l : list string) : list string :=
  match l with
  | [] => [s]
  | x :: rest =>
      if String.leb s x then s :: x :: rest else x :: insertString s rest
  end.

Fixpoint sortStrings (l : list string) : list string :=
  match l with
  | [] => []
  | s :: rest => insertString s (sortStrings rest)
  end.

(** [uint(x)] for an [int64] [x], on a 64-bit platform. *)
Definition uintOfInt64 (x : Z) : N := Z.to_N (x mod 2 ^ 64).

(** The [delete] loops over a table: keep the keys that are in the
    validator set. *)
Definition pruneTo {V : Type} (regAndActiveVals : ValSet) (m : gmap N V)
    : gmap N V :=
  filter (fun kv => inVals regAndActiveVals (fst kv) = true) m.

(** ** Announce handling *)

Section AnnounceHandlers.
Context {VET : Type} `{Collaborators VET}.

Definition hashEqb (a b : Hash) : bool := N.eqb a b.

(** The early return of [regossipAnnounce]: an entry for the address with
    the same two hashes, gossiped less than a minute ago. *)
Definition throttled (gossiped : gmap N AnnounceGossipTimestamp)
    (a : Address) (urlHash destHash : Hash) (now : Time) : bool :=
  match gossiped !! a with
  | Some lastGossipTs =>
      hashEqb (enodeURLHash lastGossipTs) urlHash
      && hashEqb (destAddressesHash lastGossipTs) destHash
      && (timeSince now (timestamp lastGossipTs) <? Minute)%Z
  | None => false
  end.

(** [sinceNow] is the clock reading of [time.Since], [recordNow] the one of
    [time.Now()] stored in the table, [draw] the value of [mrand.Int()]. *)
Definition regossipAnnounce (sb : Backend VET) (msg : Message)
    (payload : bytes) (announcePayload : valEncryptedEnodes)
    (regAndActiveVals : ValSet) (destAddresses : list string)
    (sinceNow recordNow : Time) (draw : Z) : outcome VET :=
  let destAddressesHash := RLPHashStrings (sortStrings destAddresses) in
  if throttled (lastAnnounceGossiped sb) (MsgAddress msg)
       (EnodeURLHash announcePayload) destAddressesHash sinceNow
  then (sb, [], None)
  else
    let recorded :=
      <[MsgAddress msg :=
          {| enodeURLHash := EnodeURLHash announcePayload;
             timestamp := recordNow;
             destAddressesHash := destAddressesHash |}]>
        (lastAnnounceGossiped sb) in
    if pruneGate draw then
      let sb1 := setGossiped sb (pruneTo regAndActiveVals recorded) in
      let '(table, err) :=
        PruneEntries (valEnodeTable sb1) regAndActiveVals in
      (setTable sb1 table,
       [EvMulticast payload istanbulAnnounceMsg;
        EvPruneEntries regAndActiveVals],
       err)
    else
      (setGossiped sb recorded,
       [EvMulticast payload istanbulAnnounceMsg], None).

(** The locals of the scan over [announcePayload.EncryptedEnodes]. *)
Record scanState : Type := {
  node : option Node;
  destAddresses : list string;
  processedAddresses : gmap N bool;
  msgHasDupsOrIrrelevantEntries : bool
}.

Definition scanInit : scanState :=
  {| node := None; destAddresses := [];
     processedAddresses := ∅; msgHasDupsOrIrrelevantEntries := false |}.

(** The [for _, encryptedEnode := range announcePayload.EncryptedEnodes]
    loop; [Err] is its [return err] on an enode URL that does not parse. *)
Fixpoint scanEncryptedEnodes (self : Address) (regAndActiveVals : ValSet)
    (enodes : list encryptedEnode) (s : scanState) : result scanState :=
  match enodes with
  | [] => Ok s
  | ee :: rest =>
      if negb (inVals regAndActiveVals (DecrypterAddress ee))
         || inVals (processedAddresses s) (DecrypterAddress ee)
      then
        scanEncryptedEnodes self regAndActiveVals rest
          {| node := node s; destAddresses := destAddresses s;
             processedAddresses := processedAddresses s;
             msgHasDupsOrIrrelevantEntries := true |}
      else
        let parsed :=
          if N.eqb (DecrypterAddress ee) self
          then
            match ParseV4 (string_of_list_byte (EncryptedEnodeURL ee)) with
            | Ok n => Ok (Some n)
            | Err e => Err e
            end
          else Ok (node s) in
        match parsed with
        | Err e => Err e
        | Ok nd =>
            scanEncryptedEnodes self regAndActiveVals rest
              {| node := nd;
                 destAddresses :=
                   destAddresses s ++ [AddressString (DecrypterAddress ee)];
                 processedAddresses :=
                   <[DecrypterAddress ee := true]> (processedAddresses s);
                 msgHasDupsOrIrrelevantEntries :=
                   msgHasDupsOrIrrelevantEntries s |}
        end
  end.

(** The test that makes [handleAnnounceMsg] return [errOldAnnounceMessage]. *)
Definition oldAnnounce (cache : gmap N announceMsgCachedEntry)
    (a : Address) (announcePayload : valEncryptedEnodes) : bool :=
  match cache !! a with
  | Some cachedAnnounceMsgEntry =>
      Timestamp announcePayload <=? MsgTimestamp cachedAnnounceMsgEntry
  | None => false
  end.

(** The tail of [handleAnnounceMsg], from [if !msgHasDupsOrIrrelevantEntries]
    on; [done] holds the outbound calls made before it. *)
Definition admitAndRegossip (sb : Backend VET) (msg : Message)
    (payload : bytes) (announcePayload : valEncryptedEnodes)
    (regAndActiveVals : ValSet) (s : scanState) (done : list effect)
    (sinceNow recordNow : Time) (draw : Z) : outcome VET :=
  if msgHasDupsOrIrrelevantEntries s then (sb, done, None)
  else
    let cached :=
      <[MsgAddress msg :=
          {| MsgTimestamp := Timestamp announcePayload;
             MsgPayload := payload |}]> (cachedAnnounceMsgs sb) in
    let sb1 := setCache sb (pruneTo regAndActiveVals cached) in
    let '(sb2, sent, err) :=
      regossipAnnounce sb1 msg payload announcePayload regAndActiveVals
        (destAddresses s) sinceNow recordNow draw in
    (sb2, done ++ sent, err).

Definition handleAnnounceMsg (sb : Backend VET) (peer : Peer)
    (payload : bytes) (retrieved : result ValSet)
    (sinceNow recordNow : Time) (draw : Z) : outcome VET :=
  match FromPayload payload with
  | Err e => (sb, [], Some e)
  | Ok msg =>
  match retrieved with
  | Err e => (sb, [], Some e)
  | Ok regAndActiveVals =>
  if negb (inVals regAndActiveVals (MsgAddress msg))
  then (sb, [], Some errUnauthorizedAnnounceMessage)
  else
  match DecodeVEE (Msg msg) with
  | (_, Some e) => (sb, [], Some e)
  | (announcePayload, None) =>
  if oldAnnounce (cachedAnnounceMsgs sb) (MsgAddress msg) announcePayload
  then (sb, [], Some errOldAnnounceMessage)
  else
  if coreStarted sb && inVals regAndActiveVals (address sb) then
    match scanEncryptedEnodes (address sb) regAndActiveVals
            (EncryptedEnodes announcePayload) scanInit with
    | Err e => (sb, [], Some e)
    | Ok s =>
        match node s with
        | Some n =>
            let '(table, err) :=
              Upsert (valEnodeTable sb) (MsgAddress msg) n
                (Timestamp announcePayload) in
            let upsert :=
              [EvUpsert (MsgAddress msg) n (Timestamp announcePayload)] in
            match err with
            | Some e => (setTable sb table, upsert, Some e)
            | None =>
                admitAndRegossip (setTable sb table) msg payload
                  announcePayload regAndActiveVals s upsert
                  sinceNow recordNow draw
            end
        | None =>
            admitAndRegossip sb msg payload announcePayload
              regAndActiveVals s [] sinceNow recordNow draw
        end
    end
  else
    admitAndRegossip sb msg payload announcePayload regAndActiveVals
      scanInit [] sinceNow recordNow draw
  end
  end
  end.

(** ** Generating this node's own announce *)

(** [retrieved] is the result of [retrieveActiveAndRegisteredValidators],
    [unixNow] the value of [time.Now().Unix()].  The [range] over the
    validator set is taken in [map_to_list] order. *)
Definition generateAnnounce (sb : Backend VET) (retrieved : result ValSet)
    (unixNow : Z) : result Message :=
  let enode :=
    if configProxied sb then
      match proxyNode sb with
      | Some externalNode => Ok externalNode
      | None => Err errNoProxyConnection
      end
    else Ok (p2pserverSelf sb) in
  match enode with
  | Err e => Err e
  | Ok enodeUrl =>
  match retrieved with
  | Err e => Err e
  | Ok regAndActiveVals =>
      let encryptedEnodes :=
        (fun kv => {| DecrypterAddress := fst kv;
                      EncryptedEnodeURL := list_byte_of_string enodeUrl |})
          <$> map_to_list regAndActiveVals in
      let announcePayload :=
        {| ValAddress := address sb;
           EncryptedEnodes := encryptedEnodes;
           EnodeURLHash := RLPHashString enodeUrl;
           Timestamp := uintOfInt64 unixNow |} in
      match EncodeVEE announcePayload with
      | Err e => Err e
      | Ok announceBytes =>
          Ok {| Code := istanbulAnnounceMsg; Msg := announceBytes;
                MsgAddress := address sb; Signature := [] |}
      end
  end
  end.

(** [generateAnnounce] never returns a nil message without an error, so the
    [istMsg == nil] test of the source has no case here.  [retrieved1] is the
    validator set seen by [generateAnnounce], [retrieved2] the one looked up
    before the multicast. *)
Definition gossipAnnounce (sb : Backend VET)
    (retrieved1 : result ValSet) (unixNow : Z)
    (retrieved2 : result ValSet) : outcome VET :=
  match generateAnnounce sb retrieved1 unixNow with
  | Err e => (sb, [], Some e)
  | Ok istMsg0 =>
  match MsgSign istMsg0 with
  | Err e => (sb, [], Some e)
  | Ok istMsg =>
  match MsgPayload_of istMsg with
  | Err e => (sb, [], Some e)
  | Ok payload =>
      let announcePayload := fst (DecodeVEE (Msg istMsg)) in
      let sb1 :=
        setCache sb
          (<[ValAddress announcePayload :=
               {| MsgTimestamp := Timestamp announcePayload;
                  MsgPayload := payload |}]> (cachedAnnounceMsgs sb)) in
      match retrieved2 with
      | Err e => (sb1, [], Some e)
      | Ok regAndActiveVals =>
          if inVals regAndActiveVals (address sb)
          then (sb1, [EvMulticast payload istanbulAnnounceMsg], None)
          else (sb1, [], None)
      end
  end
  end
  end.

End AnnounceHandlers.

(** ** The announce loop *)

Inductive AnnounceGossipFrequencyState : Type :=
| HighFreqBeforeFirstPeerState
| HighFreqAfterFirstPeerState
| LowFreqState.

Definition HighFreqTickerDuration : Z := (1 * Minute)%Z.
Definition LowFreqTickerDuration : Z := (10 * Minute)%Z.

(** Go's [int] is 64 bits wide here; [+= 1] wraps. *)
Definition wrapInt (x : Z) : Z := ((x + 2 ^ 63) mod 2 ^ 64 - 2 ^ 63)%Z.

(** The locals of [announceThread].  [announceGossipTicker] is [None] while
    the pointer is nil and otherwise holds the period the ticker was made
    with; [announceGossipTickerCh] tells whether the channel is non-nil. *)
Record loopState : Type := {
  announceGossipTicker : option Z;
  announceGossipTickerCh : bool;
  announceGossipFrequencyState : AnnounceGossipFrequencyState;
  currentAnnounceGossipTickerDuration : Z;
  numGossipedMsgsInHighFreqAfterFirstPeerState : Z
}.

(** The zero values the locals start with. *)
Definition loopInit : loopState :=
  {| announceGossipTicker := None;
     announceGossipTickerCh := false;
     announceGossipFrequencyState := HighFreqBeforeFirstPeerState;
     currentAnnounceGossipTickerDuration := 0%Z;
     numGossipedMsgsInHighFreqAfterFirstPeerState := 0%Z |}.

(** The cases of the [select].  [NewEpoch] carries the value of
    [sb.coreStarted] it reads, [GossipTick] the number of peers
    [sb.broadcaster.FindPeers] would report. *)
Inductive loopEvent : Type :=
| CoreStartStop (coreRunning : bool)
| NewEpoch (coreStarted : bool)
| GossipTick (numPeers : nat)
| VersionsCheckTick
| Quit.

Inductive loopAction : Type :=
| GoGossipAnnounce
| GoCheckPeersAnnounceVersions
| NewGossipTicker (period : Z)
| StopGossipTicker
| StopVersionsCheckTicker.

(** [NotReady]: the case cannot be selected (a receive from a nil channel).
    [Panic]: [Stop] called through a nil ticker. *)
Inductive stepResult : Type :=
| Continue (s : loopState) (acts : list loopAction)
| Return (acts : list loopAction)
| Panic
| NotReady.

(** The [switch announceGossipFrequencyState] of the gossip tick case. *)
Definition advanceFrequency (s : loopState) (numPeers : nat)
    : loopState * list loopAction :=
  match announceGossipFrequencyState s with
  | HighFreqBeforeFirstPeerState =>
      if (0 <? numPeers)%nat then
        ({| announceGossipTicker := announceGossipTicker s;
            announceGossipTickerCh := announceGossipTickerCh s;
            announceGossipFrequencyState := HighFreqAfterFirstPeerState;
            currentAnnounceGossipTickerDuration :=
              currentAnnounceGossipTickerDuration s;
            numGossipedMsgsInHighFreqAfterFirstPeerState :=
              numGossipedMsgsInHighFreqAfterFirstPeerState s |}, [])
      else (s, [])
  | HighFreqAfterFirstPeerState =>
      ({| announceGossipTicker := announceGossipTicker s;
          announceGossipTickerCh := announceGossipTickerCh s;
          announceGossipFrequencyState :=
            if (10 <=? numGossipedMsgsInHighFreqAfterFirstPeerState s)%Z
            then LowFreqState else HighFreqAfterFirstPeerState;
          currentAnnounceGossipTickerDuration :=
            currentAnnounceGossipTickerDuration s;
          numGossipedMsgsInHighFreqAfterFirstPeerState :=
            wrapInt (numGossipedMsgsInHighFreqAfterFirstPeerState s + 1) |},
       [])
  | LowFreqState =>
      if (currentAnnounceGossipTickerDuration s =? LowFreqTickerDuration)%Z
      then (s, [])
      else
        ({| announceGossipTicker := Some LowFreqTickerDuration;
            announceGossipTickerCh := true;
            announceGossipFrequencyState := LowFreqState;
            currentAnnounceGossipTickerDuration := LowFreqTickerDuration;
            numGossipedMsgsInHighFreqAfterFirstPeerState :=
              numGossipedMsgsInHighFreqAfterFirstPeerState s |},
         [StopGossipTicker; NewGossipTicker LowFreqTickerDuration])
  end.

(** One iteration of the [for { select { ... } }] loop. *)
Definition loopStep (s : loopState) (ev : loopEvent) : stepResult :=
  match ev with
  | CoreStartStop true =>
      Continue
        {| announceGossipTicker := Some HighFreqTickerDuration;
           announceGossipTickerCh := true;
           announceGossipFrequencyState := HighFreqBeforeFirstPeerState;
           currentAnnounceGossipTickerDuration := HighFreqTickerDuration;
           numGossipedMsgsInHighFreqAfterFirstPeerState := 0%Z |}
        [GoGossipAnnounce; NewGossipTicker HighFreqTickerDuration]
  | CoreStartStop false =>
      match announceGossipTicker s with
      | None => Panic
      | Some _ =>
          Continue
            {| announceGossipTicker := announceGossipTicker s;
               announceGossipTickerCh := false;
               announceGossipFrequencyState := announceGossipFrequencyState s;
               currentAnnounceGossipTickerDuration :=
                 currentAnnounceGossipTickerDuration s;
               numGossipedMsgsInHighFreqAfterFirstPeerState :=
                 numGossipedMsgsInHighFreqAfterFirstPeerState s |}
            [StopGossipTicker]
      end
  | NewEpoch started =>
      Continue s
        ((if started then [GoGossipAnnounce] else [])
           ++ [GoCheckPeersAnnounceVersions])
  | GossipTick numPeers =>
      if announceGossipTickerCh s then
        let '(s', acts) := advanceFrequency s numPeers in
        Continue s' (acts ++ [GoGossipAnnounce])
      else NotReady
  | VersionsCheckTick => Continue s [GoCheckPeersAnnounceVersions]
  | Quit =>
      Return
        (StopVersionsCheckTicker
           :: match announceGossipTicker s with
              | Some _ => [StopGossipTicker]
              | None => []
              end)
  end.

(** [n] gossip ticks in a row, each seeing [numPeers] peers: the state
    reached and the actions of every tick, [None] if one of them does not
    leave the loop running. *)
Fixpoint gossipTicks (n : nat) (numPeers : nat) (s : loopState)
    : option (loopState * list (list loopAction)) :=
  match n with
  | O => Some (s, [])
  | S k =>
      match loopStep s (GossipTick numPeers) with
      | Continue s' acts =>
          match gossipTicks k numPeers s' with
          | Some (s'', rest) => Some (s'', acts :: rest)
          | None => None
          end
      | _ => None
      end
  end.

(** ** Counting the draws that open the prune gate *)

(** How many of the draws [0 .. n-1] satisfy the guard of the prune. *)
Fixpoint gateCount (n : nat) : nat :=
  match n with
  | O => O
  | S k => (gateCount k + (if pruneGate (Z.of_nat k) then 1 else 0))%nat
  end.

(** ** Runs of the engine *)

Section Runs.
Context {VET : Type} `{Collaborators VET}.

(** One delivery of an announce to [handleAnnounceMsg], with everything the
    handler reads from its surroundings. *)
Record announceCall : Type := {
  callPeer : Peer;
  callPayload : bytes;
  callRetrieved : result ValSet;
  callSinceNow : Time;
  callRecordNow : Time;
  callDraw : Z
}.

Definition deliver (sb : Backend VET) (c : announceCall) : outcome VET :=
  handleAnnounceMsg sb (callPeer c) (callPayload c) (callRetrieved c)
    (callSinceNow c) (callRecordNow c) (callDraw c).

Definition stateOf (o : outcome VET) : Backend VET := fst (fst o).
Definition effectsOf (o : outcome VET) : list effect := snd (fst o).
Definition errorOf (o : outcome VET) : option error := snd o.

(** The state after a sequence of deliveries, handled one after the other
    (the handler holds the cache lock from the stale check to its return). *)
Fixpoint deliverAll (sb : Backend VET) (cs : list announceCall)
    : Backend VET :=
  match cs with
  | [] => sb
  | c :: rest => deliverAll (stateOf (deliver sb c)) rest
  end.

(** The validator-set lookup of a call either fails or returns a set
    accepted by [allowed]. *)
Definition sees (allowed : ValSet -> Prop) (r : result ValSet) : Prop :=
  match r with
  | Ok vals => allowed vals
  | Err _ => True
  end.

(** States of the engine reachable from empty tables, when every validator
    set it is given satisfies [allowed].  [reach_env] covers what changes
    outside the handlers (address, core started, proxy): the two tables are
    written by the handlers only. *)
Inductive reachable (allowed : ValSet -> Prop) : Backend VET -> Prop :=
| reach_init sb :
    cachedAnnounceMsgs sb = ∅ -> lastAnnounceGossiped sb = ∅ ->
    reachable allowed sb
| reach_env sb sb' :
    reachable allowed sb ->
    cachedAnnounceMsgs sb' = cachedAnnounceMsgs sb ->
    lastAnnounceGossiped sb' = lastAnnounceGossiped sb ->
    reachable allowed sb'
| reach_handleAnnounceMsg sb c :
    reachable allowed sb -> sees allowed (callRetrieved c) ->
    reachable allowed (stateOf (deliver sb c))
| reach_gossipAnnounce sb r1 unixNow r2 :
    reachable allowed sb -> sees allowed r1 -> sees allowed r2 ->
    reachable allowed (stateOf (gossipAnnounce sb r1 unixNow r2))
| reach_handleGetAnnouncesMsg sb peer payload :
    reachable allowed sb ->
    reachable allowed (stateOf (handleGetAnnouncesMsg sb peer payload))
| reach_handleGetAnnounceVersionsMsg sb peer payload :
    reachable allowed sb ->
    reachable allowed (stateOf (handleGetAnnounceVersionsMsg sb peer payload))
| reach_handleAnnounceVersionsMsg sb peer payload r :
    reachable allowed sb -> sees allowed r ->
    reachable allowed (stateOf (handleAnnounceVersionsMsg sb peer payload r)).

(** For a validator set [V]: every throttle entry belongs to an address that
    is cached and in [V]. *)
Definition throttleInCache (V : gmap N bool) (sb : Backend VET) : Prop :=
  forall a,
    is_Some (lastAnnounceGossiped sb !! a) ->
    is_Some (cachedAnnounceMsgs sb !! a) /\ inVals V a = true.

(** A call to [regossipAnnounce] performed a multicast. *)
Definition multicast (o : outcome VET) : bool :=
  match effectsOf o with
  | EvMulticast _ _ :: _ => true
  | _ => false
  end.

End Runs.

(** The entries of a payload, in the words of the duplicate gate: some entry
    names a recipient outside the validator set, or one that an earlier entry
    already names. *)
Definition hasDupOrIrrelevant (regAndActiveVals : ValSet)
    (enodes : list encryptedEnode) : Prop :=
  exists before ee after,
    enodes = before ++ ee :: after /\
    (inVals regAndActiveVals (DecrypterAddress ee) = false \/
     DecrypterAddress ee ∈ DecrypterAddress <$> before).

(** ** A small instance of the collaborators

    One byte per address, timestamp and hash, so that handlers can be run on
    short payloads.
    - An announce is the signer's byte followed by the inner payload:
      [ValAddress], [Timestamp], [EnodeURLHash], then one recipient per byte.
    - An address list is one byte per address.
    - A version list is two bytes per record.  A stray last byte makes the
      decoder fail after it has filled its target with the records before
      it, as [rlp.DecodeBytes] does on input after the first value.
    - The table keeps the last node and timestamp upserted per address. *)

Module Small.

Definition byteOfN (n : N) : Byte.byte :=
  match Byte.of_N (n mod 256) with
  | Some b => b
  | None => Byte.x00
  end.

Definition nOfByte (b : Byte.byte) : N := Byte.to_N b.

Abbreviation table := (gmap N (Node * N)) (only parsing).

Definition fromPayload (p : list Byte.byte) : result Message :=
  match p with
  | [] => Err (errOther "EOF")
  | signer :: inner =>
      Ok {| Code := istanbulAnnounceMsg; Msg := inner;
            MsgAddress := nOfByte signer; Signature := [] |}
  end.

Definition msgSign (m : Message) : result Message :=
  Ok {| Code := Code m; Msg := Msg m; MsgAddress := MsgAddress m;
        Signature := [Byte.x01] |}.

Definition msgPayload (m : Message) : result (list Byte.byte) :=
  Ok (byteOfN (MsgAddress m) :: Msg m).

Definition encodeVEE (v : valEncryptedEnodes) : result (list Byte.byte) :=
  Ok (byteOfN (ValAddress v) :: byteOfN (Timestamp v)
        :: byteOfN (EnodeURLHash v)
        :: ((fun ee => byteOfN (DecrypterAddress ee))
              <$> EncryptedEnodes v)).

Definition decodeVEE (p : list Byte.byte)
    : valEncryptedEnodes * option error :=
  match p with
  | val :: ts :: h :: recipients =>
      ({| ValAddress := nOfByte val;
          EncryptedEnodes :=
            (fun b => {| DecrypterAddress := nOfByte b;
                         EncryptedEnodeURL := [] |}) <$> recipients;
          EnodeURLHash := nOfByte h;
          Timestamp := nOfByte ts |}, None)
  | _ =>
      ({| ValAddress := 0; EncryptedEnodes := [];
          EnodeURLHash := 0; Timestamp := 0 |},
       Some (errOther "EOF"))
  end.

Definition encodeAddresses (l : list N) : result (list Byte.byte) :=
  Ok (byteOfN <$> l).

Definition decodeAddresses (p : list Byte.byte) : list N * option error :=
  (nOfByte <$> p, None).

Fixpoint encodeVersionList (l : list announceVersion) : list Byte.byte :=
  match l with
  | [] => []
  | av :: rest =>
      byteOfN (avValAddress av) :: byteOfN (AnnounceMsgTimestamp av)
        :: encodeVersionList rest
  end.

Definition encodeVersions (l : list announceVersion)
    : result (list Byte.byte) :=
  Ok (encodeVersionList l).

Fixpoint decodeVersions (p : list Byte.byte)
    : list announceVersion * option error :=
  match p with
  | [] => ([], None)
  | [_] => ([], Some (errOther "rlp: input contains more than one value"))
  | a :: ts :: rest =>
      let '(l, err) := decodeVersions rest in
      ({| avValAddress := nOfByte a; AnnounceMsgTimestamp := nOfByte ts |}
         :: l, err)
  end.

Definition hashString (s : string) : N := N.of_nat (String.length s).

Definition hashStrings (l : list string) : N :=
  fold_right (fun s acc => (hashString s + 31 * acc) mod 256) 0 l.

Definition addressString (a : N) : string :=
  String (ascii_of_N (a mod 256)) EmptyString.

Definition parseV4 (s : string) : result Node :=
  match s with
  | EmptyString => Err (errOther "invalid URL scheme")
  | _ => Ok {| nodeURL := s |}
  end.

Definition upsert (t : gmap N (Node * N)) (a : N) (n : Node) (ts : N)
    : gmap N (Node * N) * option error :=
  (<[a := (n, ts)]> t, None).

Definition pruneEntries (t : gmap N (Node * N)) (vals : gmap N bool)
    : gmap N (Node * N) * option error :=
  (pruneTo vals t, None).

#[global] Instance collaborators : Collaborators (gmap N (Node * N)) := {
  FromPayload := fromPayload;
  MsgSign := msgSign;
  MsgPayload_of := msgPayload;
  EncodeVEE := encodeVEE;
  DecodeVEE := decodeVEE;
  EncodeAddresses := encodeAddresses;
  DecodeAddresses := decodeAddresses;
  EncodeVersions := encodeVersions;
  DecodeVersions := decodeVersions;
  RLPHashString := hashString;
  RLPHashStrings := hashStrings;
  AddressString := addressString;
  ParseV4 := parseV4;
  Upsert := upsert;
  PruneEntries := pruneEntries
}.

(** A node with empty tables whose own address is [self]. *)
Definition node0 (self : N) (started : bool) : Backend (gmap N (Node * N)) :=
  mkBackend self started false None "enode://self" ∅ ∅ ∅.

(** The validator set holding exactly the addresses of [l]. *)
Definition valSet (l : list N) : gmap N bool :=
  list_to_map ((fun a => (a, true)) <$> l).

(** An announce signed by [signer] with timestamp [ts], enode URL hash [h]
    and the recipients [rcpts]. *)
Definition announce (signer ts h : N) (rcpts : list N) : list Byte.byte :=
  byteOfN signer :: byteOfN signer :: byteOfN ts :: byteOfN h
    :: (byteOfN <$> rcpts).

End Small.

(** ** Requests sent by this node *)

Section Requests.
Context {VET : Type} `{Collaborators VET}.

(** [sendGetAnnounces]: its result and the [peer.Send] it starts. *)
Definition sendGetAnnounces (peer : Peer) (valAddresses : list Address)
    : list effect * option error :=
  match EncodeAddresses valAddresses with
  | Err e => ([], Some e)
  | Ok valAddressesBytes =>
      ([EvSend peer istanbulGetAnnouncesMsg valAddressesBytes], None)
  end.

Definition sendGetAnnounceVersions (peer : Peer) : list effect :=
  [EvSend peer istanbulGetAnnounceVersionsMsg []].

(** [checkPeersAnnounceVersions]; [peers] is what
    [sb.broadcaster.FindPeers(nil, p2p.AnyPurpose)] returns. *)
Fixpoint checkPeersAnnounceVersions (peers : list Peer) : list effect :=
  match peers with
  | [] => []
  | peer :: rest =>
      sendGetAnnounceVersions peer ++ checkPeersAnnounceVersions rest
  end.

End Requests.

(** ** Runs of the announce loop *)

(** The loop states [announceThread] can be in: the zero values, and what
    an iteration that keeps the loop running leaves. *)
Inductive loopReachable : loopState -> Prop :=
| loop_start : loopReachable loopInit
| loop_next s ev s' acts :
    loopReachable s -> loopStep s ev = Continue s' acts ->
    loopReachable s'.

(** ** Runs of [regossipAnnounce] *)

Section RegossipRuns.
Context {VET : Type} `{Collaborators VET}.

(** One call of [regossipAnnounce]: the engine it runs on, its arguments, the
    two clock readings and the random draw. *)
Record regossipCall : Type := {
  rcBackend : Backend VET;
  rcMsg : Message;
  rcPayload : bytes;
  rcAnnounce : valEncryptedEnodes;
  rcVals : ValSet;
  rcDest : list string;
  rcSinceNow : Time;
  rcRecordNow : Time;
  rcDraw : Z
}.

Definition regossip (c : regossipCall) : outcome VET :=
  regossipAnnounce (rcBackend c) (rcMsg c) (rcPayload c) (rcAnnounce c)
    (rcVals c) (rcDest c) (rcSinceNow c) (rcRecordNow c) (rcDraw c).

(** Calls in program order, the first of them finding the table [gossiped].
    [regossipAnnounce] is the only function that writes
    [sb.lastAnnounceGossiped], so each call finds the table as the call before
    it left it; the rest of the engine may have changed in between. *)
Fixpoint inOrderFrom (gossiped : gmap N AnnounceGossipTimestamp)
    (cs : list regossipCall) : Prop :=
  match cs with
  | [] => True
  | c :: rest =>
      lastAnnounceGossiped (rcBackend c) = gossiped /\
      inOrderFrom (lastAnnounceGossiped (stateOf (regossip c))) rest
  end.

(** The call [c] does not displace a record of [a] with the hashes [h] and
    [d] written at [t1] or later: if [c] is for [a], it carries the same two
    hashes and its clock does not run behind [t1]; if its prune gate opens,
    [a] is in its validator set. *)
Definition keepsRecord (a : Address) (h d : Hash) (t1 : Time)
    (c : regossipCall) : Prop :=
  (MsgAddress (rcMsg c) = a ->
   EnodeURLHash (rcAnnounce c) = h /\
   RLPHashStrings (sortStrings (rcDest c)) = d /\
   (t1 <= rcRecordNow c)%Z) /\
  (pruneGate (rcDraw c) = true -> inVals (rcVals c) a = true).

End RegossipRuns.

Arguments regossipCall : clear implicits.

(** ** What the loop starts *)

Section LoopActions.
Context {VET : Type} `{Collaborators VET}.

(** What the calls started by the loop read from their surroundings: the
    validator lookup inside [generateAnnounce], the clock and the second
    validator lookup of [gossipAnnounce], and the peers found by
    [checkPeersAnnounceVersions]. *)
Record surroundings : Type := {
  seenRetrieved1 : result ValSet;
  seenUnixNow : Z;
  seenRetrieved2 : result ValSet;
  seenPeers : list Peer
}.

(** The call behind each action of the loop.  The ticker operations make no
    call on the engine. *)
Definition perform (sb : Backend VET) (env : surroundings) (a : loopAction)
    : outcome VET :=
  match a with
  | GoGossipAnnounce =>
      gossipAnnounce sb (seenRetrieved1 env) (seenUnixNow env)
        (seenRetrieved2 env)
  | GoCheckPeersAnnounceVersions =>
      (sb, checkPeersAnnounceVersions (seenPeers env), None)
  | NewGossipTicker _ | StopGossipTicker | StopVersionsCheckTicker =>
      (sb, [], None)
  end.

(** The actions of one iteration, one after the other: the engine they leave
    and what they send.  A [go] statement drops the error its call returns. *)
Fixpoint performAll (sb : Backend VET) (env : surroundings)
    (acts : list loopAction) : Backend VET * list effect :=
  match acts with
  | [] => (sb, [])
  | a :: rest =>
      let o := perform sb env a in
      let '(sb', sent) := performAll (stateOf o) env rest in
      (sb', effectsOf o ++ sent)
  end.

(** One gossip tick: the iteration of the loop together with the calls it
    starts, [sb] and [env] being the engine and the surroundings as those
    calls find them.  [None] when the iteration does not leave the loop
    running. *)
Definition gossipTick (s : loopState) (sb : Backend VET) (numPeers : nat)
    (env : surroundings) : option (loopState * Backend VET * list effect) :=
  match loopStep s (GossipTick numPeers) with
  | Continue s' acts =>
      let '(sb', sent) := performAll sb env acts in Some (s', sb', sent)
  | _ => None
  end.

End LoopActions.

(** The order [sort.Strings] sorts by. *)
Definition strLe (s t : string) : Prop := String.leb s t = true.

(** The small instance with an enode parser that accepts every URL. *)
Definition lenientCollaborators : Collaborators (gmap N (Node * N)) :=
  {| FromPayload := Small.fromPayload;
     MsgSign := Small.msgSign;
     MsgPayload_of := Small.msgPayload;
     EncodeVEE := Small.encodeVEE;
     DecodeVEE := Small.decodeVEE;
     EncodeAddresses := Small.encodeAddresses;
     DecodeAddresses := Small.decodeAddresses;
     EncodeVersions := Small.encodeVersions;
     DecodeVersions := Small.decodeVersions;
     RLPHashString := Small.hashString;
     RLPHashStrings := Small.hashStrings;
     AddressString := Small.addressString;
     ParseV4 := fun s => Ok {| nodeURL := s |};
     Upsert := Small.upsert;
     PruneEntries := Small.pruneEntries |}.

(** ** Admission *)

Section Admission.
Context {VET : Type} `{Collaborators VET}.

(** The cache entry [e] filed under [a] holds a wire payload that decodes to
    an announce signed by [a] whose timestamp is the entry's. *)
Definition entryAuthored (a : Address) (e : announceMsgCachedEntry) : Prop :=
  exists msg ap,
    FromPayload (MsgPayload e) = Ok msg /\
    MsgAddress msg = a /\
    DecodeVEE (Msg msg) = (ap, None) /\
    Timestamp ap = MsgTimestamp e.

(** What [handleAnnounceMsg] needs of the block guarded by
    [sb.coreStarted && regAndActiveVals[sb.Address()]] to go on to the cache
    write: outside the guard nothing; inside, the scan ends in [s] with its
    flag down and the upsert, if a node was parsed, returns no error. *)
Definition scanAccepts (sb : Backend VET) (regAndActiveVals : ValSet)
    (signer : Address) (ap : valEncryptedEnodes) (s : scanState) : Prop :=
  if coreStarted sb && inVals regAndActiveVals (address sb) then
    scanEncryptedEnodes (address sb) regAndActiveVals (EncryptedEnodes ap)
      scanInit = Ok s /\
    msgHasDupsOrIrrelevantEntries s = false /\
    (forall n, node s = Some n ->
       snd (Upsert (valEnodeTable sb) signer n (Timestamp ap)) = None)
  else s = scanInit.

End Admission.

(** * The EVM handler (userspace_communication/evm.go) *)

(** ** Block hashes by number *)

(** The fields of [types.Header] that [GetHashFn] reads.  [Number] is a
    [*big.Int]; a block number is never negative. *)
Record Header : Type := {
  Number : N;
  ParentHash : Hash
}.

Definition two64 : N := 18446744073709551616.

(** [x.Uint64()] for a non-negative [big.Int]: its low 64 bits. *)
Definition Uint64 (x : N) : N := x mod two64.

(** [x - 1] on [uint64]. *)
Definition decUint64 (x : N) : N := (x + (two64 - 1)) mod two64.

(** The key under which [GetHashFn] files the parent hash of [h]:
    [h.Number.Uint64() - 1]. *)
Definition parentSlot (h : Header) : N := decUint64 (Uint64 (Number h)).

(** The [for header := chain.GetHeader(...); header != nil; ...] loop of the
    function [GetHashFn] returns, entered with [header]; [getHeader] is
    [chain.GetHeader].  It returns the hash found and the cache it leaves;
    [None] when [fuel] iterations did not end the loop. *)
Fixpoint walkHeaders (getHeader : N -> N -> option Header) (fuel : nat)
    (n : N) (header : option Header) (cache : gmap N N)
    : option (N * gmap N N) :=
  match fuel with
  | O => None
  | S fuel' =>
      match header with
      | None => Some (0, cache)
      | Some h =>
          let cache' := <[parentSlot h := ParentHash h]> cache in
          if N.eqb n (parentSlot h) then Some (ParentHash h, cache')
          else
            walkHeaders getHeader fuel' n
              (getHeader (ParentHash h) (parentSlot h)) cache'
      end
  end.

(** One call of the function returned by [GetHashFn(ref, chain)].  [cache]
    is the captured variable, [None] while it is nil; the result carries its
    value after the call. *)
Definition GetHashFn (ref : Header) (getHeader : N -> N -> option Header)
    (fuel : nat) (cache : option (gmap N N)) (n : N)
    : option (N * option (gmap N N)) :=
  let cache0 :=
    match cache with
    | None => {[parentSlot ref := ParentHash ref]}
    | Some c => c
    end in
  match cache0 !! n with
  | Some hash => Some (hash, Some cache0)
  | None =>
      match walkHeaders getHeader fuel n
              (getHeader (ParentHash ref) (parentSlot ref)) cache0 with
      | Some (hash, cache') => Some (hash, Some cache')
      | None => None
      end
  end.

(** Successive calls of one such function, starting from [cache]: the hashes
    returned, in call order. *)
Fixpoint getHashes (ref : Header) (getHeader : N -> N -> option Header)
    (fuel : nat) (cache : option (gmap N N)) (ns : list N)
    : option (list N) :=
  match ns with
  | [] => Some []
  | n :: rest =>
      match GetHashFn ref getHeader fuel cache n with
      | None => None
      | Some (hash, cache') =>
          match getHashes ref getHeader fuel cache' rest with
          | None => None
          | Some hashes => Some (hash :: hashes)
          end
      end
  end.

(** The header reached from [ref] by following [d] parent links through
    [chain.GetHeader]. *)
Fixpoint ancestor (ref : Header) (getHeader : N -> N -> option Header)
    (d : nat) : option Header :=
  match d with
  | O => Some ref
  | S d' =>
      match ancestor ref getHeader d' with
      | Some h => getHeader (ParentHash h) (parentSlot h)
      | None => None
      end
  end.

(** The hash of block [n] as seen from [ref]: the parent hash of the ancestor
    of [ref] numbered [n + 1] when the parent links lead there, the zero hash
    otherwise. *)
Definition ancestorHash (ref : Header) (getHeader : N -> N -> option Header)
    (n : N) : N :=
  let m := (n + 1) mod two64 in
  if (n <? two64) && (m <=? Number ref) then
    match ancestor ref getHeader (N.to_nat (Number ref - m)) with
    | Some a => ParentHash a
    | None => 0
    end
  else 0.

(** A cache of [GetHashFn] whose entries are the hashes [ancestorHash]
    gives, and which holds the entry the first call starts it with. *)
Definition hashCacheOk (ref : Header) (getHeader : N -> N -> option Header)
    (c : gmap N N) : Prop :=
  (forall k v, c !! k = Some v -> v = ancestorHash ref getHeader k) /\
  c !! parentSlot ref = Some (ParentHash ref).

(** ** Balances *)

(** The methods of [vm.StateDB] that [CanTransfer] and [Transfer] call;
    amounts and balances are [*big.Int]. *)
Class StateDB (DB : Type) : Type := {
  GetBalance : DB -> Address -> Z;
  SubBalance : DB -> Address -> Z -> DB;
  AddBalance : DB -> Address -> Z -> DB
}.

Definition CanTransfer {DB : Type} `{StateDB DB} (db : DB) (addr : Address)
    (amount : Z) : bool :=
  (amount <=? GetBalance db addr)%Z.

Definition Transfer {DB : Type} `{StateDB DB} (db : DB)
    (sender recipient : Address) (amount : Z) : DB :=
  AddBalance (SubBalance db sender amount) recipient amount.

(** A state database that is a map from addresses to balances, an absent
    address having balance 0. *)
Definition balanceOf (db : gmap N Z) (a : N) : Z :=
  match db !! a with
  | Some b => b
  | None => 0%Z
  end.

#[global] Instance mapStateDB : StateDB (gmap N Z) := {
  GetBalance := balanceOf;
  SubBalance := fun db a x => <[a := (balanceOf db a - x)%Z]> db;
  AddBalance := fun db a x => <[a := (balanceOf db a + x)%Z]> db
}.

(** ** The handler singleton *)

(** [SetInternalEVMHandler]: [singleton] is [IevmHSingleton], [None] while
    nil, and holds the chain of the handler it points to. *)
Definition SetInternalEVMHandler {Chain : Type} (singleton : option Chain)
    (chain : Chain) : option Chain :=
  match singleton with
  | None => Some chain
  | Some _ => singleton
  end.

(** * Properties *)

(** ** Version exchange *)

Section VersionProperties.
Context {VET : Type} `{Collaborators VET}.

Lemma shouldRequest_spec (cache : gmap N announceMsgCachedEntry) vals av :
  shouldRequest cache vals av = true <->
  inVals vals (avValAddress av) = true /\
  (cache !! avValAddress av = None \/
   exists cachedEntry, cache !! avValAddress av = Some cachedEntry /\
     MsgTimestamp cachedEntry < AnnounceMsgTimestamp av).
Proof.
  unfold shouldRequest.
  destruct (inVals vals (avValAddress av)); simpl.
  - destruct (cache !! avValAddress av) as [e|] eqn:E.
    + rewrite N.ltb_lt. split.
      * intros Hlt. split; [reflexivity|]. right. exists e. auto.
      * intros [_ [Hn | [e' [He' Hlt]]]]; [discriminate|]. congruence.
    + split; auto.
  - split; [discriminate|]. intros [Hf _]. discriminate.
Qed.

Lemma announcesToRequest_filter (cache : gmap N announceMsgCachedEntry)
    vals avs :
  announcesToRequest cache vals avs =
  avValAddress <$> filter (fun av => shouldRequest cache vals av = true) avs.
Proof.
  induction avs as [|av rest IH]; [reflexivity|].
  simpl. rewrite filter_cons.
  destruct (shouldRequest cache vals av) eqn:E.
  - rewrite decide_True by reflexivity. simpl. now rewrite IH.
  - rewrite decide_False by discriminate. exact IH.
Qed.

(** C7.  When the validator set is retrieved, [handleAnnounceVersionsMsg]
    walks the received records in order and appends a record's address to the
    request list exactly when the address is in the validator set and the
    cache has no entry for it or one with a strictly smaller timestamp.  The
    state is left as it was.  With an empty list nothing is sent and the
    handler returns nil; with a non-empty list the one outbound call is a
    GetAnnounces to the peer carrying the encoded list (or, should the encoder
    fail, its error is returned and nothing is sent). *)
Theorem version_reconciliation_request_rule
    (sb : Backend VET) (peer : N) (payload : list Byte.byte)
    (regAndActiveVals : gmap N bool) :
  let received := fst (DecodeVersions payload) in
  let toRequest :=
    announcesToRequest (cachedAnnounceMsgs sb) regAndActiveVals received in
  let o := handleAnnounceVersionsMsg sb peer payload (Ok regAndActiveVals) in
  (forall av,
     shouldRequest (cachedAnnounceMsgs sb) regAndActiveVals av = true <->
     inVals regAndActiveVals (avValAddress av) = true /\
     (cachedAnnounceMsgs sb !! avValAddress av = None \/
      exists cachedEntry,
        cachedAnnounceMsgs sb !! avValAddress av = Some cachedEntry /\
        MsgTimestamp cachedEntry < AnnounceMsgTimestamp av)) /\
  toRequest =
    avValAddress <$>
      filter (fun av =>
                shouldRequest (cachedAnnounceMsgs sb) regAndActiveVals av
                = true) received /\
  stateOf o = sb /\
  match toRequest with
  | [] => effectsOf o = [] /\ errorOf o = None
  | _ :: _ =>
      match EncodeAddresses toRequest with
      | Ok encoded =>
          effectsOf o = [EvSend peer istanbulGetAnnouncesMsg encoded] /\
          errorOf o = None
      | Err e => effectsOf o = [] /\ errorOf o = Some e
      end
  end.
Proof.
  intros received toRequest o.
  split; [intros av; apply shouldRequest_spec|].
  split; [apply announcesToRequest_filter|].
  subst o. unfold handleAnnounceVersionsMsg.
  fold received. fold toRequest.
  destruct toRequest as [|a rest]; [now split|].
  destruct (EncodeAddresses (a :: rest)); split; try reflexivity.
  all: split; reflexivity.
Qed.

Lemma elem_of_cacheVersions (cache : gmap N announceMsgCachedEntry) a t :
  {| avValAddress := a; AnnounceMsgTimestamp := t |} ∈ cacheVersions cache <->
  exists cachedEntry,
    cache !! a = Some cachedEntry /\ MsgTimestamp cachedEntry = t.
Proof.
  unfold cacheVersions. rewrite list_elem_of_fmap. split.
  - intros [[k e] [Heq Hin]]. simpl in Heq. inversion Heq; subst.
    exists e. split; [|reflexivity]. now apply elem_of_map_to_list.
  - intros [e [Hl Ht]]. exists (a, e). simpl. split.
    + now rewrite Ht.
    + now apply elem_of_map_to_list.
Qed.

Lemma cacheVersions_addresses (cache : gmap N announceMsgCachedEntry) :
  avValAddress <$> cacheVersions cache = (map_to_list cache).*1.
Proof.
  unfold cacheVersions. rewrite <- list_fmap_compose.
  apply list_fmap_ext. intros i [k e] _. reflexivity.
Qed.

(** C10.  [handleGetAnnounceVersionsMsg] does the same for every payload,
    leaves the state as it was, and builds exactly one record per cache
    entry: the record list has as many records as the cache has entries, no
    address twice, and holds [(A, t)] exactly when the cache maps [A] to an
    entry with [MsgTimestamp] [t].  Its one outbound call is an
    AnnounceVersions to the peer carrying the encoded records; the only error
    it can return is the encoder's on those records, and then nothing is
    sent. *)
Theorem getAnnounceVersions_ignores_payload
    (sb : Backend VET) (peer : N) (payload : list Byte.byte) :
  let o := handleGetAnnounceVersionsMsg sb peer payload in
  let records := cacheVersions (cachedAnnounceMsgs sb) in
  (forall payload', handleGetAnnounceVersionsMsg sb peer payload' = o) /\
  stateOf o = sb /\
  (forall a t,
     {| avValAddress := a; AnnounceMsgTimestamp := t |} ∈ records <->
     exists cachedEntry,
       cachedAnnounceMsgs sb !! a = Some cachedEntry /\
       MsgTimestamp cachedEntry = t) /\
  NoDup (avValAddress <$> records) /\
  length records = size (cachedAnnounceMsgs sb) /\
  match EncodeVersions records with
  | Ok encoded =>
      effectsOf o = [EvSend peer istanbulAnnounceVersionsMsg encoded] /\
      errorOf o = None
  | Err e => effectsOf o = [] /\ errorOf o = Some e
  end.
Proof.
  intros o records. subst o. unfold handleGetAnnounceVersionsMsg.
  fold records.
  split; [reflexivity|].
  split; [destruct (EncodeVersions records); reflexivity|].
  split; [intros a t; apply elem_of_cacheVersions|].
  split.
  { subst records. rewrite cacheVersions_addresses.
    apply NoDup_fst_map_to_list. }
  split.
  { subst records. unfold cacheVersions.
    rewrite length_fmap. apply length_map_to_list. }
  destruct (EncodeVersions records); split; reflexivity.
Qed.

End VersionProperties.

(** ** Handling an announce *)

Section AnnounceProperties.
Context {VET : Type} `{Collaborators VET}.

(** C5.  An announce whose signer is in the validator set and whose inner
    payload decodes, while the cache holds an entry for the signer with
    [MsgTimestamp >= Timestamp]: the handler returns [errOldAnnounceMessage],
    the whole state (cache, throttle, validator enode table) is what it was,
    and no outbound call is made, so no upsert and no multicast. *)
Theorem stale_announce_rejected
    (sb : Backend VET) (peer : N) (payload : list Byte.byte)
    (regAndActiveVals : gmap N bool) (msg : Message)
    (announcePayload : valEncryptedEnodes)
    (cachedEntry : announceMsgCachedEntry) (sinceNow recordNow : Z)
    (draw : Z) :
  FromPayload payload = Ok msg ->
  inVals regAndActiveVals (MsgAddress msg) = true ->
  DecodeVEE (Msg msg) = (announcePayload, None) ->
  cachedAnnounceMsgs sb !! MsgAddress msg = Some cachedEntry ->
  Timestamp announcePayload <= MsgTimestamp cachedEntry ->
  handleAnnounceMsg sb peer payload (Ok regAndActiveVals)
    sinceNow recordNow draw
  = (sb, [], Some errOldAnnounceMessage).
Proof.
  intros Hmsg Hin Hdec Hcache Hle.
  unfold handleAnnounceMsg. rewrite Hmsg, Hin, Hdec. simpl.
  unfold oldAnnounce. rewrite Hcache.
  apply N.leb_le in Hle. now rewrite Hle.
Qed.

Lemma scan_flag_stays self vals enodes :
  forall s s',
    msgHasDupsOrIrrelevantEntries s = true ->
    scanEncryptedEnodes self vals enodes s = Ok s' ->
    msgHasDupsOrIrrelevantEntries s' = true.
Proof.
  induction enodes as [|ee rest IH]; intros s s' Hflag Hscan; simpl in Hscan.
  - now inversion Hscan; subst.
  - destruct (negb (inVals vals (DecrypterAddress ee))
              || inVals (processedAddresses s) (DecrypterAddress ee)).
    + eapply IH; [|exact Hscan]. reflexivity.
    + destruct (N.eqb (DecrypterAddress ee) self).
      * destruct (ParseV4 _); [|discriminate].
        eapply IH; [|exact Hscan]. exact Hflag.
      * eapply IH; [|exact Hscan]. exact Hflag.
Qed.

Lemma inVals_insert_true (m : gmap N bool) a b :
  inVals m b = true -> inVals (<[a := true]> m) b = true.
Proof.
  unfold inVals. intros Hb.
  destruct (decide (a = b)) as [->|Hne].
  - now rewrite lookup_insert_eq.
  - now rewrite lookup_insert_ne.
Qed.

Lemma inVals_insert_same (m : gmap N bool) a :
  inVals (<[a := true]> m) a = true.
Proof. unfold inVals. now rewrite lookup_insert_eq. Qed.

(** The scan raises its flag when an entry is outside the validator set,
    repeats an earlier entry, or names an address already processed. *)
Lemma scan_flags self vals enodes :
  forall s s' before ee after,
    enodes = before ++ ee :: after ->
    (inVals vals (DecrypterAddress ee) = false \/
     DecrypterAddress ee ∈ DecrypterAddress <$> before \/
     inVals (processedAddresses s) (DecrypterAddress ee) = true) ->
    scanEncryptedEnodes self vals enodes s = Ok s' ->
    msgHasDupsOrIrrelevantEntries s' = true.
Proof.
  induction enodes as [|x rest IH];
    intros s s' before ee after Heq Hbad Hscan.
  - now destruct before.
  - simpl in Hscan.
    destruct (negb (inVals vals (DecrypterAddress x))
              || inVals (processedAddresses s) (DecrypterAddress x)) eqn:Hx.
    + eapply scan_flag_stays; [|exact Hscan]. reflexivity.
    + apply orb_false_iff in Hx as [Hxin Hxproc].
      apply negb_false_iff in Hxin.
      destruct before as [|b before'].
      * simpl in Heq. inversion Heq; subst x rest.
        destruct Hbad as [Hout | [Hdup | Hproc]].
        -- congruence.
        -- now apply elem_of_nil in Hdup.
        -- congruence.
      * simpl in Heq. inversion Heq; subst b rest.
        assert (Hbad' :
          inVals vals (DecrypterAddress ee) = false \/
          DecrypterAddress ee ∈ DecrypterAddress <$> before' \/
          inVals (<[DecrypterAddress x := true]> (processedAddresses s))
            (DecrypterAddress ee) = true).
        { destruct Hbad as [Hout | [Hdup | Hproc]].
          - now left.
          - rewrite fmap_cons in Hdup. apply elem_of_cons in Hdup.
            destruct Hdup as [-> | Hdup].
            + right. right. apply inVals_insert_same.
            + right. now left.
          - right. right. now apply inVals_insert_true. }
        destruct (N.eqb (DecrypterAddress x) self).
        -- destruct (ParseV4 _); [|discriminate].
           eapply (IH _ s' before' ee after eq_refl); [|exact Hscan].
           exact Hbad'.
        -- eapply (IH _ s' before' ee after eq_refl); [|exact Hscan].
           exact Hbad'.
Qed.

Lemma scan_hasDupOrIrrelevant self vals enodes s' :
  hasDupOrIrrelevant vals enodes ->
  scanEncryptedEnodes self vals enodes scanInit = Ok s' ->
  msgHasDupsOrIrrelevantEntries s' = true.
Proof.
  intros (before & ee & after & Heq & Hbad) Hscan.
  eapply scan_flags; [exact Heq| |exact Hscan].
  destruct Hbad as [Hout | Hdup]; [now left | right; now left].
Qed.


End AnnounceProperties.

Lemma stale_announce_rejected_witness :
  let cache :=
    <[1 := {| MsgTimestamp := 100; MsgPayload := [] |}]>
      (∅ : gmap N announceMsgCachedEntry) in
  let sb := setCache (Small.node0 9 true) cache in
  let payload := Small.announce 1 100 7 [1; 9] in
  handleAnnounceMsg sb 3 payload (Ok (Small.valSet [1; 9])) 0 0 0
  = (sb, [], Some errOldAnnounceMessage).
Proof.
  intros cache sb payload.
  eapply (stale_announce_rejected sb 3 payload (Small.valSet [1; 9])).
  - reflexivity.
  - reflexivity.
  - reflexivity.
  - reflexivity.
  - simpl. lia.
Defined.



(** ** The cached timestamp *)

Section CacheTimestamp.
Context {VET : Type} `{Collaborators VET}.

Lemma regossipAnnounce_cache (sb : Backend VET) msg payload ap vals dest
    sinceNow recordNow draw :
  cachedAnnounceMsgs
    (stateOf (regossipAnnounce sb msg payload ap vals dest
                sinceNow recordNow draw))
  = cachedAnnounceMsgs sb.
Proof.
  unfold regossipAnnounce.
  destruct (throttled _ _ _ _ _); [reflexivity|].
  destruct (pruneGate draw); [|reflexivity].
  simpl. destruct (PruneEntries _ _). reflexivity.
Qed.

Lemma admitAndRegossip_cache (sb : Backend VET) msg payload ap vals s done
    sinceNow recordNow draw :
  cachedAnnounceMsgs
    (stateOf (admitAndRegossip sb msg payload ap vals s done
                sinceNow recordNow draw))
  = if msgHasDupsOrIrrelevantEntries s then cachedAnnounceMsgs sb
    else pruneTo vals
           (<[MsgAddress msg :=
                {| MsgTimestamp := Timestamp ap; MsgPayload := payload |}]>
              (cachedAnnounceMsgs sb)).
Proof.
  unfold admitAndRegossip.
  destruct (msgHasDupsOrIrrelevantEntries s); [reflexivity|].
  match goal with
  | |- context [regossipAnnounce ?a ?b ?c ?d ?e ?f ?g ?h ?i] =>
      pose proof (regossipAnnounce_cache a b c d e f g h i) as Hc;
      destruct (regossipAnnounce a b c d e f g h i) as [[sb2 sent] err]
  end.
  exact Hc.
Qed.

(** A delivery leaves the cache alone or admits: it stores the payload under
    the signer, who is in the validator set and has no cached entry at least
    as new, and then prunes the cache to the validator set. *)
Lemma deliver_cache (sb : Backend VET) (c : announceCall) :
  cachedAnnounceMsgs (stateOf (deliver sb c)) = cachedAnnounceMsgs sb \/
  exists msg ap vals,
    FromPayload (callPayload c) = Ok msg /\
    callRetrieved c = Ok vals /\
    inVals vals (MsgAddress msg) = true /\
    DecodeVEE (Msg msg) = (ap, None) /\
    oldAnnounce (cachedAnnounceMsgs sb) (MsgAddress msg) ap = false /\
    cachedAnnounceMsgs (stateOf (deliver sb c))
    = pruneTo vals
        (<[MsgAddress msg :=
             {| MsgTimestamp := Timestamp ap;
                MsgPayload := callPayload c |}]> (cachedAnnounceMsgs sb)).
Proof.
  unfold deliver, handleAnnounceMsg.
  destruct (FromPayload (callPayload c)) as [msg|e] eqn:Hmsg; [|now left].
  destruct (callRetrieved c) as [vals|e] eqn:Hvals; [|now left].
  destruct (inVals vals (MsgAddress msg)) eqn:Hin; [|now left]. simpl.
  destruct (DecodeVEE (Msg msg)) as [ap [e|]] eqn:Hdec; [now left|].
  destruct (oldAnnounce _ _ _) eqn:Hold; [now left|].
  assert (Hadmit : forall sb0 s done,
    cachedAnnounceMsgs sb0 = cachedAnnounceMsgs sb ->
    cachedAnnounceMsgs
      (stateOf (admitAndRegossip sb0 msg (callPayload c) ap vals s done
                  (callSinceNow c) (callRecordNow c) (callDraw c)))
    = cachedAnnounceMsgs sb \/
    cachedAnnounceMsgs
      (stateOf (admitAndRegossip sb0 msg (callPayload c) ap vals s done
                  (callSinceNow c) (callRecordNow c) (callDraw c)))
    = pruneTo vals
        (<[MsgAddress msg :=
             {| MsgTimestamp := Timestamp ap;
                MsgPayload := callPayload c |}]> (cachedAnnounceMsgs sb))).
  { intros sb0 s done Hsame. rewrite admitAndRegossip_cache, Hsame.
    destruct (msgHasDupsOrIrrelevantEntries s); [now left | now right]. }
  assert (Hfinish : forall sb0 s done,
    cachedAnnounceMsgs sb0 = cachedAnnounceMsgs sb ->
    cachedAnnounceMsgs
      (stateOf (admitAndRegossip sb0 msg (callPayload c) ap vals s done
                  (callSinceNow c) (callRecordNow c) (callDraw c)))
    = cachedAnnounceMsgs sb \/
    exists msg' ap' vals',
      Ok msg = Ok msg' /\ Ok vals = Ok vals' /\
      inVals vals' (MsgAddress msg') = true /\
      DecodeVEE (Msg msg') = (ap', None) /\
      oldAnnounce (cachedAnnounceMsgs sb) (MsgAddress msg') ap' = false /\
      cachedAnnounceMsgs
        (stateOf (admitAndRegossip sb0 msg (callPayload c) ap vals s done
                    (callSinceNow c) (callRecordNow c) (callDraw c)))
      = pruneTo vals'
          (<[MsgAddress msg' :=
               {| MsgTimestamp := Timestamp ap';
                  MsgPayload := callPayload c |}]> (cachedAnnounceMsgs sb))).
  { intros sb0 s done Hsame.
    destruct (Hadmit sb0 s done Hsame) as [Hl | Hr]; [now left|].
    right. exists msg, ap, vals. repeat split; assumption. }
  destruct (coreStarted sb && inVals vals (address sb)).
  - destruct (scanEncryptedEnodes _ _ _ _) as [s|e]; [|now left].
    destruct (node s) as [n|].
    + destruct (Upsert _ _ _ _) as [table [e|]]; [now left|].
      apply Hfinish. reflexivity.
    + apply Hfinish. reflexivity.
  - apply Hfinish. reflexivity.
Qed.

Lemma deliver_entry_grows (sb : Backend VET) (c : announceCall) a e :
  cachedAnnounceMsgs sb !! a = Some e ->
  sees (fun vals => inVals vals a = true) (callRetrieved c) ->
  exists e',
    cachedAnnounceMsgs (stateOf (deliver sb c)) !! a = Some e' /\
    (e' = e \/ MsgTimestamp e < MsgTimestamp e').
Proof.
  intros Hcache Hsees.
  destruct (deliver_cache sb c)
    as [Hsame | (msg & ap & vals & Hmsg & Hvals & Hin & Hdec & Hold & Hnew)].
  - exists e. rewrite Hsame. auto.
  - rewrite Hvals in Hsees. simpl in Hsees. rewrite Hnew.
    unfold pruneTo.
    destruct (decide (MsgAddress msg = a)) as [Heq | Hne].
    + subst a. eexists. split.
      * apply map_lookup_filter_Some. split; [apply lookup_insert_eq|].
        exact Hsees.
      * right. simpl. unfold oldAnnounce in Hold. rewrite Hcache in Hold.
        now apply N.leb_gt in Hold.
    + exists e. split; [|now left].
      apply map_lookup_filter_Some. split; [|exact Hsees].
      now rewrite lookup_insert_ne.
Qed.

Lemma deliverAll_app (sb : Backend VET) cs1 cs2 :
  deliverAll sb (cs1 ++ cs2) = deliverAll (deliverAll sb cs1) cs2.
Proof.
  revert sb. induction cs1 as [|c rest IH]; intros sb; [reflexivity|].
  simpl. apply IH.
Qed.

Lemma deliverAll_entry_grows (sb : Backend VET) cs a e :
  cachedAnnounceMsgs sb !! a = Some e ->
  Forall (fun c => sees (fun vals => inVals vals a = true) (callRetrieved c))
    cs ->
  exists e',
    cachedAnnounceMsgs (deliverAll sb cs) !! a = Some e' /\
    (e' = e \/ MsgTimestamp e < MsgTimestamp e').
Proof.
  revert sb e. induction cs as [|c rest IH]; intros sb e Hcache Hall.
  - exists e. auto.
  - apply Forall_cons in Hall as [Hc Hrest]. simpl.
    destruct (deliver_entry_grows sb c a e Hcache Hc) as (e1 & H1 & Hg1).
    destruct (IH _ e1 H1 Hrest) as (e2 & H2 & Hg2).
    exists e2. split; [exact H2|].
    destruct Hg1 as [-> | Hlt1]; [exact Hg2|].
    destruct Hg2 as [-> | Hlt2]; right; [exact Hlt1 | lia].
Qed.

(** C1, amended.  Take an address [a] with a cached entry and any sequence
    of announces handled by [handleAnnounceMsg] in which every validator set
    retrieved contains [a].  Then [a] keeps an entry throughout, the entry at
    the end is the first one or has a strictly larger [MsgTimestamp], and the
    [MsgTimestamp] stored for [a] after any initial part of the sequence is at
    most the one stored at the end. *)
Theorem cache_timestamp_monotone
    (sb : Backend VET) (cs : list announceCall) (a : N)
    (e : announceMsgCachedEntry) :
  cachedAnnounceMsgs sb !! a = Some e ->
  Forall (fun c => sees (fun vals => inVals vals a = true) (callRetrieved c))
    cs ->
  exists last,
    cachedAnnounceMsgs (deliverAll sb cs) !! a = Some last /\
    (last = e \/ MsgTimestamp e < MsgTimestamp last) /\
    forall cs1 cs2, cs = cs1 ++ cs2 ->
      exists mid,
        cachedAnnounceMsgs (deliverAll sb cs1) !! a = Some mid /\
        MsgTimestamp mid <= MsgTimestamp last.
Proof.
  intros Hcache Hall.
  destruct (deliverAll_entry_grows sb cs a e Hcache Hall) as (last & Hl & Hg).
  exists last. split; [exact Hl|]. split; [exact Hg|].
  intros cs1 cs2 ->. apply Forall_app in Hall as [Hall1 Hall2].
  destruct (deliverAll_entry_grows sb cs1 a e Hcache Hall1)
    as (mid & Hm & _).
  exists mid. split; [exact Hm|].
  destruct (deliverAll_entry_grows _ cs2 a mid Hm Hall2) as (l' & Hl' & Hg').
  rewrite deliverAll_app in Hl. rewrite Hl in Hl'. inversion Hl'; subst l'.
  destruct Hg' as [-> | Hlt]; lia.
Qed.

End CacheTimestamp.

Lemma cache_timestamp_monotone_witness :
  let sb :=
    setCache (Small.node0 9 false)
      (<[1 := {| MsgTimestamp := 100; MsgPayload := [] |}]> ∅) in
  let vals := Small.valSet [1; 9] in
  let cs :=
    [ {| callPeer := 3; callPayload := Small.announce 1 101 0 [];
         callRetrieved := Ok vals; callSinceNow := 0%Z;
         callRecordNow := 0%Z; callDraw := 50%Z |};
      {| callPeer := 3; callPayload := Small.announce 1 50 0 [];
         callRetrieved := Ok vals; callSinceNow := 0%Z;
         callRecordNow := 0%Z; callDraw := 50%Z |} ] in
  exists last,
    cachedAnnounceMsgs (deliverAll sb cs) !! 1 = Some last /\
    (last = {| MsgTimestamp := 100; MsgPayload := [] |} \/
     100 < MsgTimestamp last) /\
    forall cs1 cs2, cs = cs1 ++ cs2 ->
      exists mid,
        cachedAnnounceMsgs (deliverAll sb cs1) !! 1 = Some mid /\
        MsgTimestamp mid <= MsgTimestamp last.
Proof.
  intros sb vals cs.
  apply (cache_timestamp_monotone sb cs 1
           {| MsgTimestamp := 100; MsgPayload := [] |}).
  - reflexivity.
  - repeat constructor.
Defined.

(** C1, as stated, fails.  Validator 1 is admitted with timestamp 100; it
    then leaves the validator set, and the admission of validator 2 prunes its
    entry; once it is back in the set, its announce with timestamp 50 is
    admitted.  The timestamp stored for 1 went from 100 to 50. *)
Lemma cache_timestamp_counterexample :
  let sb := Small.node0 9 false in
  let call payload vals :=
    {| callPeer := 3; callPayload := payload; callRetrieved := Ok vals;
       callSinceNow := 0%Z; callRecordNow := 0%Z; callDraw := 50%Z |} in
  let c1 := call (Small.announce 1 100 0 []) (Small.valSet [1; 2]) in
  let c2 := call (Small.announce 2 1 0 []) (Small.valSet [2]) in
  let c3 := call (Small.announce 1 50 0 []) (Small.valSet [1; 2]) in
  MsgTimestamp <$> cachedAnnounceMsgs (deliverAll sb [c1]) !! 1 = Some 100 /\
  cachedAnnounceMsgs (deliverAll sb [c1; c2]) !! 1 = None /\
  MsgTimestamp <$> cachedAnnounceMsgs (deliverAll sb [c1; c2; c3]) !! 1
    = Some 50.
Proof. repeat split; reflexivity. Qed.

Section GossipAnnounceCache.
Context {VET : Type} `{Collaborators VET}.

(** [gossipAnnounce] stores its own announce without looking at the entry
    already cached. *)
Lemma gossipAnnounce_overwrites (sb : Backend VET) r1 unixNow r2
    istMsg0 istMsg payload :
  generateAnnounce sb r1 unixNow = Ok istMsg0 ->
  MsgSign istMsg0 = Ok istMsg ->
  MsgPayload_of istMsg = Ok payload ->
  cachedAnnounceMsgs (stateOf (gossipAnnounce sb r1 unixNow r2))
  = <[ValAddress (fst (DecodeVEE (Msg istMsg))) :=
        {| MsgTimestamp := Timestamp (fst (DecodeVEE (Msg istMsg)));
           MsgPayload := payload |}]> (cachedAnnounceMsgs sb).
Proof.
  intros Hgen Hsign Hpay. unfold gossipAnnounce.
  rewrite Hgen, Hsign, Hpay.
  destruct r2 as [vals|e]; [|reflexivity].
  destruct (inVals vals (address sb)); reflexivity.
Qed.

Lemma gossipAnnounce_gossiped (sb : Backend VET) r1 unixNow r2 :
  lastAnnounceGossiped (stateOf (gossipAnnounce sb r1 unixNow r2))
  = lastAnnounceGossiped sb.
Proof.
  unfold gossipAnnounce.
  destruct (generateAnnounce sb r1 unixNow); [|reflexivity].
  destruct (MsgSign _); [|reflexivity].
  destruct (MsgPayload_of _); [|reflexivity].
  destruct r2 as [vals|e]; [|reflexivity].
  destruct (inVals vals (address sb)); reflexivity.
Qed.

Lemma gossipAnnounce_cache_cases (sb : Backend VET) r1 unixNow r2 :
  cachedAnnounceMsgs (stateOf (gossipAnnounce sb r1 unixNow r2))
  = cachedAnnounceMsgs sb \/
  exists a e,
    cachedAnnounceMsgs (stateOf (gossipAnnounce sb r1 unixNow r2))
    = <[a := e]> (cachedAnnounceMsgs sb).
Proof.
  destruct (generateAnnounce sb r1 unixNow) as [m0|e] eqn:Hgen.
  2:{ left. unfold gossipAnnounce. now rewrite Hgen. }
  destruct (MsgSign m0) as [m|e] eqn:Hsign.
  2:{ left. unfold gossipAnnounce. now rewrite Hgen, Hsign. }
  destruct (MsgPayload_of m) as [p|e] eqn:Hpay.
  2:{ left. unfold gossipAnnounce. now rewrite Hgen, Hsign, Hpay. }
  right. eexists _, _. eapply gossipAnnounce_overwrites; eassumption.
Qed.

End GossipAnnounceCache.

(** The node's own entry, admitted with timestamp 100, is replaced by the
    announce generated when the clock reads 50. *)
Example gossipAnnounce_lowers_timestamp :
  let vals := Small.valSet [1; 9] in
  let sb :=
    stateOf (handleAnnounceMsg (Small.node0 9 false) 3
               (Small.announce 9 100 0 []) (Ok vals) 0 0 50) in
  MsgTimestamp <$> cachedAnnounceMsgs sb !! 9 = Some 100 /\
  MsgTimestamp <$>
    cachedAnnounceMsgs (stateOf (gossipAnnounce sb (Ok vals) 50 (Ok vals)))
      !! 9
  = Some 50.
Proof. split; reflexivity. Qed.

(** ** The regossip throttle *)

Section Throttle.
Context {VET : Type} `{Collaborators VET}.

Lemma timeSince_lt_Minute now t :
  (timeSince now t <? Minute)%Z = true <-> (now - t < Minute)%Z.
Proof.
  rewrite Z.ltb_lt. unfold timeSince, timeSub.
  assert (Hmin : minDuration = (-9223372036854775808)%Z) by reflexivity.
  assert (Hmax : maxDuration = 9223372036854775807%Z) by reflexivity.
  assert (Hminute : Minute = 60000000000%Z) by reflexivity.
  rewrite Hmin, Hmax, Hminute. lia.
Qed.

Lemma throttled_spec (gossiped : gmap N AnnounceGossipTimestamp) a h d now :
  throttled gossiped a h d now = true <->
  exists last,
    gossiped !! a = Some last /\ enodeURLHash last = h /\
    destAddressesHash last = d /\ (now - timestamp last < Minute)%Z.
Proof.
  unfold throttled, hashEqb. destruct (gossiped !! a) as [last|].
  - rewrite !andb_true_iff, !N.eqb_eq, timeSince_lt_Minute. split.
    + intros [[Hh Hd] Ht]. exists last. auto.
    + intros (last' & Heq & Hh & Hd & Ht). inversion Heq; subst last'. auto.
  - split; [discriminate|]. intros (last' & Heq & _). discriminate.
Qed.

Lemma regossipAnnounce_throttled (sb : Backend VET) msg payload ap vals dest
    sinceNow recordNow draw :
  throttled (lastAnnounceGossiped sb) (MsgAddress msg) (EnodeURLHash ap)
    (RLPHashStrings (sortStrings dest)) sinceNow = true ->
  regossipAnnounce sb msg payload ap vals dest sinceNow recordNow draw
  = (sb, [], None).
Proof. intros Ht. unfold regossipAnnounce. now rewrite Ht. Qed.

Lemma regossipAnnounce_multicast (sb : Backend VET) msg payload ap vals dest
    sinceNow recordNow draw :
  multicast (regossipAnnounce sb msg payload ap vals dest
               sinceNow recordNow draw)
  = negb (throttled (lastAnnounceGossiped sb) (MsgAddress msg)
            (EnodeURLHash ap) (RLPHashStrings (sortStrings dest)) sinceNow).
Proof.
  unfold regossipAnnounce, multicast.
  destruct (throttled _ _ _ _ _); [reflexivity|].
  destruct (pruneGate draw); [|reflexivity].
  simpl. destruct (PruneEntries _ _). reflexivity.
Qed.

(** What a regossip that is not suppressed leaves in the table for the
    signer, when the signer is in the validator set. *)
Lemma regossipAnnounce_records (sb : Backend VET) msg payload ap vals dest
    sinceNow recordNow draw :
  inVals vals (MsgAddress msg) = true ->
  multicast (regossipAnnounce sb msg payload ap vals dest
               sinceNow recordNow draw) = true ->
  lastAnnounceGossiped
    (stateOf (regossipAnnounce sb msg payload ap vals dest
                sinceNow recordNow draw)) !! MsgAddress msg
  = Some {| enodeURLHash := EnodeURLHash ap; timestamp := recordNow;
            destAddressesHash := RLPHashStrings (sortStrings dest) |}.
Proof.
  intros Hin. rewrite regossipAnnounce_multicast.
  unfold regossipAnnounce.
  destruct (throttled _ _ _ _ _); [discriminate|]. intros _.
  destruct (pruneGate draw).
  - simpl. destruct (PruneEntries _ _). simpl. unfold pruneTo.
    apply map_lookup_filter_Some. split; [apply lookup_insert_eq|exact Hin].
  - simpl. apply lookup_insert_eq.
Qed.

(** A call that multicasts leaves its own record for the signer, unless its
    prune gate opens on a validator set without the signer. *)
Lemma regossip_records (c : regossipCall VET) :
  multicast (regossip c) = true ->
  (pruneGate (rcDraw c) = true ->
   inVals (rcVals c) (MsgAddress (rcMsg c)) = true) ->
  lastAnnounceGossiped (stateOf (regossip c)) !! MsgAddress (rcMsg c)
  = Some {| enodeURLHash := EnodeURLHash (rcAnnounce c);
            timestamp := rcRecordNow c;
            destAddressesHash := RLPHashStrings (sortStrings (rcDest c)) |}.
Proof.
  unfold regossip. rewrite regossipAnnounce_multicast.
  unfold regossipAnnounce.
  destruct (throttled _ _ _ _ _); [discriminate|]. intros _ Hin.
  destruct (pruneGate (rcDraw c)).
  - simpl. destruct (PruneEntries _ _). simpl. unfold pruneTo.
    apply map_lookup_filter_Some.
    split; [apply lookup_insert_eq | now apply Hin].
  - simpl. apply lookup_insert_eq.
Qed.

(** One call that keeps the record of [a]. *)
Lemma regossip_keeps (c : regossipCall VET) a h d t1 last :
  lastAnnounceGossiped (rcBackend c) !! a
  = Some {| enodeURLHash := h; timestamp := last;
            destAddressesHash := d |} ->
  (t1 <= last)%Z ->
  (multicast (regossip c) = true -> keepsRecord a h d t1 c) ->
  exists last',
    lastAnnounceGossiped (stateOf (regossip c)) !! a
    = Some {| enodeURLHash := h; timestamp := last';
              destAddressesHash := d |} /\
    (t1 <= last')%Z /\
    ((multicast (regossip c) = true -> MsgAddress (rcMsg c) <> a) ->
     last' = last).
Proof.
  intros Hrec Hle Hkeep.
  remember (multicast (regossip c)) as sent eqn:Hsent.
  unfold regossip in Hsent. rewrite regossipAnnounce_multicast in Hsent.
  unfold regossip, regossipAnnounce.
  destruct (throttled _ _ _ _ _).
  - exists last. auto.
  - simpl in Hsent. subst sent.
    destruct (Hkeep eq_refl) as [Hsame Hprune].
    assert (Hins : exists last',
      <[MsgAddress (rcMsg c) :=
          {| enodeURLHash := EnodeURLHash (rcAnnounce c);
             timestamp := rcRecordNow c;
             destAddressesHash :=
               RLPHashStrings (sortStrings (rcDest c)) |}]>
        (lastAnnounceGossiped (rcBackend c)) !! a
      = Some {| enodeURLHash := h; timestamp := last';
                destAddressesHash := d |} /\
      (t1 <= last')%Z /\
      ((true = true -> MsgAddress (rcMsg c) <> a) -> last' = last)).
    { destruct (decide (MsgAddress (rcMsg c) = a)) as [Heq | Hne].
      - destruct (Hsame Heq) as (Hh & Hd & Ht).
        exists (rcRecordNow c). rewrite Heq, lookup_insert_eq, Hh, Hd.
        split; [reflexivity|]. split; [exact Ht|].
        intros Hno. now destruct (Hno eq_refl).
      - exists last. rewrite lookup_insert_ne by exact Hne. auto. }
    destruct Hins as (last' & Hl & Ht & Hsame').
    exists last'. split; [|auto].
    destruct (pruneGate (rcDraw c)) eqn:Hgate.
    + simpl. destruct (PruneEntries _ _). simpl. unfold pruneTo.
      apply map_lookup_filter_Some. split; [exact Hl | now apply Hprune].
    + exact Hl.
Qed.

(** A run of calls that keep the record of [a]. *)
Lemma regossip_run_keeps a h d t1 (mid : list (regossipCall VET)) :
  forall gossiped last (c2 : regossipCall VET),
    gossiped !! a
    = Some {| enodeURLHash := h; timestamp := last;
              destAddressesHash := d |} ->
    (t1 <= last)%Z ->
    inOrderFrom gossiped (mid ++ [c2]) ->
    Forall (fun c => multicast (regossip c) = true -> keepsRecord a h d t1 c)
      mid ->
    exists last',
      lastAnnounceGossiped (rcBackend c2) !! a
      = Some {| enodeURLHash := h; timestamp := last';
                destAddressesHash := d |} /\
      (t1 <= last')%Z /\
      (Forall (fun c => multicast (regossip c) = true ->
                        MsgAddress (rcMsg c) <> a) mid ->
       last' = last).
Proof.
  induction mid as [|c rest IH]; intros gossiped last c2 Hrec Hle Hord Hkeep.
  - destruct Hord as [Hg _]. exists last. rewrite Hg. auto.
  - destruct Hord as [Hg Hord].
    apply Forall_cons in Hkeep as [Hc Hrest].
    rewrite <- Hg in Hrec.
    destruct (regossip_keeps c a h d t1 last Hrec Hle Hc)
      as (last1 & Hrec1 & Hle1 & Hsame1).
    destruct (IH _ last1 c2 Hrec1 Hle1 Hord Hrest)
      as (last' & Hrec' & Hle' & Hsame').
    exists last'. split; [exact Hrec'|]. split; [exact Hle'|].
    intros Hno. apply Forall_cons in Hno as [Hnc Hnrest].
    rewrite (Hsame' Hnrest). now apply Hsame1.
Qed.

(** C6, amended.  Take two calls [c1] and [c2] of [regossipAnnounce] for the
    same address with the same [EnodeURLHash] and the same destination hash,
    [c1] multicasting and recording the time [t1], and any calls [mid] of
    [regossipAnnounce] between them, for this or other addresses.  Suppose
    that every call among [c1] and [mid] that multicasts keeps the record: if
    it is for the address it carries the same two hashes and its clock does
    not run behind [t1], and if its prune gate opens the address is in its
    validator set.  Then [c2] finds a record for the address with these two
    hashes and a time [last] not before [t1], which is [t1] itself when no
    call of [mid] multicast for the address.  If [c2] is made less than a
    minute after [last] it returns without a multicast and without touching
    the state; so if [c2] multicasts, at least 60 seconds lie between [last],
    and hence [t1], and the call. *)
Theorem regossip_throttle_soundness
    (c1 c2 : regossipCall VET) (mid : list (regossipCall VET)) :
  let a := MsgAddress (rcMsg c1) in
  let h := EnodeURLHash (rcAnnounce c1) in
  let d := RLPHashStrings (sortStrings (rcDest c1)) in
  let t1 := rcRecordNow c1 in
  MsgAddress (rcMsg c2) = a ->
  EnodeURLHash (rcAnnounce c2) = h ->
  RLPHashStrings (sortStrings (rcDest c2)) = d ->
  inOrderFrom (lastAnnounceGossiped (stateOf (regossip c1))) (mid ++ [c2]) ->
  multicast (regossip c1) = true ->
  Forall (fun c => multicast (regossip c) = true -> keepsRecord a h d t1 c)
    (c1 :: mid) ->
  exists last,
    lastAnnounceGossiped (rcBackend c2) !! a
    = Some {| enodeURLHash := h; timestamp := last;
              destAddressesHash := d |} /\
    (t1 <= last)%Z /\
    (Forall (fun c => multicast (regossip c) = true ->
                      MsgAddress (rcMsg c) <> a) mid ->
     last = t1) /\
    ((rcSinceNow c2 - last < Minute)%Z ->
     regossip c2 = (rcBackend c2, [], None)) /\
    (multicast (regossip c2) = true ->
     (Minute <= rcSinceNow c2 - last)%Z /\
     (Minute <= rcSinceNow c2 - t1)%Z).
Proof.
  intros a h d t1 Haddr Hurl Hdest Hord Hsent Hkeep.
  apply Forall_cons in Hkeep as [Hk1 Hmid].
  destruct (Hk1 Hsent) as [_ Hprune1].
  pose proof (regossip_records c1 Hsent Hprune1) as Hrec1.
  fold a h d t1 in Hrec1.
  destruct (regossip_run_keeps a h d t1 mid _ t1 c2 Hrec1
              ltac:(lia) Hord Hmid) as (last & Hrec & Hle & Hsame).
  exists last. split; [exact Hrec|]. split; [exact Hle|].
  split; [exact Hsame|].
  assert (Hiff :
    throttled (lastAnnounceGossiped (rcBackend c2)) (MsgAddress (rcMsg c2))
      (EnodeURLHash (rcAnnounce c2))
      (RLPHashStrings (sortStrings (rcDest c2))) (rcSinceNow c2)
    = true <-> (rcSinceNow c2 - last < Minute)%Z).
  { rewrite throttled_spec, Haddr, Hurl, Hdest, Hrec. split.
    - intros (l & Heq & _ & _ & Ht). inversion Heq; subst l. exact Ht.
    - intros Ht. eexists. split; [reflexivity|]. simpl. auto. }
  split.
  - intros Ht. apply regossipAnnounce_throttled. now apply Hiff.
  - unfold regossip. rewrite regossipAnnounce_multicast. intros Hm.
    apply negb_true_iff in Hm.
    destruct (Z.lt_ge_cases (rcSinceNow c2 - last) Minute) as [Hlt|Hge].
    + apply Hiff in Hlt. congruence.
    + split; [exact Hge | lia].
Qed.

End Throttle.

Lemma regossip_throttle_soundness_witness :
  let second := 1000000000%Z in
  let msg a :=
    {| Code := istanbulAnnounceMsg; Msg := []; MsgAddress := a;
       Signature := [] |} in
  let ap a h :=
    {| ValAddress := a; EncryptedEnodes := []; EnodeURLHash := h;
       Timestamp := 5 |} in
  let call sb a h vals (t : Z) :=
    {| rcBackend := sb; rcMsg := msg a; rcPayload := [];
       rcAnnounce := ap a h; rcVals := vals; rcDest := [];
       rcSinceNow := t; rcRecordNow := t; rcDraw := 3%Z |} in
  let c1 := call (Small.node0 9 false) 1 7 (Small.valSet [1; 9]) 0%Z in
  let cm :=
    call (stateOf (regossip c1)) 2 8 (Small.valSet [1; 2; 9])
      (10 * second)%Z in
  let c2 :=
    call (stateOf (regossip cm)) 1 7 (Small.valSet [1; 9])
      (30 * second)%Z in
  multicast (regossip cm) = true /\
  regossip c2 = (rcBackend c2, [], None).
Proof.
  intros second msg ap call c1 cm c2.
  split; [reflexivity|].
  destruct (regossip_throttle_soundness c1 c2 [cm])
    as (last & _ & _ & Hlast & Hquiet & _).
  - reflexivity.
  - reflexivity.
  - reflexivity.
  - repeat split.
  - reflexivity.
  - repeat constructor; try reflexivity; try discriminate.
  - rewrite Hlast in Hquiet.
    + apply Hquiet. reflexivity.
    + repeat constructor. discriminate.
Defined.

(** C6, as stated, fails, in two ways.
    - Validator 1 announces with enode URL hash 7 at second 0, with hash 8
      at second 10 and with hash 7 again at second 20.  The table keeps one
      record per address, so the second announce replaces the record of the
      first and the third is multicast: two multicasts with the same two
      hashes, 20 seconds apart.
    - Validator 1 announces with hash 7 at second 0.  At second 5 validator 2
      announces while the validator set is {2, 9} and the draw, 3, opens the
      prune gate: the record of validator 1 is deleted.  At second 10
      validator 1 announces with hash 7 again and is multicast: two
      multicasts with the same two hashes, 10 seconds apart. *)
Lemma regossip_throttle_counterexample :
  let sb := Small.node0 9 false in
  let vals := Small.valSet [1; 9] in
  let second := 1000000000%Z in
  let call payload vs (t draw : Z) :=
    {| callPeer := 3; callPayload := payload; callRetrieved := Ok vs;
       callSinceNow := t; callRecordNow := t; callDraw := draw |} in
  let p1 := Small.announce 1 1 7 [] in
  let p2 := Small.announce 1 2 8 [] in
  let p3 := Small.announce 1 3 7 [] in
  let c1 := call p1 vals 0%Z 50%Z in
  let c2 := call p2 vals (10 * second)%Z 50%Z in
  let c3 := call p3 vals (20 * second)%Z 50%Z in
  let q2 := Small.announce 2 1 8 [] in
  let d2 := call q2 (Small.valSet [2; 9]) (5 * second)%Z 3%Z in
  let d3 := call p3 vals (10 * second)%Z 50%Z in
  (effectsOf (deliver sb c1) = [EvMulticast p1 istanbulAnnounceMsg] /\
   effectsOf (deliver (deliverAll sb [c1]) c2)
     = [EvMulticast p2 istanbulAnnounceMsg] /\
   effectsOf (deliver (deliverAll sb [c1; c2]) c3)
     = [EvMulticast p3 istanbulAnnounceMsg] /\
   EnodeURLHash (fst (DecodeVEE (drop 1 p1)))
     = EnodeURLHash (fst (DecodeVEE (drop 1 p3))) /\
   (callSinceNow c3 - callRecordNow c1 < Minute)%Z) /\
  (effectsOf (deliver (deliverAll sb [c1]) d2)
     = [EvMulticast q2 istanbulAnnounceMsg;
        EvPruneEntries (Small.valSet [2; 9])] /\
   lastAnnounceGossiped (deliverAll sb [c1; d2]) !! 1 = None /\
   effectsOf (deliver (deliverAll sb [c1; d2]) d3)
     = [EvMulticast p3 istanbulAnnounceMsg] /\
   (callSinceNow d3 - callRecordNow c1 < Minute)%Z).
Proof. repeat split; reflexivity. Qed.

(** ** Throttle entries and cache entries *)

Section ThrottleInCache.
Context {VET : Type} `{Collaborators VET}.

(** The throttle table after [regossipAnnounce]: untouched, or with a record
    for the signer, pruned to the validator set when the gate opens. *)
Lemma regossipAnnounce_gossiped (sb : Backend VET) msg payload ap vals dest
    sinceNow recordNow draw :
  let g := lastAnnounceGossiped sb in
  let g' :=
    lastAnnounceGossiped
      (stateOf (regossipAnnounce sb msg payload ap vals dest
                  sinceNow recordNow draw)) in
  g' = g \/
  exists rec,
    g' = <[MsgAddress msg := rec]> g \/
    g' = pruneTo vals (<[MsgAddress msg := rec]> g).
Proof.
  unfold regossipAnnounce.
  destruct (throttled _ _ _ _ _); [now left|].
  right. eexists.
  destruct (pruneGate draw).
  - right. simpl. destruct (PruneEntries _ _). reflexivity.
  - left. reflexivity.
Qed.

Lemma admitAndRegossip_gossiped (sb : Backend VET) msg payload ap vals s done
    sinceNow recordNow draw :
  let g := lastAnnounceGossiped sb in
  let g' :=
    lastAnnounceGossiped
      (stateOf (admitAndRegossip sb msg payload ap vals s done
                  sinceNow recordNow draw)) in
  if msgHasDupsOrIrrelevantEntries s then g' = g
  else
    g' = g \/
    exists rec,
      g' = <[MsgAddress msg := rec]> g \/
      g' = pruneTo vals (<[MsgAddress msg := rec]> g).
Proof.
  unfold admitAndRegossip.
  destruct (msgHasDupsOrIrrelevantEntries s); [reflexivity|].
  match goal with
  | |- context [regossipAnnounce ?a ?b ?c ?d ?e ?f ?g ?h ?i] =>
      pose proof (regossipAnnounce_gossiped a b c d e f g h i) as Hg;
      destruct (regossipAnnounce a b c d e f g h i) as [[sb2 sent] err]
  end.
  exact Hg.
Qed.

(** Both tables after a delivery: either as before, or the announce was
    admitted for a signer in the validator set. *)
Lemma deliver_tables (sb : Backend VET) (c : announceCall) :
  let sb' := stateOf (deliver sb c) in
  (cachedAnnounceMsgs sb' = cachedAnnounceMsgs sb /\
   lastAnnounceGossiped sb' = lastAnnounceGossiped sb) \/
  exists a e vals,
    callRetrieved c = Ok vals /\
    inVals vals a = true /\
    cachedAnnounceMsgs sb' = pruneTo vals (<[a := e]> (cachedAnnounceMsgs sb))
    /\
    (lastAnnounceGossiped sb' = lastAnnounceGossiped sb \/
     exists rec,
       lastAnnounceGossiped sb' = <[a := rec]> (lastAnnounceGossiped sb) \/
       lastAnnounceGossiped sb'
       = pruneTo vals (<[a := rec]> (lastAnnounceGossiped sb))).
Proof.
  unfold deliver, handleAnnounceMsg.
  destruct (FromPayload (callPayload c)) as [msg|e]; [|left; now split].
  destruct (callRetrieved c) as [vals|e] eqn:Hvals; [|left; now split].
  destruct (inVals vals (MsgAddress msg)) eqn:Hin; [|left; now split].
  simpl.
  destruct (DecodeVEE (Msg msg)) as [ap [e|]]; [left; now split|].
  destruct (oldAnnounce _ _ _); [left; now split|].
  assert (Hfinish : forall sb0 s done,
    cachedAnnounceMsgs sb0 = cachedAnnounceMsgs sb ->
    lastAnnounceGossiped sb0 = lastAnnounceGossiped sb ->
    let sb' :=
      stateOf (admitAndRegossip sb0 msg (callPayload c) ap vals s done
                 (callSinceNow c) (callRecordNow c) (callDraw c)) in
    (cachedAnnounceMsgs sb' = cachedAnnounceMsgs sb /\
     lastAnnounceGossiped sb' = lastAnnounceGossiped sb) \/
    exists a e vals',
      Ok vals = Ok vals' /\
      inVals vals' a = true /\
      cachedAnnounceMsgs sb'
      = pruneTo vals' (<[a := e]> (cachedAnnounceMsgs sb)) /\
      (lastAnnounceGossiped sb' = lastAnnounceGossiped sb \/
       exists rec,
         lastAnnounceGossiped sb' = <[a := rec]> (lastAnnounceGossiped sb) \/
         lastAnnounceGossiped sb'
         = pruneTo vals' (<[a := rec]> (lastAnnounceGossiped sb)))).
  { intros sb0 s done Hc Hg sb'. subst sb'.
    pose proof (admitAndRegossip_cache sb0 msg (callPayload c) ap vals s done
                  (callSinceNow c) (callRecordNow c) (callDraw c)) as Hc'.
    pose proof (admitAndRegossip_gossiped sb0 msg (callPayload c) ap vals s
                  done (callSinceNow c) (callRecordNow c) (callDraw c))
      as Hg'.
    simpl in Hg'. rewrite Hc in Hc'. rewrite Hg in Hg'.
    destruct (msgHasDupsOrIrrelevantEntries s); [left; now split|].
    right. eexists (MsgAddress msg), _, vals.
    split; [reflexivity|]. split; [exact Hin|]. split; [exact Hc'|].
    exact Hg'. }
  destruct (coreStarted sb && inVals vals (address sb)).
  - destruct (scanEncryptedEnodes _ _ _ _) as [s|e]; [|left; now split].
    destruct (node s) as [n|].
    + destruct (Upsert _ _ _ _) as [table [e|]]; [left; now split|].
      apply Hfinish; reflexivity.
    + apply Hfinish; reflexivity.
  - apply Hfinish; reflexivity.
Qed.

Lemma pruneTo_is_Some {X : Type} (vals : gmap N bool) (m : gmap N X) a :
  is_Some (pruneTo vals m !! a) <-> is_Some (m !! a) /\ inVals vals a = true.
Proof.
  unfold pruneTo, is_Some. split.
  - intros [x Hx]. apply map_lookup_filter_Some in Hx as [Hx Hin]. eauto.
  - intros [[x Hx] Hin]. exists x. apply map_lookup_filter_Some. auto.
Qed.

Lemma insert_is_Some {X : Type} (m : gmap N X) a b (x : X) :
  is_Some (<[a := x]> m !! b) <-> a = b \/ is_Some (m !! b).
Proof.
  destruct (decide (a = b)) as [->|Hne].
  - rewrite lookup_insert_eq. split; eauto.
  - rewrite lookup_insert_ne by exact Hne. split; [eauto|].
    intros [Heq | Hs]; [contradiction | exact Hs].
Qed.

Lemma throttleInCache_deliver V (sb : Backend VET) (c : announceCall) :
  throttleInCache V sb ->
  sees (fun vals => vals = V) (callRetrieved c) ->
  throttleInCache V (stateOf (deliver sb c)).
Proof.
  intros Hinv Hsees.
  destruct (deliver_tables sb c)
    as [[Hc Hg] | (a & e & vals & Hvals & Hin & Hc & Hg)].
  - intros b. rewrite Hc, Hg. apply Hinv.
  - rewrite Hvals in Hsees. simpl in Hsees. subst vals.
    assert (Hstep : forall b,
      b = a \/ is_Some (lastAnnounceGossiped sb !! b) ->
      is_Some (cachedAnnounceMsgs (stateOf (deliver sb c)) !! b) /\
      inVals V b = true).
    { intros b Hb. rewrite Hc, pruneTo_is_Some, insert_is_Some.
      destruct Hb as [-> | Hb]; [now auto|].
      destruct (Hinv b Hb) as [Hcb Hvb]. auto. }
    intros b Hb. apply Hstep.
    destruct Hg as [Hg | [rec [Hg | Hg]]]; rewrite Hg in Hb.
    + now right.
    + apply insert_is_Some in Hb as [<- | Hb]; auto.
    + apply pruneTo_is_Some in Hb as [Hb _].
      apply insert_is_Some in Hb as [<- | Hb]; auto.
Qed.

Lemma throttleInCache_gossipAnnounce V (sb : Backend VET) r1 unixNow r2 :
  throttleInCache V sb ->
  throttleInCache V (stateOf (gossipAnnounce sb r1 unixNow r2)).
Proof.
  intros Hinv b. rewrite gossipAnnounce_gossiped. intros Hb.
  destruct (Hinv b Hb) as [Hcb Hvb]. split; [|exact Hvb].
  destruct (gossipAnnounce_cache_cases sb r1 unixNow r2)
    as [Hc | (a & e & Hc)]; rewrite Hc; [exact Hcb|].
  apply insert_is_Some. now right.
Qed.

Lemma handleGetAnnouncesMsg_state (sb : Backend VET) peer payload :
  stateOf (handleGetAnnouncesMsg sb peer payload) = sb.
Proof.
  unfold handleGetAnnouncesMsg.
  destruct (DecodeAddresses payload) as [l [e|]]; reflexivity.
Qed.

Lemma handleGetAnnounceVersionsMsg_state (sb : Backend VET) peer payload :
  stateOf (handleGetAnnounceVersionsMsg sb peer payload) = sb.
Proof.
  unfold handleGetAnnounceVersionsMsg.
  destruct (EncodeVersions _); reflexivity.
Qed.

Lemma handleAnnounceVersionsMsg_state (sb : Backend VET) peer payload r :
  stateOf (handleAnnounceVersionsMsg sb peer payload r) = sb.
Proof.
  unfold handleAnnounceVersionsMsg.
  destruct r as [vals|e]; [|reflexivity].
  destruct (announcesToRequest _ _ _); [reflexivity|].
  destruct (EncodeAddresses _); reflexivity.
Qed.

(** C9, amended.  In every state reachable from empty tables through the
    handlers and [gossipAnnounce], when every validator set retrieved on the
    way is the same set [V], each address with an entry in the throttle table
    has an entry in the announce cache. *)
Theorem throttle_subset_of_cache
    (V : gmap N bool) (sb : Backend VET) (a : N) :
  reachable (fun vals => vals = V) sb ->
  is_Some (lastAnnounceGossiped sb !! a) ->
  is_Some (cachedAnnounceMsgs sb !! a).
Proof.
  intros Hreach.
  enough (Hinv : throttleInCache V sb) by (intros Ha; now apply Hinv).
  clear a. induction Hreach as
    [sb Hc Hg | sb sb' _ IH Hc Hg | sb c _ IH Hsees
    | sb r1 unixNow r2 _ IH _ _ | sb peer payload _ IH
    | sb peer payload _ IH | sb peer payload r _ IH _].
  - intros a. rewrite Hg, lookup_empty. intros [x Hx]. discriminate.
  - intros a. rewrite Hc, Hg. apply IH.
  - now apply throttleInCache_deliver.
  - now apply throttleInCache_gossipAnnounce.
  - now rewrite handleGetAnnouncesMsg_state.
  - now rewrite handleGetAnnounceVersionsMsg_state.
  - now rewrite handleAnnounceVersionsMsg_state.
Qed.

End ThrottleInCache.

Lemma throttle_subset_of_cache_witness :
  let V := Small.valSet [1; 9] in
  let sb :=
    stateOf (deliver (Small.node0 9 false)
               {| callPeer := 3; callPayload := Small.announce 1 5 0 [];
                  callRetrieved := Ok V; callSinceNow := 0%Z;
                  callRecordNow := 0%Z; callDraw := 50%Z |}) in
  is_Some (lastAnnounceGossiped sb !! 1) /\
  is_Some (cachedAnnounceMsgs sb !! 1).
Proof.
  intros V sb.
  assert (Hg : is_Some (lastAnnounceGossiped sb !! 1))
    by (eexists; reflexivity).
  split; [exact Hg|].
  apply (throttle_subset_of_cache V sb 1); [|exact Hg].
  apply reach_handleAnnounceMsg; [|reflexivity].
  apply reach_init; reflexivity.
Defined.

(** C9, as stated, fails.  Validator 2 announces and gets a cache entry and
    a throttle entry.  It then leaves the validator set; the next admission
    prunes the cache, while the throttle table is pruned only when the random
    gate opens (here the draw is 50, and it stays shut).  The state reached
    has a throttle entry for 2 and no cache entry for it. *)
Lemma throttle_subset_of_cache_counterexample :
  let call payload vals :=
    {| callPeer := 3; callPayload := payload; callRetrieved := Ok vals;
       callSinceNow := 0%Z; callRecordNow := 0%Z; callDraw := 50%Z |} in
  let c1 := call (Small.announce 2 5 0 []) (Small.valSet [1; 2]) in
  let c2 := call (Small.announce 1 5 0 []) (Small.valSet [1]) in
  let sb := deliverAll (Small.node0 9 false) [c1; c2] in
  reachable (fun _ => True) sb /\
  is_Some (lastAnnounceGossiped sb !! 2) /\
  cachedAnnounceMsgs sb !! 2 = None.
Proof.
  intros call c1 c2 sb. split; [|split].
  - subst sb. simpl.
    apply reach_handleAnnounceMsg; [|exact I].
    apply reach_handleAnnounceMsg; [|exact I].
    apply reach_init; reflexivity.
  - eexists. reflexivity.
  - reflexivity.
Qed.

(** ** The frequency state machine *)

Lemma wrapInt_small x :
  (- 2 ^ 63 <= x < 2 ^ 63)%Z -> wrapInt x = x.
Proof.
  intros Hx. unfold wrapInt.
  rewrite Z.mod_small; [lia|].
  change (2 ^ 64)%Z with (2 ^ 63 + 2 ^ 63)%Z. lia.
Qed.

(** One gossip tick in [HighFreqAfterFirstPeerState]. *)
Lemma gossipTick_after s numPeers :
  announceGossipTickerCh s = true ->
  announceGossipFrequencyState s = HighFreqAfterFirstPeerState ->
  loopStep s (GossipTick numPeers)
  = Continue
      {| announceGossipTicker := announceGossipTicker s;
         announceGossipTickerCh := true;
         announceGossipFrequencyState :=
           if (10 <=? numGossipedMsgsInHighFreqAfterFirstPeerState s)%Z
           then LowFreqState else HighFreqAfterFirstPeerState;
         currentAnnounceGossipTickerDuration :=
           currentAnnounceGossipTickerDuration s;
         numGossipedMsgsInHighFreqAfterFirstPeerState :=
           wrapInt (numGossipedMsgsInHighFreqAfterFirstPeerState s + 1) |}
      [GoGossipAnnounce].
Proof.
  intros Hch Hfreq. unfold loopStep, advanceFrequency.
  rewrite Hch, Hfreq. reflexivity.
Qed.

Lemma gossipTicks_stay numPeers k :
  forall s c,
    announceGossipTickerCh s = true ->
    announceGossipFrequencyState s = HighFreqAfterFirstPeerState ->
    numGossipedMsgsInHighFreqAfterFirstPeerState s = c ->
    (0 <= c)%Z -> (c + Z.of_nat k <= 10)%Z ->
    exists s',
      gossipTicks k numPeers s = Some (s', repeat [GoGossipAnnounce] k) /\
      announceGossipFrequencyState s' = HighFreqAfterFirstPeerState /\
      numGossipedMsgsInHighFreqAfterFirstPeerState s' = (c + Z.of_nat k)%Z.
Proof.
  induction k as [|k IH]; intros s c Hch Hfreq Hnum Hc Hk.
  - exists s. simpl. repeat split; [exact Hfreq | lia].
  - cbn [gossipTicks]. rewrite (gossipTick_after s numPeers Hch Hfreq).
    rewrite Hnum.
    assert (Hlt : (10 <=? c)%Z = false) by (apply Z.leb_gt; lia).
    rewrite Hlt.
    assert (Hw : wrapInt (c + 1) = (c + 1)%Z)
      by (apply wrapInt_small; lia).
    rewrite Hw.
    match goal with
    | |- context [gossipTicks k numPeers ?s1] =>
        destruct (IH s1 (c + 1)%Z eq_refl eq_refl eq_refl
                    ltac:(lia) ltac:(lia)) as (s' & Hrun & Hf & Hn)
    end.
    exists s'. rewrite Hrun. simpl. repeat split; [exact Hf | lia].
Qed.

Lemma gossipTicks_decay numPeers k :
  forall s c,
    announceGossipTickerCh s = true ->
    announceGossipFrequencyState s = HighFreqAfterFirstPeerState ->
    numGossipedMsgsInHighFreqAfterFirstPeerState s = c ->
    (0 <= c)%Z -> (c + Z.of_nat k = 10)%Z ->
    exists s',
      gossipTicks (S k) numPeers s
      = Some (s', repeat [GoGossipAnnounce] (S k)) /\
      announceGossipFrequencyState s' = LowFreqState.
Proof.
  induction k as [|k IH]; intros s c Hch Hfreq Hnum Hc Hk.
  - cbn [gossipTicks]. rewrite (gossipTick_after s numPeers Hch Hfreq).
    rewrite Hnum.
    assert (Hge : (10 <=? c)%Z = true) by (apply Z.leb_le; lia).
    rewrite Hge. eexists. split; reflexivity.
  - change (gossipTicks (S (S k)) numPeers s)
      with (match loopStep s (GossipTick numPeers) with
            | Continue s' acts =>
                match gossipTicks (S k) numPeers s' with
                | Some (s'', rest) => Some (s'', acts :: rest)
                | None => None
                end
            | _ => None
            end).
    rewrite (gossipTick_after s numPeers Hch Hfreq). rewrite Hnum.
    assert (Hlt : (10 <=? c)%Z = false) by (apply Z.leb_gt; lia).
    rewrite Hlt.
    assert (Hw : wrapInt (c + 1) = (c + 1)%Z)
      by (apply wrapInt_small; lia).
    rewrite Hw.
    match goal with
    | |- context [gossipTicks (S k) numPeers ?s1] =>
        destruct (IH s1 (c + 1)%Z eq_refl eq_refl eq_refl
                    ltac:(lia) ltac:(lia)) as (s' & Hrun & Hf)
    end.
    exists s'. rewrite Hrun. split; [reflexivity | exact Hf].
Qed.

Section TenTickDecay.
Context {VET : Type} `{Collaborators VET}.

(** The calls started by a gossip tick: ticker operations, which send
    nothing and leave the engine alone, and then one [gossipAnnounce]. *)
Lemma performAll_gossip_tick (sb : Backend VET) env acts :
  Forall (fun a => a = StopGossipTicker \/ exists p, a = NewGossipTicker p)
    acts ->
  performAll sb env (acts ++ [GoGossipAnnounce])
  = (stateOf (perform sb env GoGossipAnnounce),
     effectsOf (perform sb env GoGossipAnnounce)).
Proof.
  induction acts as [|a rest IH]; intros Hacts.
  - simpl. now rewrite app_nil_r.
  - apply Forall_cons in Hacts as [Ha Hrest].
    change (performAll sb env ((a :: rest) ++ [GoGossipAnnounce]))
      with (let o := perform sb env a in
            let '(sb', sent) :=
              performAll (stateOf o) env (rest ++ [GoGossipAnnounce]) in
            (sb', effectsOf o ++ sent)).
    assert (Hperf : perform sb env a = (sb, [], None))
      by (destruct Ha as [-> | [p ->]]; reflexivity).
    rewrite Hperf. cbv zeta. change (stateOf (sb, [], None)) with sb.
    rewrite (IH Hrest). reflexivity.
Qed.

Lemma advanceFrequency_ticker_actions t n :
  Forall (fun a => a = StopGossipTicker \/ exists p, a = NewGossipTicker p)
    (snd (advanceFrequency t n)).
Proof.
  unfold advanceFrequency. destruct (announceGossipFrequencyState t).
  - destruct (0 <? n)%nat; constructor.
  - constructor.
  - destruct (currentAnnounceGossipTickerDuration t
              =? LowFreqTickerDuration)%Z; [constructor|].
    simpl. apply Forall_cons. split; [now left|].
    apply Forall_cons. split; [right; now eexists | constructor].
Qed.

(** C8, amended.  Let [s] be a loop state in [HighFreqAfterFirstPeerState]
    with the counter at 0 and the gossip ticker running.  After [k <= 10]
    gossip ticks the state is still [HighFreqAfterFirstPeerState] and the
    counter is [k]; the 11th tick moves to [LowFreqState]; each of these ticks
    starts exactly one [gossipAnnounce].  For any state [t] with the ticker
    running, a gossip tick first evaluates the frequency switch and then
    starts [gossipAnnounce], as its last action and only there; in
    [HighFreqAfterFirstPeerState] the switch moves to [LowFreqState] exactly
    when the counter is at least 10, and the counter is incremented after
    that test.  What the tick sends is what that one call of [gossipAnnounce]
    sends: the multicast of the announce when the announce is generated,
    signed and serialized without error and the validator lookup succeeds
    and holds this node's address, and nothing in every other case. *)
Theorem ten_tick_decay (s t : loopState) (numPeers n : nat) :
  announceGossipTickerCh s = true ->
  announceGossipFrequencyState s = HighFreqAfterFirstPeerState ->
  numGossipedMsgsInHighFreqAfterFirstPeerState s = 0%Z ->
  announceGossipTickerCh t = true ->
  (forall k, (k <= 10)%nat ->
     exists s',
       gossipTicks k numPeers s = Some (s', repeat [GoGossipAnnounce] k) /\
       announceGossipFrequencyState s' = HighFreqAfterFirstPeerState /\
       numGossipedMsgsInHighFreqAfterFirstPeerState s' = Z.of_nat k) /\
  (exists s',
     gossipTicks 11 numPeers s = Some (s', repeat [GoGossipAnnounce] 11) /\
     announceGossipFrequencyState s' = LowFreqState) /\
  (exists t' acts,
     loopStep t (GossipTick n) = Continue t' (acts ++ [GoGossipAnnounce]) /\
     advanceFrequency t n = (t', acts) /\
     (GoGossipAnnounce ∉ acts) /\
     (announceGossipFrequencyState t = HighFreqAfterFirstPeerState ->
      (announceGossipFrequencyState t' = LowFreqState <->
       (10 <= numGossipedMsgsInHighFreqAfterFirstPeerState t)%Z) /\
      numGossipedMsgsInHighFreqAfterFirstPeerState t'
      = wrapInt (numGossipedMsgsInHighFreqAfterFirstPeerState t + 1))) /\
  (forall (sb : Backend VET) (env : surroundings),
     let o :=
       gossipAnnounce sb (seenRetrieved1 env) (seenUnixNow env)
         (seenRetrieved2 env) in
     gossipTick t sb n env
     = Some (fst (advanceFrequency t n), stateOf o, effectsOf o) /\
     (forall istMsg0 istMsg payload vals,
        generateAnnounce sb (seenRetrieved1 env) (seenUnixNow env)
        = Ok istMsg0 ->
        MsgSign istMsg0 = Ok istMsg ->
        MsgPayload_of istMsg = Ok payload ->
        seenRetrieved2 env = Ok vals ->
        inVals vals (address sb) = true ->
        effectsOf o = [EvMulticast payload istanbulAnnounceMsg]) /\
     (effectsOf o = [] \/
      exists istMsg0 istMsg payload vals,
        generateAnnounce sb (seenRetrieved1 env) (seenUnixNow env)
        = Ok istMsg0 /\
        MsgSign istMsg0 = Ok istMsg /\
        MsgPayload_of istMsg = Ok payload /\
        seenRetrieved2 env = Ok vals /\
        inVals vals (address sb) = true)).
Proof.
  intros Hch Hfreq Hnum Hcht. split; [|split; [|split]].
  - intros k Hk.
    destruct (gossipTicks_stay numPeers k s 0%Z Hch Hfreq Hnum
                ltac:(lia) ltac:(lia)) as (s' & Hrun & Hf & Hn).
    exists s'. repeat split; [exact Hrun | exact Hf | lia].
  - apply (gossipTicks_decay numPeers 10 s 0%Z Hch Hfreq Hnum); lia.
  - destruct (advanceFrequency t n) as [t' acts] eqn:Hadv.
    exists t', acts. split; [|split; [reflexivity|split]].
    + unfold loopStep. now rewrite Hcht, Hadv.
    + unfold advanceFrequency in Hadv.
      destruct (announceGossipFrequencyState t).
      * destruct (0 <? n)%nat; inversion Hadv; subst;
          apply not_elem_of_nil.
      * inversion Hadv; subst. apply not_elem_of_nil.
      * destruct (currentAnnounceGossipTickerDuration t
                  =? LowFreqTickerDuration)%Z;
          inversion Hadv; subst; [apply not_elem_of_nil|].
        intros Hel. apply elem_of_cons in Hel as [Hel | Hel];
          [discriminate|].
        apply elem_of_cons in Hel as [Hel | Hel]; [discriminate|].
        now apply elem_of_nil in Hel.
    + intros Hft. unfold advanceFrequency in Hadv. rewrite Hft in Hadv.
      inversion Hadv; subst t'. simpl. split; [|reflexivity].
      destruct (10 <=? numGossipedMsgsInHighFreqAfterFirstPeerState t)%Z
        eqn:Hge.
      * apply Z.leb_le in Hge. now split.
      * apply Z.leb_gt in Hge. split; [discriminate | lia].
  - intros sb env o. split; [|split].
    + unfold gossipTick, loopStep. rewrite Hcht.
      pose proof (advanceFrequency_ticker_actions t n) as Hacts.
      destruct (advanceFrequency t n) as [t' acts]. simpl in Hacts.
      rewrite (performAll_gossip_tick sb env acts Hacts). reflexivity.
    + intros m0 m p vals Hgen Hsign Hpay Hr2 Hin. subst o.
      unfold gossipAnnounce. now rewrite Hgen, Hsign, Hpay, Hr2, Hin.
    + subst o. unfold gossipAnnounce.
      destruct (generateAnnounce sb _ _) as [m0|e]; [|now left].
      destruct (MsgSign m0) as [m|e] eqn:Hsign; [|now left].
      destruct (MsgPayload_of m) as [p|e] eqn:Hpay; [|now left].
      destruct (seenRetrieved2 env) as [vals|e]; [|now left].
      destruct (inVals vals (address sb)) eqn:Hin; [|now left].
      right. exists m0, m, p, vals. repeat split; assumption.
Qed.

End TenTickDecay.

Lemma ten_tick_decay_witness :
  let s :=
    {| announceGossipTicker := Some HighFreqTickerDuration;
       announceGossipTickerCh := true;
       announceGossipFrequencyState := HighFreqAfterFirstPeerState;
       currentAnnounceGossipTickerDuration := HighFreqTickerDuration;
       numGossipedMsgsInHighFreqAfterFirstPeerState := 0%Z |} in
  let sb := Small.node0 9 true in
  let env :=
    {| seenRetrieved1 := Ok (Small.valSet [1; 9]); seenUnixNow := 5%Z;
       seenRetrieved2 := Ok (Small.valSet [1; 9]); seenPeers := [3] |} in
  (exists s',
     gossipTicks 11 1 s = Some (s', repeat [GoGossipAnnounce] 11) /\
     announceGossipFrequencyState s' = LowFreqState) /\
  (exists s' sb' payload,
     gossipTick s sb 1 env
     = Some (s', sb', [EvMulticast payload istanbulAnnounceMsg])).
Proof.
  intros s sb env.
  destruct (ten_tick_decay s s 1 1 eq_refl eq_refl eq_refl eq_refl)
    as (_ & Hdecay & _ & Hsend).
  split; [exact Hdecay|].
  destruct (Hsend sb env) as (Htick & _ & _).
  rewrite Htick. eexists _, _, _. vm_compute. reflexivity.
Defined.

(** C8, as stated, fails.  A node whose core is started but whose address, 9,
    is not in the validator set {1, 2} gets a gossip tick with the ticker
    running.  The tick evaluates the frequency switch and starts
    [gossipAnnounce], which generates and caches the announce and then
    returns without a multicast: nothing is emitted on this tick. *)
Lemma ten_tick_decay_counterexample :
  let s :=
    {| announceGossipTicker := Some HighFreqTickerDuration;
       announceGossipTickerCh := true;
       announceGossipFrequencyState := HighFreqAfterFirstPeerState;
       currentAnnounceGossipTickerDuration := HighFreqTickerDuration;
       numGossipedMsgsInHighFreqAfterFirstPeerState := 0%Z |} in
  let sb := Small.node0 9 true in
  let env :=
    {| seenRetrieved1 := Ok (Small.valSet [1; 2]); seenUnixNow := 5%Z;
       seenRetrieved2 := Ok (Small.valSet [1; 2]); seenPeers := [3] |} in
  exists s' sb',
    loopStep s (GossipTick 1) = Continue s' [GoGossipAnnounce] /\
    gossipTick s sb 1 env = Some (s', sb', []) /\
    is_Some (cachedAnnounceMsgs sb' !! 9).
Proof.
  intros s sb env. eexists _, _.
  split; [reflexivity|]. split; [vm_compute; reflexivity|].
  eexists. vm_compute. reflexivity.
Qed.

(** The state and actions of the whole run of the scenario: start of the
    core, no peer on the first tick, then a peer. *)
Example loop_first_peer :
  match loopStep loopInit (CoreStartStop true) with
  | Continue s0 _ =>
      match gossipTicks 1 0 s0 with
      | Some (s1, acts1) =>
          announceGossipFrequencyState s1 = HighFreqBeforeFirstPeerState /\
          acts1 = [[GoGossipAnnounce]] /\
          match gossipTicks 1 1 s1 with
          | Some (s2, acts2) =>
              announceGossipFrequencyState s2 = HighFreqAfterFirstPeerState /\
              numGossipedMsgsInHighFreqAfterFirstPeerState s2 = 0%Z /\
              acts2 = [[GoGossipAnnounce]]
          | None => False
          end
      | None => False
      end
  | _ => False
  end.
Proof. repeat split; reflexivity. Qed.

(** ** The prune gate *)

Lemma succ_div_mod_100 z :
  (0 <= z)%Z ->
  (z mod 100 < 99 /\ (z + 1) / 100 = z / 100
                 /\ (z + 1) mod 100 = z mod 100 + 1)%Z \/
  (z mod 100 = 99 /\ (z + 1) / 100 = z / 100 + 1 /\ (z + 1) mod 100 = 0)%Z.
Proof.
  intros Hz.
  pose proof (Z.div_mod z 100 ltac:(lia)) as Hdm.
  pose proof (Z.mod_pos_bound z 100 ltac:(lia)) as Hb.
  destruct (Z.lt_ge_cases (z mod 100) 99) as [Hlt | Hge].
  - left. split; [exact Hlt|]. split; symmetry.
    + apply (Z.div_unique _ _ _ (z mod 100 + 1)); lia.
    + apply (Z.mod_unique _ _ (z / 100)); lia.
  - right. split; [lia|]. split; symmetry.
    + apply (Z.div_unique _ _ _ 0); lia.
    + apply (Z.mod_unique _ _ (z / 100 + 1)); lia.
Qed.

Lemma gateCount_closed (n : nat) :
  Z.of_nat (gateCount n)
  = (6 * (Z.of_nat n / 100) + Z.min (Z.of_nat n mod 100) 6)%Z.
Proof.
  induction n as [|k IH]; [reflexivity|].
  cbn [gateCount]. rewrite Nat2Z.inj_add, IH.
  replace (Z.of_nat (S k)) with (Z.of_nat k + 1)%Z by lia.
  unfold pruneGate.
  rewrite Z.rem_mod_nonneg by lia.
  pose proof (Z.mod_pos_bound (Z.of_nat k) 100 ltac:(lia)) as Hb.
  destruct (succ_div_mod_100 (Z.of_nat k) ltac:(lia))
    as [(Hr & -> & ->) | (Hr & -> & ->)];
  destruct (Z.of_nat k mod 100 <=? 5)%Z eqn:Hg;
    [apply Z.leb_le in Hg | apply Z.leb_gt in Hg
    |apply Z.leb_le in Hg | apply Z.leb_gt in Hg];
    cbn [Z.of_nat Pos.of_succ_nat]; lia.
Qed.

(** C4.  The gate of the full-sweep prune opens for the draw 5; it opens
    for 6 of the 100 residues, and for 553402322211286554 of the 2^63 values
    [mrand.Int()] can return, which is not one twentieth of them (twenty times
    the count exceeds 2^63 by more than a fifth of it). *)
Theorem prune_gate_rate :
  pruneGate 5 = true /\
  gateCount 100 = 6%nat /\
  Z.of_nat (gateCount (Z.to_nat randIntRange)) = 553402322211286554%Z /\
  (20 * Z.of_nat (gateCount (Z.to_nat randIntRange)) <> randIntRange)%Z /\
  (randIntRange / 5
   < 20 * Z.of_nat (gateCount (Z.to_nat randIntRange)) - randIntRange)%Z.
Proof.
  assert (Hcount :
    Z.of_nat (gateCount (Z.to_nat randIntRange)) = 553402322211286554%Z).
  { rewrite gateCount_closed.
    rewrite Z2Nat.id by (unfold randIntRange; lia).
    reflexivity. }
  split; [reflexivity|]. split; [reflexivity|]. split; [exact Hcount|].
  rewrite Hcount. split; [discriminate | reflexivity].
Qed.

(** ** A failed decode in [handleAnnounceVersionsMsg] *)

Section DecodeError.
Context {VET : Type} `{Collaborators VET}.

(** The handler does not look at the decoder's error: a record left in the
    target by a failed decode is requested like any other. *)
Lemma handleAnnounceVersionsMsg_after_decode_error
    (sb : Backend VET) peer payload vals avs e av encoded :
  DecodeVersions payload = (avs, Some e) ->
  av ∈ avs ->
  shouldRequest (cachedAnnounceMsgs sb) vals av = true ->
  EncodeAddresses (announcesToRequest (cachedAnnounceMsgs sb) vals avs)
  = Ok encoded ->
  handleAnnounceVersionsMsg sb peer payload (Ok vals)
  = (sb, [EvSend peer istanbulGetAnnouncesMsg encoded], None).
Proof.
  intros Hdec Hin Hreq Henc. unfold handleAnnounceVersionsMsg.
  rewrite Hdec. simpl.
  destruct (announcesToRequest (cachedAnnounceMsgs sb) vals avs)
    as [|a rest] eqn:Hlist.
  - exfalso.
    assert (Hel : avValAddress av
                  ∈ announcesToRequest (cachedAnnounceMsgs sb) vals avs).
    { rewrite announcesToRequest_filter. apply list_elem_of_fmap.
      exists av. split; [reflexivity|].
      apply list_elem_of_filter. now split. }
    rewrite Hlist in Hel. now apply elem_of_nil in Hel.
  - now rewrite Henc.
Qed.

End DecodeError.

(** C3.  A payload made of the record (validator 1, timestamp 9) followed
    by a stray byte: the decoder reports an error, and the handler still sends
    the peer a GetAnnounces for validator 1 and returns nil. *)
Theorem announceVersions_decode_error_sends :
  let sb := Small.node0 9 false in
  let payload := [Byte.x01; Byte.x09; Byte.x00] in
  DecodeVersions payload
  = ([{| avValAddress := 1; AnnounceMsgTimestamp := 9 |}],
     Some (errOther "rlp: input contains more than one value")) /\
  handleAnnounceVersionsMsg sb 3 payload (Ok (Small.valSet [1; 9]))
  = (sb, [EvSend 3 istanbulGetAnnouncesMsg [Byte.x01]], None).
Proof. split; reflexivity. Qed.

(** ** Scenarios *)

(** Version reconciliation: the cache holds 1 at 5 and 2 at 7, the peer
    reports 1 at 9, 2 at 4 and 3 at 3; the request names 1 and 3. *)
Example reconcile_versions :
  let cache : gmap N announceMsgCachedEntry :=
    <[1 := {| MsgTimestamp := 5; MsgPayload := [] |}]>
      (<[2 := {| MsgTimestamp := 7; MsgPayload := [] |}]> ∅) in
  let sb := setCache (Small.node0 9 false) cache in
  let payload :=
    [Byte.x01; Byte.x09; Byte.x02; Byte.x04; Byte.x03; Byte.x03] in
  handleAnnounceVersionsMsg sb 3 payload (Ok (Small.valSet [1; 2; 3]))
  = (sb, [EvSend 3 istanbulGetAnnouncesMsg [Byte.x01; Byte.x03]], None).
Proof. reflexivity. Qed.

(** A newer announce is admitted and multicast once; the same announce
    delivered again 30 seconds later is rejected as old. *)
Example newer_admit_then_repeat :
  let vals := Small.valSet [1; 2; 3; 9] in
  let sb :=
    setCache (Small.node0 9 false)
      (<[1 := {| MsgTimestamp := 100; MsgPayload := [] |}]> ∅) in
  let payload := Small.announce 1 101 7 [2; 3] in
  let o1 := handleAnnounceMsg sb 3 payload (Ok vals) 0 0 50 in
  let o2 :=
    handleAnnounceMsg (stateOf o1) 3 payload (Ok vals)
      30000000000 30000000000 50 in
  cachedAnnounceMsgs (stateOf o1) !! 1
    = Some {| MsgTimestamp := 101; MsgPayload := payload |} /\
  effectsOf o1 = [EvMulticast payload istanbulAnnounceMsg] /\
  o2 = (stateOf o1, [], Some errOldAnnounceMessage).
Proof. repeat split; reflexivity. Qed.

(** [handleGetAnnouncesMsg] answers with the cached payloads of the
    addresses it knows and passes over the others. *)
Example get_announces_known_only :
  let sb :=
    setCache (Small.node0 9 false)
      (<[1 := {| MsgTimestamp := 5; MsgPayload := [Byte.x2a] |}]> ∅) in
  handleGetAnnouncesMsg sb 3 [Byte.x02; Byte.x01]
  = (sb, [EvSend 3 istanbulAnnounceMsg [Byte.x2a]], None).
Proof. reflexivity. Qed.

(** * Further properties *)

(** ** The scan over the recipients *)

Section ScanProperties.
Context {VET : Type} `{Collaborators VET}.

Lemma inVals_insert_inv (m : gmap N bool) a b :
  inVals (<[a := true]> m) b = true -> a = b \/ inVals m b = true.
Proof.
  unfold inVals. destruct (decide (a = b)) as [->|Hne]; [now left|].
  rewrite lookup_insert_ne by exact Hne. now right.
Qed.

Lemma inVals_insert_other (m : gmap N bool) a b :
  a <> b -> inVals (<[a := true]> m) b = inVals m b.
Proof. intros Hne. unfold inVals. now rewrite lookup_insert_ne. Qed.

Lemma inVals_empty a : inVals ∅ a = false.
Proof. unfold inVals. now rewrite lookup_empty. Qed.

(** One step of the scan on an entry that passes the test. *)
Lemma scan_cons_pass self vals ee rest s :
  inVals vals (DecrypterAddress ee) = true ->
  inVals (processedAddresses s) (DecrypterAddress ee) = false ->
  scanEncryptedEnodes self vals (ee :: rest) s
  = match (if N.eqb (DecrypterAddress ee) self
           then match ParseV4 (string_of_list_byte (EncryptedEnodeURL ee))
                with
                | Ok n => Ok (Some n)
                | Err e => Err e
                end
           else Ok (node s)) with
    | Err e => Err e
    | Ok nd =>
        scanEncryptedEnodes self vals rest
          {| node := nd;
             destAddresses :=
               destAddresses s ++ [AddressString (DecrypterAddress ee)];
             processedAddresses :=
               <[DecrypterAddress ee := true]> (processedAddresses s);
             msgHasDupsOrIrrelevantEntries :=
               msgHasDupsOrIrrelevantEntries s |}
    end.
Proof. intros Hin Hproc. simpl. now rewrite Hin, Hproc. Qed.

Lemma scan_cons_skip self vals ee rest s :
  negb (inVals vals (DecrypterAddress ee))
  || inVals (processedAddresses s) (DecrypterAddress ee) = true ->
  scanEncryptedEnodes self vals (ee :: rest) s
  = scanEncryptedEnodes self vals rest
      {| node := node s; destAddresses := destAddresses s;
         processedAddresses := processedAddresses s;
         msgHasDupsOrIrrelevantEntries := true |}.
Proof. intros Ht. simpl. now rewrite Ht. Qed.

(** Where a raised flag comes from. *)
Lemma scan_flag_origin self vals enodes :
  forall s s',
    scanEncryptedEnodes self vals enodes s = Ok s' ->
    msgHasDupsOrIrrelevantEntries s' = true ->
    msgHasDupsOrIrrelevantEntries s = true \/
    exists before ee after,
      enodes = before ++ ee :: after /\
      (inVals vals (DecrypterAddress ee) = false \/
       DecrypterAddress ee ∈ DecrypterAddress <$> before \/
       inVals (processedAddresses s) (DecrypterAddress ee) = true).
Proof.
  induction enodes as [|x rest IH]; intros s s' Hscan Hflag.
  - simpl in Hscan. inversion Hscan; subst. now left.
  - destruct (negb (inVals vals (DecrypterAddress x))
              || inVals (processedAddresses s) (DecrypterAddress x)) eqn:Hx.
    + right. exists [], x, rest. split; [reflexivity|].
      apply orb_true_iff in Hx as [Hx | Hx].
      * left. now apply negb_true_iff in Hx.
      * right. now right.
    + apply orb_false_iff in Hx as [Hxin Hxproc].
      apply negb_false_iff in Hxin.
      rewrite (scan_cons_pass self vals x rest s Hxin Hxproc) in Hscan.
      destruct (if N.eqb (DecrypterAddress x) self then _ else _)
        as [nd|e]; [|discriminate].
      destruct (IH _ _ Hscan Hflag)
        as [Hs | (before & ee & after & Heq & Hbad)]; [now left|].
      right. exists (x :: before), ee, after. split; [now rewrite Heq|].
      simpl in Hbad. destruct Hbad as [Hout | [Hdup | Hproc]].
      * now left.
      * right. left. rewrite fmap_cons. apply elem_of_cons. now right.
      * apply inVals_insert_inv in Hproc as [Heq' | Hproc].
        -- right. left. rewrite fmap_cons, Heq'. apply elem_of_cons.
           now left.
        -- right. now right.
Qed.

(** What the scan has collected when it ends with the flag down. *)
Lemma scan_clean self vals enodes :
  forall s s',
    scanEncryptedEnodes self vals enodes s = Ok s' ->
    msgHasDupsOrIrrelevantEntries s' = false ->
    msgHasDupsOrIrrelevantEntries s = false /\
    destAddresses s'
    = destAddresses s
        ++ ((fun ee => AddressString (DecrypterAddress ee)) <$> enodes) /\
    (forall a,
       inVals (processedAddresses s') a = true <->
       inVals (processedAddresses s) a = true \/
       a ∈ DecrypterAddress <$> enodes).
Proof.
  induction enodes as [|x rest IH]; intros s s' Hscan Hflag.
  - simpl in Hscan. inversion Hscan; subst. split; [exact Hflag|].
    split; [now rewrite app_nil_r|].
    intros a. split; [now left|]. intros [Ha | Ha]; [exact Ha|].
    now apply elem_of_nil in Ha.
  - destruct (negb (inVals vals (DecrypterAddress x))
              || inVals (processedAddresses s) (DecrypterAddress x)) eqn:Hx.
    + rewrite (scan_cons_skip self vals x rest s Hx) in Hscan.
      assert (Hup : msgHasDupsOrIrrelevantEntries s' = true).
      { eapply scan_flag_stays; [|exact Hscan]. reflexivity. }
      congruence.
    + apply orb_false_iff in Hx as [Hxin Hxproc].
      apply negb_false_iff in Hxin.
      rewrite (scan_cons_pass self vals x rest s Hxin Hxproc) in Hscan.
      destruct (if N.eqb (DecrypterAddress x) self then _ else _)
        as [nd|e]; [|discriminate].
      destruct (IH _ _ Hscan Hflag) as (Hf & Hd & Hp). simpl in Hf, Hd, Hp.
      split; [exact Hf|]. split.
      * rewrite Hd, fmap_cons, <- app_assoc. reflexivity.
      * intros a. rewrite Hp, fmap_cons, elem_of_cons. split.
        -- intros [Ha | Ha]; [|now right; right].
           apply inVals_insert_inv in Ha as [<- | Ha]; [right|]; auto.
        -- intros [Ha | [-> | Ha]]; [left | left | now right].
           ++ now apply inVals_insert_true.
           ++ apply inVals_insert_same.
Qed.

(** X1.  When the scan runs to its end, its flag tells exactly whether the
    entries contain a recipient outside the validator set or a repeated
    recipient. *)
Theorem scan_flag_iff
    (self : N) (vals : gmap N bool) (enodes : list encryptedEnode)
    (s' : scanState) :
  scanEncryptedEnodes self vals enodes scanInit = Ok s' ->
  (msgHasDupsOrIrrelevantEntries s' = true <->
   hasDupOrIrrelevant vals enodes).
Proof.
  intros Hscan. split.
  - intros Hflag.
    destruct (scan_flag_origin self vals enodes _ _ Hscan Hflag)
      as [Hs | (before & ee & after & Heq & Hbad)]; [discriminate|].
    exists before, ee, after. split; [exact Heq|].
    destruct Hbad as [Hout | [Hdup | Hproc]]; [now left | now right|].
    simpl in Hproc. now rewrite inVals_empty in Hproc.
  - intros Hbad. eapply scan_hasDupOrIrrelevant; eassumption.
Qed.

(** X2.  When the scan ends with the flag down, the destination list it
    hands to [regossipAnnounce] names every recipient of the announce, in the
    order of the entries, and the processed set holds exactly those
    recipients. *)
Theorem scan_clean_destinations
    (self : N) (vals : gmap N bool) (enodes : list encryptedEnode)
    (s' : scanState) :
  scanEncryptedEnodes self vals enodes scanInit = Ok s' ->
  msgHasDupsOrIrrelevantEntries s' = false ->
  destAddresses s'
  = (fun ee => AddressString (DecrypterAddress ee)) <$> enodes /\
  (forall a,
     inVals (processedAddresses s') a = true <->
     a ∈ DecrypterAddress <$> enodes).
Proof.
  intros Hscan Hflag.
  destruct (scan_clean self vals enodes _ _ Hscan Hflag) as (_ & Hd & Hp).
  split; [exact Hd|].
  intros a. rewrite Hp. simpl. rewrite inVals_empty. split.
  - intros [Hf | Ha]; [discriminate | exact Ha].
  - intros Ha. now right.
Qed.

(** Where the parsed node and a parse error come from. *)
Lemma scan_node_origin self vals enodes :
  forall s s' n,
    scanEncryptedEnodes self vals enodes s = Ok s' ->
    node s' = Some n ->
    node s = Some n \/
    exists ee,
      ee ∈ enodes /\ DecrypterAddress ee = self /\
      inVals vals self = true /\
      ParseV4 (string_of_list_byte (EncryptedEnodeURL ee)) = Ok n.
Proof.
  induction enodes as [|x rest IH]; intros s s' n Hscan Hnode.
  - simpl in Hscan. inversion Hscan; subst. now left.
  - destruct (negb (inVals vals (DecrypterAddress x))
              || inVals (processedAddresses s) (DecrypterAddress x)) eqn:Hx.
    + rewrite (scan_cons_skip self vals x rest s Hx) in Hscan.
      destruct (IH _ _ _ Hscan Hnode) as [Hs | (ee & Hin & Hrest)];
        [now left|].
      right. exists ee. split; [|exact Hrest]. apply elem_of_cons. now right.
    + apply orb_false_iff in Hx as [Hxin Hxproc].
      apply negb_false_iff in Hxin.
      rewrite (scan_cons_pass self vals x rest s Hxin Hxproc) in Hscan.
      destruct (N.eqb (DecrypterAddress x) self) eqn:Hself.
      * apply N.eqb_eq in Hself.
        destruct (ParseV4 (string_of_list_byte (EncryptedEnodeURL x)))
          as [n0|e] eqn:Hparse; [|discriminate].
        destruct (IH _ _ _ Hscan Hnode) as [Hs | (ee & Hin & Hrest)].
        -- simpl in Hs. inversion Hs; subst n0. right. exists x.
           split; [apply elem_of_cons; now left|].
           split; [exact Hself|]. split; [now rewrite <- Hself|].
           exact Hparse.
        -- right. exists ee. split; [|exact Hrest].
           apply elem_of_cons. now right.
      * destruct (IH _ _ _ Hscan Hnode) as [Hs | (ee & Hin & Hrest)];
          [now left|].
        right. exists ee. split; [|exact Hrest].
        apply elem_of_cons. now right.
Qed.

Lemma scan_error_origin self vals enodes :
  forall s e,
    scanEncryptedEnodes self vals enodes s = Err e ->
    exists ee,
      ee ∈ enodes /\ DecrypterAddress ee = self /\
      inVals vals self = true /\
      ParseV4 (string_of_list_byte (EncryptedEnodeURL ee)) = Err e.
Proof.
  induction enodes as [|x rest IH]; intros s e Hscan; [discriminate|].
  destruct (negb (inVals vals (DecrypterAddress x))
            || inVals (processedAddresses s) (DecrypterAddress x)) eqn:Hx.
  - rewrite (scan_cons_skip self vals x rest s Hx) in Hscan.
    destruct (IH _ _ Hscan) as (ee & Hin & Hrest).
    exists ee. split; [|exact Hrest]. apply elem_of_cons. now right.
  - apply orb_false_iff in Hx as [Hxin Hxproc].
    apply negb_false_iff in Hxin.
    rewrite (scan_cons_pass self vals x rest s Hxin Hxproc) in Hscan.
    destruct (N.eqb (DecrypterAddress x) self) eqn:Hself.
    + apply N.eqb_eq in Hself.
      destruct (ParseV4 (string_of_list_byte (EncryptedEnodeURL x)))
        as [n0|e0] eqn:Hparse.
      * destruct (IH _ _ Hscan) as (ee & Hin & Hrest).
        exists ee. split; [|exact Hrest]. apply elem_of_cons. now right.
      * inversion Hscan; subst e0. exists x.
        split; [apply elem_of_cons; now left|].
        split; [exact Hself|]. split; [now rewrite <- Hself|].
        exact Hparse.
    + destruct (IH _ _ Hscan) as (ee & Hin & Hrest).
      exists ee. split; [|exact Hrest]. apply elem_of_cons. now right.
Qed.

End ScanProperties.

Lemma scan_flag_iff_witness :
  let vals := Small.valSet [1; 9] in
  let enodes :=
    [ {| DecrypterAddress := 9; EncryptedEnodeURL := [Byte.x61] |};
      {| DecrypterAddress := 7; EncryptedEnodeURL := [] |} ] in
  let s' :=
    {| node := Some {| nodeURL := "a" |};
       destAddresses := [AddressString 9];
       processedAddresses := <[9 := true]> ∅;
       msgHasDupsOrIrrelevantEntries := true |} in
  msgHasDupsOrIrrelevantEntries s' = true <->
  hasDupOrIrrelevant vals enodes.
Proof.
  intros vals enodes s'.
  apply (scan_flag_iff 9 vals enodes s'). reflexivity.
Defined.

Lemma scan_clean_destinations_witness :
  let vals := Small.valSet [1; 9] in
  let enodes :=
    [ {| DecrypterAddress := 9; EncryptedEnodeURL := [Byte.x61] |};
      {| DecrypterAddress := 1; EncryptedEnodeURL := [] |} ] in
  let s' :=
    {| node := Some {| nodeURL := "a" |};
       destAddresses := [AddressString 9; AddressString 1];
       processedAddresses := <[1 := true]> (<[9 := true]> ∅);
       msgHasDupsOrIrrelevantEntries := false |} in
  destAddresses s'
  = (fun ee => AddressString (DecrypterAddress ee)) <$> enodes /\
  (forall a,
     inVals (processedAddresses s') a = true <->
     a ∈ DecrypterAddress <$> enodes).
Proof.
  intros vals enodes s'.
  apply (scan_clean_destinations 9 vals enodes s'); reflexivity.
Defined.

(** ** What handling an announce does to the tables *)

Section DeliveryProperties.
Context {VET : Type} `{Collaborators VET}.

Lemma regossipAnnounce_effects (sb : Backend VET) msg payload ap vals dest
    sinceNow recordNow draw :
  let sent :=
    effectsOf (regossipAnnounce sb msg payload ap vals dest
                 sinceNow recordNow draw) in
  sent = [] \/
  sent = [EvMulticast payload istanbulAnnounceMsg] \/
  sent = [EvMulticast payload istanbulAnnounceMsg; EvPruneEntries vals].
Proof.
  unfold regossipAnnounce.
  destruct (throttled _ _ _ _ _); [now left|].
  destruct (pruneGate draw).
  - right. right. simpl. destruct (PruneEntries _ _). reflexivity.
  - right. left. reflexivity.
Qed.

Lemma admitAndRegossip_effects (sb : Backend VET) msg payload ap vals s done
    sinceNow recordNow draw :
  exists sent,
    effectsOf (admitAndRegossip sb msg payload ap vals s done
                 sinceNow recordNow draw) = done ++ sent /\
    (sent = [] \/
     msgHasDupsOrIrrelevantEntries s = false /\
     (sent = [EvMulticast payload istanbulAnnounceMsg] \/
      sent = [EvMulticast payload istanbulAnnounceMsg;
              EvPruneEntries vals])).
Proof.
  unfold admitAndRegossip.
  destruct (msgHasDupsOrIrrelevantEntries s).
  { exists []. split; [now rewrite app_nil_r | now left]. }
  match goal with
  | |- context [regossipAnnounce ?a ?b ?c ?d ?e ?f ?g ?h ?i] =>
      pose proof (regossipAnnounce_effects a b c d e f g h i) as He;
      destruct (regossipAnnounce a b c d e f g h i) as [[sb2 sent] err]
  end.
  exists sent. split; [reflexivity|]. simpl in He.
  destruct He as [He | He]; [now left | right; now split].
Qed.

(** The ways through [handleAnnounceMsg]: a rejection that changes nothing,
    a failed upsert, or the tail of the handler run on a state whose cache
    and throttle table are still the ones the handler was given. *)
Lemma deliver_cases (sb : Backend VET) (c : announceCall) :
  (exists e, deliver sb c = (sb, [], Some e)) \/
  (exists table a n ts e,
     deliver sb c = (setTable sb table, [EvUpsert a n ts], Some e)) \/
  exists msg ap vals s sb0 done,
    FromPayload (callPayload c) = Ok msg /\
    callRetrieved c = Ok vals /\
    inVals vals (MsgAddress msg) = true /\
    DecodeVEE (Msg msg) = (ap, None) /\
    oldAnnounce (cachedAnnounceMsgs sb) (MsgAddress msg) ap = false /\
    cachedAnnounceMsgs sb0 = cachedAnnounceMsgs sb /\
    lastAnnounceGossiped sb0 = lastAnnounceGossiped sb /\
    (done = [] \/ exists n, done = [EvUpsert (MsgAddress msg) n
                                      (Timestamp ap)]) /\
    deliver sb c
    = admitAndRegossip sb0 msg (callPayload c) ap vals s done
        (callSinceNow c) (callRecordNow c) (callDraw c).
Proof.
  unfold deliver, handleAnnounceMsg.
  destruct (FromPayload (callPayload c)) as [msg|e] eqn:Hmsg;
    [|left; eauto].
  destruct (callRetrieved c) as [vals|e] eqn:Hvals; [|left; eauto].
  destruct (inVals vals (MsgAddress msg)) eqn:Hin; [|left; eauto]. simpl.
  destruct (DecodeVEE (Msg msg)) as [ap [e|]] eqn:Hdec; [left; eauto|].
  destruct (oldAnnounce _ _ _) eqn:Hold; [left; eauto|].
  destruct (coreStarted sb && inVals vals (address sb)).
  - destruct (scanEncryptedEnodes _ _ _ _) as [s|e]; [|left; eauto].
    destruct (node s) as [n|].
    + destruct (Upsert _ _ _ _) as [table [e|]].
      * right. left. eauto 10.
      * right. right.
        exists msg, ap, vals, s, (setTable sb table),
          [EvUpsert (MsgAddress msg) n (Timestamp ap)].
        repeat split; eauto.
    + right. right. exists msg, ap, vals, s, sb, [].
      repeat split; eauto.
  - right. right. exists msg, ap, vals, scanInit, sb, [].
    repeat split; eauto.
Qed.

Lemma pruneTo_lookup_Some {X : Type} (vals : gmap N bool) (m : gmap N X)
    a (x : X) :
  pruneTo vals m !! a = Some x <-> m !! a = Some x /\ inVals vals a = true.
Proof. unfold pruneTo. apply map_lookup_filter_Some. Qed.

(** X3.  After a delivery, every cache entry that is new or changed belongs
    to the signer of the delivered announce: the signer is in the validator
    set retrieved, had no entry at least as new, and the entry holds the
    delivered payload and the announce's timestamp. *)
Theorem new_entries_authorized
    (sb : Backend VET) (c : announceCall) (a : N)
    (entry : announceMsgCachedEntry) :
  cachedAnnounceMsgs (stateOf (deliver sb c)) !! a = Some entry ->
  cachedAnnounceMsgs sb !! a = Some entry \/
  exists msg ap vals,
    FromPayload (callPayload c) = Ok msg /\
    callRetrieved c = Ok vals /\
    DecodeVEE (Msg msg) = (ap, None) /\
    a = MsgAddress msg /\
    inVals vals a = true /\
    oldAnnounce (cachedAnnounceMsgs sb) a ap = false /\
    entry = {| MsgTimestamp := Timestamp ap; MsgPayload := callPayload c |}.
Proof.
  intros Hl.
  destruct (deliver_cache sb c)
    as [Hsame | (msg & ap & vals & Hmsg & Hvals & Hin & Hdec & Hold & Hnew)].
  - left. now rewrite <- Hsame.
  - rewrite Hnew in Hl. apply pruneTo_lookup_Some in Hl as [Hl Hv].
    destruct (decide (MsgAddress msg = a)) as [Heq | Hne].
    + right. subst a. rewrite lookup_insert_eq in Hl. inversion Hl.
      exists msg, ap, vals. repeat split; auto.
    + left. now rewrite lookup_insert_ne in Hl.
Qed.


(** A delivery that multicasts has admitted the announce. *)
Lemma deliver_multicast_admits (sb : Backend VET) (c : announceCall) p code :
  EvMulticast p code ∈ effectsOf (deliver sb c) ->
  exists msg ap vals,
    FromPayload (callPayload c) = Ok msg /\
    callRetrieved c = Ok vals /\
    inVals vals (MsgAddress msg) = true /\
    DecodeVEE (Msg msg) = (ap, None) /\
    p = callPayload c /\ code = istanbulAnnounceMsg /\
    cachedAnnounceMsgs (stateOf (deliver sb c))
    = pruneTo vals
        (<[MsgAddress msg :=
             {| MsgTimestamp := Timestamp ap;
                MsgPayload := callPayload c |}]> (cachedAnnounceMsgs sb)).
Proof.
  intros Hel.
  destruct (deliver_cases sb c)
    as [(e & Hd) | [(t & a & n & ts & e & Hd)
       | (msg & ap & vals & s & sb0 & done & Hmsg & Hvals & Hin & Hdec
          & Hold & Hc & Hg & Hdone & Hd)]].
  - rewrite Hd in Hel. now apply elem_of_nil in Hel.
  - rewrite Hd in Hel. apply list_elem_of_singleton in Hel. discriminate.
  - rewrite Hd in Hel |- *.
    destruct (admitAndRegossip_effects sb0 msg (callPayload c) ap vals s
                done (callSinceNow c) (callRecordNow c) (callDraw c))
      as (sent & Heff & Hsent).
    rewrite Heff in Hel. apply elem_of_app in Hel as [Hel | Hel].
    { destruct Hdone as [-> | [n ->]].
      - now apply elem_of_nil in Hel.
      - apply list_elem_of_singleton in Hel. discriminate. }
    destruct Hsent as [-> | [Hflag Hsent]];
      [now apply elem_of_nil in Hel|].
    exists msg, ap, vals.
    rewrite admitAndRegossip_cache, Hflag, Hc.
    assert (Hp : p = callPayload c /\ code = istanbulAnnounceMsg).
    { destruct Hsent as [-> | ->].
      - apply list_elem_of_singleton in Hel. now inversion Hel.
      - apply elem_of_cons in Hel as [Hel | Hel]; [now inversion Hel|].
        apply list_elem_of_singleton in Hel. discriminate. }
    destruct Hp as [Hp1 Hp2]. repeat split; auto.
Qed.

(** X5.  An announce that was multicast is not handled twice: delivered
    again right after, with its signer still in the validator set, it is
    rejected with [errOldAnnounceMessage], the state stays as it is and no
    outbound call is made. *)
Theorem replay_rejected
    (sb : Backend VET) (c : announceCall) (p : list Byte.byte)
    (code : msgCode) (msg : Message) (peer : N) (vals2 : gmap N bool)
    (sinceNow recordNow draw : Z) :
  EvMulticast p code ∈ effectsOf (deliver sb c) ->
  FromPayload (callPayload c) = Ok msg ->
  inVals vals2 (MsgAddress msg) = true ->
  handleAnnounceMsg (stateOf (deliver sb c)) peer (callPayload c)
    (Ok vals2) sinceNow recordNow draw
  = (stateOf (deliver sb c), [], Some errOldAnnounceMessage).
Proof.
  intros Hel Hmsg Hin2.
  destruct (deliver_multicast_admits sb c p code Hel)
    as (msg' & ap & vals & Hmsg' & Hvals & Hin & Hdec & _ & _ & Hc).
  rewrite Hmsg in Hmsg'. inversion Hmsg'; subst msg'.
  unfold handleAnnounceMsg. rewrite Hmsg, Hin2, Hdec. simpl.
  unfold oldAnnounce. rewrite Hc.
  assert (Hl : pruneTo vals
                 (<[MsgAddress msg :=
                      {| MsgTimestamp := Timestamp ap;
                         MsgPayload := callPayload c |}]>
                    (cachedAnnounceMsgs sb)) !! MsgAddress msg
               = Some {| MsgTimestamp := Timestamp ap;
                         MsgPayload := callPayload c |}).
  { apply pruneTo_lookup_Some. split; [apply lookup_insert_eq | exact Hin]. }
  rewrite Hl. simpl. now rewrite N.leb_refl.
Qed.

End DeliveryProperties.

Lemma new_entries_authorized_witness :
  let sb := Small.node0 9 false in
  let payload := Small.announce 1 5 0 [] in
  let c :=
    {| callPeer := 3; callPayload := payload;
       callRetrieved := Ok (Small.valSet [1; 9]); callSinceNow := 0%Z;
       callRecordNow := 0%Z; callDraw := 50%Z |} in
  let entry := {| MsgTimestamp := 5; MsgPayload := payload |} in
  cachedAnnounceMsgs sb !! 1 = Some entry \/
  exists msg ap vals,
    FromPayload (callPayload c) = Ok msg /\
    callRetrieved c = Ok vals /\
    DecodeVEE (Msg msg) = (ap, None) /\
    1 = MsgAddress msg /\
    inVals vals 1 = true /\
    oldAnnounce (cachedAnnounceMsgs sb) 1 ap = false /\
    entry = {| MsgTimestamp := Timestamp ap; MsgPayload := callPayload c |}.
Proof.
  intros sb payload c entry.
  apply (new_entries_authorized sb c 1 entry). reflexivity.
Defined.


Lemma replay_rejected_witness :
  let sb := Small.node0 9 false in
  let payload := Small.announce 1 5 0 [] in
  let vals := Small.valSet [1; 9] in
  let c :=
    {| callPeer := 3; callPayload := payload; callRetrieved := Ok vals;
       callSinceNow := 0%Z; callRecordNow := 0%Z; callDraw := 50%Z |} in
  handleAnnounceMsg (stateOf (deliver sb c)) 4 payload (Ok vals)
    90000000000 90000000000 50
  = (stateOf (deliver sb c), [], Some errOldAnnounceMessage).
Proof.
  intros sb payload vals c.
  eapply (replay_rejected sb c payload istanbulAnnounceMsg).
  - apply list_elem_of_singleton. reflexivity.
  - reflexivity.
  - reflexivity.
Defined.

Section UpsertProperties.
Context {VET : Type} `{Collaborators VET}.

(** X6.  [handleAnnounceMsg] upserts the validator enode table only for the
    signer of the announce, with the announce's timestamp and a node parsed
    from the enode URL of an entry addressed to this node, and only on a node
    whose core is started and which is in the validator set. *)
Theorem upsert_only_from_own_entry
    (sb : Backend VET) (peer : N) (payload : list Byte.byte)
    (retrieved : result (gmap N bool)) (sinceNow recordNow draw : Z)
    (a : N) (n : Node) (ts : N) :
  EvUpsert a n ts
    ∈ effectsOf (handleAnnounceMsg sb peer payload retrieved
                   sinceNow recordNow draw) ->
  exists msg ap vals ee,
    FromPayload payload = Ok msg /\
    retrieved = Ok vals /\
    DecodeVEE (Msg msg) = (ap, None) /\
    a = MsgAddress msg /\ ts = Timestamp ap /\
    coreStarted sb = true /\ inVals vals (address sb) = true /\
    ee ∈ EncryptedEnodes ap /\
    DecrypterAddress ee = address sb /\
    ParseV4 (string_of_list_byte (EncryptedEnodeURL ee)) = Ok n.
Proof.
  match goal with |- _ -> ?G => remember G as Found eqn:HFound end.
  unfold handleAnnounceMsg.
  destruct (FromPayload payload) as [msg|e] eqn:Hmsg;
    [|intros Hel; now apply elem_of_nil in Hel].
  destruct retrieved as [vals|e];
    [|intros Hel; now apply elem_of_nil in Hel].
  destruct (inVals vals (MsgAddress msg));
    [|intros Hel; now apply elem_of_nil in Hel]. simpl.
  destruct (DecodeVEE (Msg msg)) as [ap [e|]] eqn:Hdec;
    [intros Hel; now apply elem_of_nil in Hel|].
  destruct (oldAnnounce _ _ _);
    [intros Hel; now apply elem_of_nil in Hel|].
  assert (Hnone : forall sb0 s,
    EvUpsert a n ts
      ∈ effectsOf (admitAndRegossip sb0 msg payload ap vals s []
                     sinceNow recordNow draw) -> False).
  { intros sb0 s Hel.
    destruct (admitAndRegossip_effects sb0 msg payload ap vals s []
                sinceNow recordNow draw) as (sent & Heff & Hsent).
    rewrite Heff in Hel. simpl in Hel.
    destruct Hsent as [-> | [_ [-> | ->]]].
    - now apply elem_of_nil in Hel.
    - apply list_elem_of_singleton in Hel. discriminate.
    - apply elem_of_cons in Hel as [Hel | Hel]; [discriminate|].
      apply list_elem_of_singleton in Hel. discriminate. }
  destruct (coreStarted sb) eqn:Hstarted; simpl.
  2:{ intros Hel. now apply Hnone in Hel. }
  destruct (inVals vals (address sb)) eqn:Hself.
  2:{ intros Hel. now apply Hnone in Hel. }
  destruct (scanEncryptedEnodes _ _ _ _) as [s|e] eqn:Hscan;
    [|intros Hel; now apply elem_of_nil in Hel].
  destruct (node s) as [n0|] eqn:Hnode.
  2:{ intros Hel. now apply Hnone in Hel. }
  assert (Hfound :
    EvUpsert a n ts = EvUpsert (MsgAddress msg) n0 (Timestamp ap) -> Found).
  { intros Heq. inversion Heq; subst a n ts. rewrite HFound.
    destruct (scan_node_origin _ _ _ _ _ _ Hscan Hnode)
      as [Hinit | (ee & Hin & Haddr & _ & Hparse)]; [discriminate|].
    exists msg, ap, vals, ee. repeat split; auto. }
  destruct (Upsert _ _ _ _) as [table [e|]].
  - intros Hel. apply list_elem_of_singleton in Hel. now apply Hfound.
  - intros Hel.
    destruct (admitAndRegossip_effects (setTable sb table) msg payload ap
                vals s [EvUpsert (MsgAddress msg) n0 (Timestamp ap)]
                sinceNow recordNow draw) as (sent & Heff & Hsent).
    rewrite Heff in Hel. apply elem_of_app in Hel as [Hel | Hel].
    + apply list_elem_of_singleton in Hel. now apply Hfound.
    + exfalso. destruct Hsent as [-> | [_ [-> | ->]]].
      * now apply elem_of_nil in Hel.
      * apply list_elem_of_singleton in Hel. discriminate.
      * apply elem_of_cons in Hel as [Hel | Hel]; [discriminate|].
        apply list_elem_of_singleton in Hel. discriminate.
Qed.

Lemma scan_app self vals l1 l2 :
  forall s,
    scanEncryptedEnodes self vals (l1 ++ l2) s
    = match scanEncryptedEnodes self vals l1 s with
      | Ok s1 => scanEncryptedEnodes self vals l2 s1
      | Err e => Err e
      end.
Proof.
  induction l1 as [|x rest IH]; intros s; [reflexivity|].
  simpl.
  destruct (negb (inVals vals (DecrypterAddress x))
            || inVals (processedAddresses s) (DecrypterAddress x));
    [apply IH|].
  destruct (if N.eqb (DecrypterAddress x) self then _ else _);
    [apply IH | reflexivity].
Qed.

(** Entries for other recipients never make the scan fail and never mark
    this node's address as processed. *)
Lemma scan_without_self self vals l :
  self ∉ DecrypterAddress <$> l ->
  forall s,
    exists s1,
      scanEncryptedEnodes self vals l s = Ok s1 /\
      inVals (processedAddresses s1) self
      = inVals (processedAddresses s) self.
Proof.
  induction l as [|x rest IH]; intros Hnot s.
  - exists s. now split.
  - rewrite fmap_cons in Hnot. apply not_elem_of_cons in Hnot as [Hne Hrest].
    simpl.
    destruct (negb (inVals vals (DecrypterAddress x))
              || inVals (processedAddresses s) (DecrypterAddress x)).
    + destruct (IH Hrest
                  {| node := node s; destAddresses := destAddresses s;
                     processedAddresses := processedAddresses s;
                     msgHasDupsOrIrrelevantEntries := true |})
        as (s1 & Hs1 & Hp).
      exists s1. now split.
    + assert (Hneq : N.eqb (DecrypterAddress x) self = false)
        by (apply N.eqb_neq; congruence).
      rewrite Hneq.
      match goal with
      | |- context [scanEncryptedEnodes self vals rest ?s0] =>
          destruct (IH Hrest s0) as (s1 & Hs1 & Hp)
      end.
      exists s1. split; [exact Hs1|]. rewrite Hp. simpl.
      apply inVals_insert_other. congruence.
Qed.

(** X7.  On a node whose core is started and which is in the validator set,
    an announce from an authorised signer that is newer than the cached one
    and whose first entry addressed to this node carries an enode URL that
    does not parse is dropped with the parse error: the state is unchanged
    and no outbound call is made. *)
Theorem enode_parse_error_aborts
    (sb : Backend VET) (peer : N) (payload : list Byte.byte)
    (vals : gmap N bool) (msg : Message) (ap : valEncryptedEnodes)
    (before after : list encryptedEnode) (ee : encryptedEnode) (e : error)
    (sinceNow recordNow draw : Z) :
  FromPayload payload = Ok msg ->
  inVals vals (MsgAddress msg) = true ->
  DecodeVEE (Msg msg) = (ap, None) ->
  oldAnnounce (cachedAnnounceMsgs sb) (MsgAddress msg) ap = false ->
  coreStarted sb = true ->
  inVals vals (address sb) = true ->
  EncryptedEnodes ap = before ++ ee :: after ->
  address sb ∉ DecrypterAddress <$> before ->
  DecrypterAddress ee = address sb ->
  ParseV4 (string_of_list_byte (EncryptedEnodeURL ee)) = Err e ->
  handleAnnounceMsg sb peer payload (Ok vals) sinceNow recordNow draw
  = (sb, [], Some e).
Proof.
  intros Hmsg Hin Hdec Hold Hstarted Hself Hsplit Hnot Haddr Hparse.
  unfold handleAnnounceMsg.
  rewrite Hmsg, Hin, Hdec, Hold, Hstarted, Hself. simpl.
  rewrite Hsplit, scan_app.
  destruct (scan_without_self (address sb) vals before Hnot scanInit)
    as (s1 & Hs1 & Hp).
  rewrite Hs1. simpl in Hp. rewrite inVals_empty in Hp.
  rewrite scan_cons_pass; [|now rewrite Haddr | now rewrite Haddr].
  rewrite Haddr, N.eqb_refl, Hparse. reflexivity.
Qed.

End UpsertProperties.

Lemma upsert_only_from_own_entry_witness :
  let sb := Small.node0 9 true in
  let payload := Small.announce 1 5 0 [9] in
  exists msg ap vals ee,
    FromPayload (Collaborators := lenientCollaborators) payload = Ok msg /\
    Ok (Small.valSet [1; 9]) = Ok vals /\
    DecodeVEE (Collaborators := lenientCollaborators) (Msg msg)
    = (ap, None) /\
    1 = MsgAddress msg /\ 5 = Timestamp ap /\
    coreStarted sb = true /\ inVals vals (address sb) = true /\
    ee ∈ EncryptedEnodes ap /\
    DecrypterAddress ee = address sb /\
    ParseV4 (Collaborators := lenientCollaborators)
      (string_of_list_byte (EncryptedEnodeURL ee))
    = Ok {| nodeURL := "" |}.
Proof.
  intros sb payload.
  apply (upsert_only_from_own_entry (H := lenientCollaborators) sb 3
           payload (Ok (Small.valSet [1; 9])) 0 0 50 1
           {| nodeURL := "" |} 5).
  apply elem_of_cons. left. reflexivity.
Defined.

Lemma enode_parse_error_aborts_witness :
  let sb := Small.node0 9 true in
  handleAnnounceMsg sb 3 (Small.announce 1 5 0 [1; 9; 9])
    (Ok (Small.valSet [1; 9])) 0 0 50
  = (sb, [], Some (errOther "invalid URL scheme")).
Proof.
  intros sb.
  eapply (enode_parse_error_aborts sb 3 (Small.announce 1 5 0 [1; 9; 9])
            (Small.valSet [1; 9]) _ _
            [{| DecrypterAddress := 1; EncryptedEnodeURL := [] |}]
            [{| DecrypterAddress := 9; EncryptedEnodeURL := [] |}]
            {| DecrypterAddress := 9; EncryptedEnodeURL := [] |}).
  - reflexivity.
  - reflexivity.
  - reflexivity.
  - reflexivity.
  - reflexivity.
  - reflexivity.
  - reflexivity.
  - intros Hel. apply list_elem_of_singleton in Hel. discriminate.
  - reflexivity.
  - reflexivity.
Defined.

(** ** Sorting the destinations *)

Lemma string_compare_le_trans a :
  forall b c,
    String.compare a b <> Gt -> String.compare b c <> Gt ->
    String.compare a c <> Gt.
Proof.
  induction a as [|x a IH]; intros [|y b] [|z c]; simpl; try congruence.
  unfold Ascii.compare.
  destruct (N.compare_spec (N_of_ascii x) (N_of_ascii y)) as [Hxy|Hxy|Hxy];
    destruct (N.compare_spec (N_of_ascii y) (N_of_ascii z))
      as [Hyz|Hyz|Hyz];
    destruct (N.compare_spec (N_of_ascii x) (N_of_ascii z))
      as [Hxz|Hxz|Hxz];
    try congruence; try (exfalso; lia).
  apply IH.
Qed.

Lemma string_leb_compare s t :
  String.leb s t = true <-> String.compare s t <> Gt.
Proof.
  unfold String.leb. destruct (String.compare s t); split; congruence.
Qed.

#[local] Instance strLe_trans : Transitive strLe.
Proof.
  intros a b c Hab Hbc. unfold strLe in *.
  rewrite string_leb_compare in *.
  eapply string_compare_le_trans; eassumption.
Qed.

#[local] Instance strLe_antisym : AntiSymm (=) strLe.
Proof. intros a b Hab Hba. now apply String.leb_antisym. Qed.

Lemma insertString_perm s l : insertString s l ≡ₚ s :: l.
Proof.
  induction l as [|x rest IH]; [reflexivity|].
  simpl. destruct (String.leb s x); [reflexivity|].
  rewrite IH. apply Permutation_swap.
Qed.

Lemma insertString_hd s x l :
  strLe x s -> HdRel strLe x l -> HdRel strLe x (insertString s l).
Proof.
  intros Hxs Hhd. destruct l as [|y rest]; simpl.
  - now constructor.
  - destruct (String.leb s y); constructor; [exact Hxs|].
    now inversion Hhd.
Qed.

Lemma insertString_sorted s l :
  Sorted strLe l -> Sorted strLe (insertString s l).
Proof.
  induction l as [|x rest IH]; intros Hs; simpl.
  - repeat constructor.
  - destruct (String.leb s x) eqn:Hsx.
    + constructor; [exact Hs|]. now constructor.
    + inversion Hs as [|? ? Hrest Hhd]; subst.
      constructor; [now apply IH|].
      apply insertString_hd; [|exact Hhd].
      destruct (String.leb_total s x) as [Ht | Ht]; [congruence | exact Ht].
Qed.

Lemma sortStrings_perm l : sortStrings l ≡ₚ l.
Proof.
  induction l as [|s rest IH]; [reflexivity|].
  simpl. now rewrite insertString_perm, IH.
Qed.

Lemma sortStrings_sorted l : Sorted strLe (sortStrings l).
Proof.
  induction l as [|s rest IH]; simpl; [constructor|].
  now apply insertString_sorted.
Qed.

Lemma sortStrings_of_perm l1 l2 :
  l1 ≡ₚ l2 -> sortStrings l1 = sortStrings l2.
Proof.
  intros Hp. apply (Sorted_unique strLe).
  - apply sortStrings_sorted.
  - apply sortStrings_sorted.
  - now rewrite !sortStrings_perm.
Qed.

(** X8.  [sortStrings] returns its input rearranged in ascending byte-wise
    order, and the result depends only on which strings the input holds, not
    on their order; sorting a sorted list changes nothing. *)
Theorem sortStrings_sorted_permutation (l : list string) :
  Sorted strLe (sortStrings l) /\
  sortStrings l ≡ₚ l /\
  (forall l', l ≡ₚ l' -> sortStrings l' = sortStrings l) /\
  sortStrings (sortStrings l) = sortStrings l.
Proof.
  split; [apply sortStrings_sorted|].
  split; [apply sortStrings_perm|]. split.
  - intros l' Hp. symmetry. now apply sortStrings_of_perm.
  - apply (Sorted_unique strLe).
    + apply sortStrings_sorted.
    + apply sortStrings_sorted.
    + apply sortStrings_perm.
Qed.

Section RegossipProperties.
Context {VET : Type} `{Collaborators VET}.

(** X9.  [regossipAnnounce] does not depend on the order of the destination
    addresses: two destination lists that hold the same addresses give the
    same state, the same outbound calls and the same result. *)
Theorem regossip_order_independent
    (sb : Backend VET) (msg : Message) (payload : list Byte.byte)
    (ap : valEncryptedEnodes) (vals : gmap N bool)
    (dest1 dest2 : list string) (sinceNow recordNow draw : Z) :
  dest1 ≡ₚ dest2 ->
  regossipAnnounce sb msg payload ap vals dest1 sinceNow recordNow draw
  = regossipAnnounce sb msg payload ap vals dest2 sinceNow recordNow draw.
Proof.
  intros Hp. unfold regossipAnnounce.
  now rewrite (sortStrings_of_perm dest1 dest2 Hp).
Qed.

Lemma pruneTo_lookup_kept {X : Type} (vals : gmap N bool) (m : gmap N X) a :
  inVals vals a = true -> pruneTo vals m !! a = m !! a.
Proof.
  intros Hv. destruct (m !! a) as [x|] eqn:Hx.
  - apply pruneTo_lookup_Some. now split.
  - destruct (pruneTo vals m !! a) as [y|] eqn:Hy; [|reflexivity].
    apply pruneTo_lookup_Some in Hy as [Hy _]. congruence.
Qed.

(** X10.  [regossipAnnounce] never touches the cache and never touches the
    throttle record of a validator other than the signer.  While the random
    gate is shut it touches no record but the signer's and leaves the
    validator enode table alone; when it multicasts with the gate open, the
    throttle table afterwards holds only addresses of the validator set and
    the table's prune is its last outbound call. *)
Theorem regossip_touches_only_signer
    (sb : Backend VET) (msg : Message) (payload : list Byte.byte)
    (ap : valEncryptedEnodes) (vals : gmap N bool) (dest : list string)
    (sinceNow recordNow draw : Z) :
  let o := regossipAnnounce sb msg payload ap vals dest
             sinceNow recordNow draw in
  cachedAnnounceMsgs (stateOf o) = cachedAnnounceMsgs sb /\
  (forall a, a <> MsgAddress msg -> inVals vals a = true ->
     lastAnnounceGossiped (stateOf o) !! a = lastAnnounceGossiped sb !! a) /\
  (pruneGate draw = false ->
     valEnodeTable (stateOf o) = valEnodeTable sb /\
     forall a, a <> MsgAddress msg ->
       lastAnnounceGossiped (stateOf o) !! a
       = lastAnnounceGossiped sb !! a) /\
  (pruneGate draw = true -> multicast o = true ->
     effectsOf o
     = [EvMulticast payload istanbulAnnounceMsg; EvPruneEntries vals] /\
     forall a, is_Some (lastAnnounceGossiped (stateOf o) !! a) ->
       inVals vals a = true).
Proof.
  intros o. subst o. split; [apply regossipAnnounce_cache|].
  unfold regossipAnnounce, multicast.
  destruct (throttled _ _ _ _ _).
  { split; [reflexivity|]. split; [now split|]. intros _ Hm. discriminate. }
  destruct (pruneGate draw).
  - simpl. destruct (PruneEntries _ _) as [table err]. simpl.
    split; [|split; [discriminate|]].
    + intros a Hne Hv. rewrite (pruneTo_lookup_kept vals _ a Hv).
      now rewrite lookup_insert_ne.
    + intros _ _. split; [reflexivity|].
      intros a [x Hx]. now apply pruneTo_lookup_Some in Hx as [_ Hv].
  - simpl. split; [|split; [|discriminate]].
    + intros a Hne _. now rewrite lookup_insert_ne.
    + intros _. split; [reflexivity|].
      intros a Hne. now rewrite lookup_insert_ne.
Qed.

End RegossipProperties.

Lemma regossip_order_independent_witness :
  let sb := Small.node0 9 false in
  let msg :=
    {| Code := istanbulAnnounceMsg; Msg := []; MsgAddress := 1;
       Signature := [] |} in
  let ap :=
    {| ValAddress := 1; EncryptedEnodes := []; EnodeURLHash := 7;
       Timestamp := 5 |} in
  let vals := Small.valSet [1; 9] in
  regossipAnnounce sb msg [] ap vals ["b"; "a"; "c"]%string 0 0 50
  = regossipAnnounce sb msg [] ap vals ["c"; "b"; "a"]%string 0 0 50.
Proof.
  intros sb msg ap vals.
  apply (regossip_order_independent sb msg [] ap vals).
  change ["b"; "a"; "c"]%string with (["b"; "a"]%string ++ ["c"%string]).
  rewrite (Permutation_app_comm ["b"; "a"]%string ["c"%string]).
  reflexivity.
Defined.

(** ** Generating and gossiping the own announce *)

Section GenerateProperties.
Context {VET : Type} `{Collaborators VET}.

Lemma generated_enodes_addresses (vals : gmap N bool) (url : string) :
  DecrypterAddress <$>
    ((fun kv : N * bool =>
        {| DecrypterAddress := fst kv;
           EncryptedEnodeURL := list_byte_of_string url |})
       <$> map_to_list vals)
  = (map_to_list vals).*1.
Proof.
  rewrite <- list_fmap_compose. apply list_fmap_ext.
  intros i [k b] _. reflexivity.
Qed.

Lemma elem_of_map_keys (vals : gmap N bool) a :
  a ∈ (map_to_list vals).*1 <-> is_Some (vals !! a).
Proof.
  rewrite list_elem_of_fmap. split.
  - intros [[k b] [-> Hin]]. exists b. now apply elem_of_map_to_list.
  - intros [b Hb]. exists (a, b). split; [reflexivity|].
    now apply elem_of_map_to_list.
Qed.

(** X11.  What [generateAnnounce] returns on success: an unsigned Announce
    message from this node whose content is the encoding of a payload that
    carries this node's address, the hash of its enode URL (the proxy's
    external one on a proxied node), the clock reading as [uint], and exactly
    one entry per key of the validator map, each holding the bytes of the
    enode URL. *)
Theorem generateAnnounce_payload
    (sb : Backend VET) (vals : gmap N bool) (unixNow : Z) (m : Message) :
  generateAnnounce sb (Ok vals) unixNow = Ok m ->
  Code m = istanbulAnnounceMsg /\
  MsgAddress m = address sb /\
  Signature m = [] /\
  exists enodeUrl ap,
    (if configProxied sb then proxyNode sb = Some enodeUrl
     else enodeUrl = p2pserverSelf sb) /\
    EncodeVEE ap = Ok (Msg m) /\
    ValAddress ap = address sb /\
    EnodeURLHash ap = RLPHashString enodeUrl /\
    Timestamp ap = uintOfInt64 unixNow /\
    NoDup (DecrypterAddress <$> EncryptedEnodes ap) /\
    (forall a,
       a ∈ DecrypterAddress <$> EncryptedEnodes ap <-> is_Some (vals !! a))
    /\
    Forall (fun ee => EncryptedEnodeURL ee = list_byte_of_string enodeUrl)
      (EncryptedEnodes ap).
Proof.
  unfold generateAnnounce. intros Hgen.
  assert (Hurl : exists enodeUrl,
    (if configProxied sb then proxyNode sb = Some enodeUrl
     else enodeUrl = p2pserverSelf sb) /\
    (if configProxied sb
     then match proxyNode sb with
          | Some externalNode => Ok externalNode
          | None => Err errNoProxyConnection
          end
     else Ok (p2pserverSelf sb)) = Ok enodeUrl).
  { destruct (configProxied sb).
    - destruct (proxyNode sb) as [u|]; [|discriminate]. eauto.
    - eauto. }
  destruct Hurl as (enodeUrl & Hwhich & Hurl). rewrite Hurl in Hgen.
  match type of Hgen with
  | match EncodeVEE ?p with _ => _ end = _ => set (ap := p) in *
  end.
  destruct (EncodeVEE ap) as [announceBytes|e] eqn:Henc; [|discriminate].
  inversion Hgen; subst m. simpl.
  repeat split.
  exists enodeUrl, ap. split; [exact Hwhich|]. split; [exact Henc|].
  subst ap. simpl. repeat split.
  - rewrite generated_enodes_addresses. apply NoDup_fst_map_to_list.
  - rewrite generated_enodes_addresses. apply elem_of_map_keys.
  - rewrite generated_enodes_addresses. apply elem_of_map_keys.
  - apply Forall_fmap, Forall_forall. intros kv _. reflexivity.
Qed.

(** X12.  [gossipAnnounce] never touches the throttle table or the
    validator enode table.  It makes at most one outbound call, a multicast
    of the payload it has just cached; it does so only when the second
    validator lookup succeeds and contains this node's address, and then it
    returns nil.  Once the announce is generated, signed and serialized, it is
    cached whether or not the lookup succeeds. *)
Theorem gossipAnnounce_multicasts_only_as_validator
    (sb : Backend VET) (r1 : result (gmap N bool)) (unixNow : Z)
    (r2 : result (gmap N bool)) :
  let o := gossipAnnounce sb r1 unixNow r2 in
  lastAnnounceGossiped (stateOf o) = lastAnnounceGossiped sb /\
  valEnodeTable (stateOf o) = valEnodeTable sb /\
  (effectsOf o = [] \/
   exists payload vals a ts,
     r2 = Ok vals /\ inVals vals (address sb) = true /\
     effectsOf o = [EvMulticast payload istanbulAnnounceMsg] /\
     errorOf o = None /\
     cachedAnnounceMsgs (stateOf o) !! a
     = Some {| MsgTimestamp := ts; MsgPayload := payload |}) /\
  (forall istMsg0 istMsg payload,
     generateAnnounce sb r1 unixNow = Ok istMsg0 ->
     MsgSign istMsg0 = Ok istMsg ->
     MsgPayload_of istMsg = Ok payload ->
     cachedAnnounceMsgs (stateOf o)
       !! ValAddress (fst (DecodeVEE (Msg istMsg)))
     = Some {| MsgTimestamp := Timestamp (fst (DecodeVEE (Msg istMsg)));
               MsgPayload := payload |}).
Proof.
  intros o. subst o. split; [apply gossipAnnounce_gossiped|].
  split; [|split].
  - unfold gossipAnnounce.
    destruct (generateAnnounce sb r1 unixNow); [|reflexivity].
    destruct (MsgSign _); [|reflexivity].
    destruct (MsgPayload_of _); [|reflexivity].
    destruct r2 as [vals|e]; [|reflexivity].
    destruct (inVals vals (address sb)); reflexivity.
  - unfold gossipAnnounce.
    destruct (generateAnnounce sb r1 unixNow) as [m0|e]; [|now left].
    destruct (MsgSign m0) as [m|e]; [|now left].
    destruct (MsgPayload_of m) as [p|e]; [|now left].
    destruct r2 as [vals|e]; [|now left].
    destruct (inVals vals (address sb)) eqn:Hin; [|now left].
    right. exists p, vals, (ValAddress (fst (DecodeVEE (Msg m)))),
      (Timestamp (fst (DecodeVEE (Msg m)))).
    repeat split; auto. simpl. apply lookup_insert_eq.
  - intros m0 m p Hgen Hsign Hpay.
    rewrite (gossipAnnounce_overwrites sb r1 unixNow r2 m0 m p
               Hgen Hsign Hpay).
    apply lookup_insert_eq.
Qed.

(** The scan over entries that name distinct validators not yet processed
    and all carry the bytes of one URL. *)
Lemma scan_uniform self vals url l :
  forall s,
    NoDup (DecrypterAddress <$> l) ->
    Forall (fun ee =>
              inVals vals (DecrypterAddress ee) = true /\
              inVals (processedAddresses s) (DecrypterAddress ee) = false /\
              EncryptedEnodeURL ee = list_byte_of_string url) l ->
    (self ∉ DecrypterAddress <$> l ->
     exists s',
       scanEncryptedEnodes self vals l s = Ok s' /\
       msgHasDupsOrIrrelevantEntries s' = msgHasDupsOrIrrelevantEntries s /\
       node s' = node s) /\
    (self ∈ DecrypterAddress <$> l ->
     match ParseV4 url with
     | Ok n =>
         exists s',
           scanEncryptedEnodes self vals l s = Ok s' /\
           msgHasDupsOrIrrelevantEntries s'
           = msgHasDupsOrIrrelevantEntries s /\
           node s' = Some n
     | Err e => scanEncryptedEnodes self vals l s = Err e
     end).
Proof.
  induction l as [|x rest IH]; intros s Hnd Hall.
  - split.
    + intros _. exists s. now repeat split.
    + intros Hel. now apply elem_of_nil in Hel.
  - rewrite fmap_cons in Hnd. apply NoDup_cons in Hnd as [Hx Hnd].
    apply Forall_cons in Hall as [(Hxin & Hxproc & Hxurl) Hall].
    assert (Hall' : forall nd,
      Forall (fun ee =>
                inVals vals (DecrypterAddress ee) = true /\
                inVals (processedAddresses
                          {| node := nd;
                             destAddresses :=
                               destAddresses s
                                 ++ [AddressString (DecrypterAddress x)];
                             processedAddresses :=
                               <[DecrypterAddress x := true]>
                                 (processedAddresses s);
                             msgHasDupsOrIrrelevantEntries :=
                               msgHasDupsOrIrrelevantEntries s |})
                  (DecrypterAddress ee) = false /\
                EncryptedEnodeURL ee = list_byte_of_string url) rest).
    { intros nd. apply Forall_forall. intros ee Hee.
      rewrite Forall_forall in Hall.
      destruct (Hall ee Hee) as (Hin & Hproc & Hurl).
      split; [exact Hin|]. split; [|exact Hurl]. simpl.
      rewrite inVals_insert_other; [exact Hproc|].
      intros Heq. apply Hx. rewrite Heq.
      apply list_elem_of_fmap. now exists ee. }
    rewrite (scan_cons_pass self vals x rest s Hxin Hxproc).
    rewrite Hxurl, string_of_list_byte_of_string.
    destruct (N.eqb (DecrypterAddress x) self) eqn:Hself.
    + apply N.eqb_eq in Hself. split.
      * intros Hnot. exfalso. apply Hnot. rewrite fmap_cons, Hself.
        apply elem_of_cons. now left.
      * intros _. destruct (ParseV4 url) as [n|e]; [|reflexivity].
        assert (Hrest : self ∉ DecrypterAddress <$> rest)
          by (now rewrite <- Hself).
        destruct (IH _ Hnd (Hall' (Some n))) as [Hno _].
        destruct (Hno Hrest) as (s' & Hs' & Hf & Hn).
        exists s'. now repeat split.
    + apply N.eqb_neq in Hself.
      destruct (IH _ Hnd (Hall' (node s))) as [Hno Hyes]. split.
      * intros Hnot. rewrite fmap_cons in Hnot.
        apply not_elem_of_cons in Hnot as [_ Hnot].
        destruct (Hno Hnot) as (s' & Hs' & Hf & Hn).
        exists s'. now repeat split.
      * intros Hel. rewrite fmap_cons in Hel.
        apply elem_of_cons in Hel as [Hel | Hel]; [congruence|].
        specialize (Hyes Hel).
        destruct (ParseV4 url) as [n|e]; [|exact Hyes].
        destruct Hyes as (s' & Hs' & Hf & Hn).
        exists s'. now repeat split.
Qed.

(** X13.  The recipients that [generateAnnounce] writes pass the scan of
    every receiver that sees the same validator map, provided the map has no
    key mapped to [false]: the flag stays down.  A receiver that is a key of
    the map parses the sender's enode URL itself (the bytes written are the
    URL's), and the scan fails only with that URL's parse error; any other
    receiver parses nothing. *)
Theorem generated_recipients_pass_scan
    (vals : gmap N bool) (url : string) (receiver : N) :
  (forall a b, vals !! a = Some b -> b = true) ->
  let enodes :=
    (fun kv : N * bool =>
       {| DecrypterAddress := fst kv;
          EncryptedEnodeURL := list_byte_of_string url |})
      <$> map_to_list vals in
  match scanEncryptedEnodes receiver vals enodes scanInit with
  | Ok s' =>
      msgHasDupsOrIrrelevantEntries s' = false /\
      (node s' = None <-> vals !! receiver = None) /\
      (forall n, node s' = Some n -> ParseV4 url = Ok n)
  | Err e => is_Some (vals !! receiver) /\ ParseV4 url = Err e
  end.
Proof.
  intros Htrue enodes.
  assert (Hnd : NoDup (DecrypterAddress <$> enodes)).
  { subst enodes. rewrite generated_enodes_addresses.
    apply NoDup_fst_map_to_list. }
  assert (Hall :
    Forall (fun ee =>
              inVals vals (DecrypterAddress ee) = true /\
              inVals (processedAddresses scanInit) (DecrypterAddress ee)
              = false /\
              EncryptedEnodeURL ee = list_byte_of_string url) enodes).
  { subst enodes. apply Forall_fmap, Forall_forall. intros [k b] Hkb.
    apply elem_of_map_to_list in Hkb. simpl.
    split; [|split; [apply inVals_empty | reflexivity]].
    unfold inVals. rewrite Hkb. now apply (Htrue k). }
  assert (Hkeys : receiver ∈ DecrypterAddress <$> enodes
                  <-> is_Some (vals !! receiver)).
  { subst enodes. rewrite generated_enodes_addresses.
    apply elem_of_map_keys. }
  destruct (scan_uniform receiver vals url enodes scanInit Hnd Hall)
    as [Hno Hyes].
  destruct (vals !! receiver) as [b|] eqn:Hr.
  - assert (Hel : receiver ∈ DecrypterAddress <$> enodes)
      by (apply Hkeys; eauto).
    specialize (Hyes Hel). destruct (ParseV4 url) as [n|e].
    + destruct Hyes as (s' & -> & Hf & Hn). split; [exact Hf|]. split.
      * split; congruence.
      * intros n' Hn'. congruence.
    + rewrite Hyes. split; [eauto | reflexivity].
  - assert (Hnot : receiver ∉ DecrypterAddress <$> enodes).
    { intros Hel. apply Hkeys in Hel as [b Hb]. discriminate. }
    destruct (Hno Hnot) as (s' & -> & Hf & Hn). split; [exact Hf|].
    simpl in Hn. split; [now split|]. intros n Hn'. congruence.
Qed.

End GenerateProperties.

Lemma generateAnnounce_payload_witness :
  let sb := Small.node0 9 true in
  let vals := Small.valSet [1; 9] in
  exists m,
    generateAnnounce sb (Ok vals) 1700000000 = Ok m /\
    Code m = istanbulAnnounceMsg /\
    MsgAddress m = address sb /\
    Signature m = [].
Proof.
  intros sb vals.
  destruct (generateAnnounce sb (Ok vals) 1700000000) as [m|e] eqn:Hgen;
    [|vm_compute in Hgen; discriminate Hgen].
  exists m. split; [reflexivity|].
  destruct (generateAnnounce_payload sb vals 1700000000 m Hgen)
    as (Hc & Ha & Hs & _).
  exact (conj Hc (conj Ha Hs)).
Defined.

Lemma generated_recipients_pass_scan_witness :
  match scanEncryptedEnodes 9 (Small.valSet [1; 9])
          ((fun kv : N * bool =>
              {| DecrypterAddress := fst kv;
                 EncryptedEnodeURL := list_byte_of_string "enode://a" |})
             <$> map_to_list (Small.valSet [1; 9])) scanInit with
  | Ok s' =>
      msgHasDupsOrIrrelevantEntries s' = false /\
      (node s' = None <-> Small.valSet [1; 9] !! 9 = None) /\
      (forall n, node s' = Some n -> ParseV4 "enode://a" = Ok n)
  | Err e =>
      is_Some (Small.valSet [1; 9] !! 9) /\ ParseV4 "enode://a" = Err e
  end.
Proof.
  apply (generated_recipients_pass_scan (Small.valSet [1; 9])
           "enode://a" 9).
  intros a b Hab.
  destruct (decide (a = 1)) as [-> | H1]; [now inversion Hab|].
  destruct (decide (a = 9)) as [-> | H9]; [now inversion Hab|].
  unfold Small.valSet in Hab. simpl in Hab.
  rewrite lookup_insert_ne in Hab by congruence.
  rewrite lookup_insert_ne in Hab by congruence.
  now rewrite lookup_empty in Hab.
Defined.

(** ** Answering requests and reconciling versions *)

Section ReconcileProperties.
Context {VET : Type} `{Collaborators VET}.

Lemma cachedPayloads_omap (cache : gmap N announceMsgCachedEntry) l :
  cachedPayloads cache l
  = omap (fun a => MsgPayload <$> cache !! a) l.
Proof.
  induction l as [|a rest IH]; [reflexivity|].
  simpl. destruct (cache !! a) as [e|]; simpl; now rewrite IH.
Qed.

Lemma cachedPayloads_length (cache : gmap N announceMsgCachedEntry) l :
  (length (cachedPayloads cache l) <= length l)%nat /\
  (length (cachedPayloads cache l) = length l <->
   Forall (fun a => is_Some (cache !! a)) l).
Proof.
  induction l as [|a rest [IHle IHeq]].
  - split; [reflexivity|]. split; [constructor | reflexivity].
  - simpl. destruct (cache !! a) as [e|] eqn:Ha; simpl.
    + split; [lia|]. rewrite Forall_cons. split.
      * intros Hl. split; [rewrite Ha; eauto|]. apply IHeq. lia.
      * intros [_ Hall]. f_equal. now apply IHeq.
    + split; [lia|]. rewrite Forall_cons. split; [lia|].
      intros [[x Hx] _]. congruence.
Qed.

(** X14.  [handleGetAnnouncesMsg] leaves the state alone.  A payload that
    does not decode is answered with the decoder's error and nothing is sent.
    Otherwise it returns nil and sends the peer, in request order, one
    Announce per requested address that is cached, carrying the cached
    payload; requested addresses that are not cached are passed over, so as
    many messages as requests go out exactly when every requested address is
    cached. *)
Theorem getAnnounces_replies
    (sb : Backend VET) (peer : N) (payload : list Byte.byte) :
  let o := handleGetAnnouncesMsg sb peer payload in
  stateOf o = sb /\
  match DecodeAddresses payload with
  | (_, Some e) => effectsOf o = [] /\ errorOf o = Some e
  | (valAddresses, None) =>
      errorOf o = None /\
      effectsOf o
      = EvSend peer istanbulAnnounceMsg
          <$> omap (fun a => MsgPayload <$> cachedAnnounceMsgs sb !! a)
                valAddresses /\
      (length (effectsOf o) <= length valAddresses)%nat /\
      (length (effectsOf o) = length valAddresses <->
       Forall (fun a => is_Some (cachedAnnounceMsgs sb !! a)) valAddresses)
  end.
Proof.
  intros o. subst o. split; [apply handleGetAnnouncesMsg_state|].
  unfold handleGetAnnouncesMsg.
  destruct (DecodeAddresses payload) as [l [e|]]; [now split|].
  split; [reflexivity|]. unfold effectsOf. simpl.
  rewrite length_fmap, <- cachedPayloads_omap.
  split; [reflexivity|]. apply cachedPayloads_length.
Qed.

Lemma announcesToRequest_nil (cache : gmap N announceMsgCachedEntry)
    vals avs :
  Forall (fun av => shouldRequest cache vals av = false) avs ->
  announcesToRequest cache vals avs = [].
Proof.
  induction avs as [|av rest IH]; intros Hall; [reflexivity|].
  apply Forall_cons in Hall as [Hav Hrest]. simpl. rewrite Hav. now apply IH.
Qed.

Lemma shouldRequest_false_up_to_date
    (cache : gmap N announceMsgCachedEntry) vals av :
  (inVals vals (avValAddress av) = true ->
   exists e,
     cache !! avValAddress av = Some e /\
     AnnounceMsgTimestamp av <= MsgTimestamp e) ->
  shouldRequest cache vals av = false.
Proof.
  intros Hup. unfold shouldRequest.
  destruct (inVals vals (avValAddress av)); [|reflexivity]. simpl.
  destruct (Hup eq_refl) as (e & -> & Hle). now apply N.ltb_ge.
Qed.

(** X15.  A node that is up to date requests nothing: if for every received
    record whose validator is in the validator set the cache holds an entry
    with a timestamp at least as large, [handleAnnounceVersionsMsg] sends
    nothing and returns nil.  In particular a node asks for nothing on
    receiving the version list of its own cache. *)
Theorem up_to_date_requests_nothing
    (sb : Backend VET) (peer : N) (payload : list Byte.byte)
    (vals : gmap N bool) :
  (Forall (fun av =>
             inVals vals (avValAddress av) = true ->
             exists e,
               cachedAnnounceMsgs sb !! avValAddress av = Some e /\
               AnnounceMsgTimestamp av <= MsgTimestamp e)
     (fst (DecodeVersions payload)) ->
   handleAnnounceVersionsMsg sb peer payload (Ok vals) = (sb, [], None)) /\
  (fst (DecodeVersions payload) = cacheVersions (cachedAnnounceMsgs sb) ->
   handleAnnounceVersionsMsg sb peer payload (Ok vals) = (sb, [], None)).
Proof.
  assert (Hgen :
    Forall (fun av =>
              inVals vals (avValAddress av) = true ->
              exists e,
                cachedAnnounceMsgs sb !! avValAddress av = Some e /\
                AnnounceMsgTimestamp av <= MsgTimestamp e)
      (fst (DecodeVersions payload)) ->
    handleAnnounceVersionsMsg sb peer payload (Ok vals) = (sb, [], None)).
  { intros Hall. unfold handleAnnounceVersionsMsg.
    rewrite announcesToRequest_nil; [reflexivity|].
    eapply Forall_impl; [exact Hall|].
    intros av Hav. now apply shouldRequest_false_up_to_date. }
  split; [exact Hgen|].
  intros Hown. apply Hgen. rewrite Hown. apply Forall_forall.
  intros [a t] Hin _. apply elem_of_cacheVersions in Hin as (e & He & Ht).
  exists e. simpl. split; [exact He | lia].
Qed.

(** X16.  One round of version reconciliation between a requester [x] and a
    responder [y], when the version list and the address list survive the
    wire.  [y] answers a GetAnnounceVersions with the versions of its cache;
    on that answer [x] asks for exactly the addresses cached at [y] that are
    in [x]'s validator set and for which [x] has no entry or a strictly older
    one, each once; and [y] answers that request with one Announce per
    requested address, none passed over. *)
Theorem reconciliation_round
    (x y : Backend VET) (peerX peerY : N) (ask : list Byte.byte)
    (vals : gmap N bool) (versionsBytes requestBytes : list Byte.byte) :
  let toRequest :=
    announcesToRequest (cachedAnnounceMsgs x) vals
      (cacheVersions (cachedAnnounceMsgs y)) in
  EncodeVersions (cacheVersions (cachedAnnounceMsgs y)) = Ok versionsBytes ->
  DecodeVersions versionsBytes
  = (cacheVersions (cachedAnnounceMsgs y), None) ->
  EncodeAddresses toRequest = Ok requestBytes ->
  DecodeAddresses requestBytes = (toRequest, None) ->
  handleGetAnnounceVersionsMsg y peerX ask
  = (y, [EvSend peerX istanbulAnnounceVersionsMsg versionsBytes], None) /\
  handleAnnounceVersionsMsg x peerY versionsBytes (Ok vals)
  = (x,
     match toRequest with
     | [] => []
     | _ :: _ => [EvSend peerY istanbulGetAnnouncesMsg requestBytes]
     end, None) /\
  NoDup toRequest /\
  (forall a,
     a ∈ toRequest <->
     inVals vals a = true /\
     exists ey,
       cachedAnnounceMsgs y !! a = Some ey /\
       (cachedAnnounceMsgs x !! a = None \/
        exists ex,
          cachedAnnounceMsgs x !! a = Some ex /\
          MsgTimestamp ex < MsgTimestamp ey)) /\
  exists sent,
    handleGetAnnouncesMsg y peerX requestBytes
    = (y, EvSend peerX istanbulAnnounceMsg <$> sent, None) /\
    length sent = length toRequest /\
    Forall2 (fun a p =>
               exists ey,
                 cachedAnnounceMsgs y !! a = Some ey /\ MsgPayload ey = p)
      toRequest sent.
Proof.
  intros toRequest Henc Hdec Henc2 Hdec2.
  assert (Hmem : forall a,
    a ∈ toRequest <->
    inVals vals a = true /\
    exists ey,
      cachedAnnounceMsgs y !! a = Some ey /\
      (cachedAnnounceMsgs x !! a = None \/
       exists ex,
         cachedAnnounceMsgs x !! a = Some ex /\
         MsgTimestamp ex < MsgTimestamp ey)).
  { intros a. subst toRequest. rewrite announcesToRequest_filter.
    rewrite list_elem_of_fmap. split.
    - intros ([a' t] & -> & Hin). apply list_elem_of_filter in Hin as [Hp Hin].
      apply elem_of_cacheVersions in Hin as (ey & Hey & Ht).
      apply shouldRequest_spec in Hp as [Hv Hx]. simpl in *.
      split; [exact Hv|]. exists ey. split; [exact Hey|]. now rewrite Ht.
    - intros (Hv & ey & Hey & Hx).
      exists {| avValAddress := a; AnnounceMsgTimestamp := MsgTimestamp ey |}.
      split; [reflexivity|]. apply list_elem_of_filter. split.
      + apply shouldRequest_spec. simpl. now split.
      + apply elem_of_cacheVersions. eauto. }
  split; [|split; [|split; [|split; [exact Hmem|]]]].
  - unfold handleGetAnnounceVersionsMsg. now rewrite Henc.
  - unfold handleAnnounceVersionsMsg. rewrite Hdec. simpl.
    fold toRequest. destruct toRequest as [|a rest]; [reflexivity|].
    now rewrite Henc2.
  - subst toRequest. rewrite announcesToRequest_filter.
    apply (sublist_NoDup _
             (avValAddress <$> cacheVersions (cachedAnnounceMsgs y))).
    + rewrite cacheVersions_addresses. apply NoDup_fst_map_to_list.
    + apply fmap_sublist, sublist_filter.
  - exists (cachedPayloads (cachedAnnounceMsgs y) toRequest).
    split; [unfold handleGetAnnouncesMsg; now rewrite Hdec2|].
    assert (Hall : Forall (fun a => is_Some (cachedAnnounceMsgs y !! a))
                     toRequest).
    { apply Forall_forall. intros a Ha.
      apply Hmem in Ha as (_ & ey & Hey & _). eauto. }
    clear Hmem Henc2 Hdec2. induction toRequest as [|a rest IH].
    + split; [reflexivity | constructor].
    + apply Forall_cons in Hall as [[ey Hey] Hrest]. simpl. rewrite Hey.
      destruct (IH Hrest) as [Hlen Hf2]. split; [simpl; now rewrite Hlen|].
      constructor; [eauto | exact Hf2].
Qed.

End ReconcileProperties.

Lemma up_to_date_requests_nothing_witness :
  let sb :=
    setCache (Small.node0 9 false)
      (<[1 := {| MsgTimestamp := 5; MsgPayload := [] |}]>
         (<[2 := {| MsgTimestamp := 7; MsgPayload := [] |}]> ∅)) in
  handleAnnounceVersionsMsg sb 3
    [Byte.x01; Byte.x05; Byte.x02; Byte.x04; Byte.x08; Byte.x09]
    (Ok (Small.valSet [1; 2]))
  = (sb, [], None).
Proof.
  intros sb.
  apply (proj1 (up_to_date_requests_nothing sb 3
                  [Byte.x01; Byte.x05; Byte.x02; Byte.x04;
                   Byte.x08; Byte.x09]
                  (Small.valSet [1; 2]))).
  repeat constructor.
  - intros _. eexists. split; [reflexivity|]. simpl. lia.
  - intros _. eexists. split; [reflexivity|]. simpl. lia.
  - intros Hf. discriminate Hf.
Defined.

Lemma reconciliation_round_witness :
  let entry ts := {| MsgTimestamp := ts; MsgPayload := [Small.byteOfN ts] |} in
  let x :=
    setCache (Small.node0 8 false)
      (<[1 := entry 5]> (<[2 := entry 7]> ∅)) in
  let y :=
    setCache (Small.node0 9 false)
      (<[1 := entry 9]> (<[2 := entry 4]> (<[3 := entry 3]> ∅))) in
  let vals := Small.valSet [1; 2; 3] in
  let toRequest :=
    announcesToRequest (cachedAnnounceMsgs x) vals
      (cacheVersions (cachedAnnounceMsgs y)) in
  toRequest ≡ₚ [1; 3] /\
  exists sent,
    handleGetAnnouncesMsg y 8 (Small.byteOfN <$> toRequest)
    = (y, EvSend 8 istanbulAnnounceMsg <$> sent, None) /\
    length sent = length toRequest.
Proof.
  intros entry x y vals toRequest.
  split; [subst toRequest; vm_compute; apply perm_swap|].
  assert (H1 : EncodeVersions (cacheVersions (cachedAnnounceMsgs y))
               = Ok (Small.encodeVersionList
                       (cacheVersions (cachedAnnounceMsgs y))))
    by reflexivity.
  assert (H2 : DecodeVersions
                 (Small.encodeVersionList
                    (cacheVersions (cachedAnnounceMsgs y)))
               = (cacheVersions (cachedAnnounceMsgs y), None))
    by reflexivity.
  assert (H3 : EncodeAddresses toRequest = Ok (Small.byteOfN <$> toRequest))
    by reflexivity.
  assert (H4 : DecodeAddresses (Small.byteOfN <$> toRequest)
               = (toRequest, None))
    by reflexivity.
  destruct (reconciliation_round x y 8 9 [] vals _ _ H1 H2 H3 H4)
    as (_ & _ & _ & _ & sent & Hsent & Hlen & _).
  exists sent. split; [exact Hsent | exact Hlen].
Defined.

(** ** Runs of the announce loop *)

(** What holds of the locals of [announceThread] between iterations. *)
Lemma loop_invariant s :
  loopReachable s ->
  (announceGossipTicker s = None -> s = loopInit) /\
  (announceGossipTickerCh s = true -> announceGossipTicker s <> None) /\
  (forall d, announceGossipTicker s = Some d ->
     d = currentAnnounceGossipTickerDuration s /\
     (d = HighFreqTickerDuration \/ d = LowFreqTickerDuration)) /\
  match announceGossipFrequencyState s with
  | HighFreqBeforeFirstPeerState =>
      numGossipedMsgsInHighFreqAfterFirstPeerState s = 0%Z /\
      currentAnnounceGossipTickerDuration s <> LowFreqTickerDuration
  | HighFreqAfterFirstPeerState =>
      (0 <= numGossipedMsgsInHighFreqAfterFirstPeerState s <= 10)%Z /\
      currentAnnounceGossipTickerDuration s <> LowFreqTickerDuration
  | LowFreqState =>
      numGossipedMsgsInHighFreqAfterFirstPeerState s = 11%Z
  end.
Proof.
  assert (Hne : HighFreqTickerDuration <> LowFreqTickerDuration)
    by discriminate.
  induction 1 as [|s ev s' acts _ IH Hstep].
  - simpl. split; [reflexivity|]. split; [discriminate|].
    split; [discriminate|]. split; [reflexivity | discriminate].
  - destruct IH as (Hnil & Hch & Hper & Hfreq).
    destruct ev as [[|] | started | numPeers | |]; simpl in Hstep.
    + inversion Hstep; subst s'; simpl.
      split; [discriminate|]. split; [discriminate|]. split.
      * intros d Hd. inversion Hd. split; [reflexivity | now left].
      * split; [reflexivity | exact Hne].
    + destruct (announceGossipTicker s) as [d|] eqn:Ht; [|discriminate].
      inversion Hstep; subst s'; simpl.
      split; [discriminate|]. split; [discriminate|].
      split; [|exact Hfreq].
      intros d' Hd'. apply Hper.
      first [exact Hd' | rewrite Ht; exact Hd'].
    + inversion Hstep; subst s'. tauto.
    + destruct (announceGossipTickerCh s) eqn:Hc; [|discriminate].
      destruct (advanceFrequency s numPeers) as [s1 acts1] eqn:Hadv.
      inversion Hstep; subst s' acts. clear Hstep.
      specialize (Hch eq_refl).
      unfold advanceFrequency in Hadv.
      destruct (announceGossipFrequencyState s) eqn:Hf.
      * destruct (0 <? numPeers)%nat; inversion Hadv; subst s1; simpl.
        -- rewrite Hc. destruct Hfreq as [Hn Hd].
           split; [intros Hnone; now apply Hch in Hnone|].
           split; [intros _; exact Hch|]. split; [exact Hper|].
           split; [lia | exact Hd].
        -- rewrite Hf. tauto.
      * inversion Hadv; subst s1; simpl. rewrite Hc.
        destruct Hfreq as [Hn Hd].
        split; [intros Hnone; now apply Hch in Hnone|].
        split; [intros _; exact Hch|]. split; [exact Hper|].
        destruct (10 <=? numGossipedMsgsInHighFreqAfterFirstPeerState s)%Z
          eqn:Hge;
          [apply Z.leb_le in Hge | apply Z.leb_gt in Hge];
          rewrite wrapInt_small by lia; [lia|].
        split; [lia | exact Hd].
      * destruct (currentAnnounceGossipTickerDuration s
                  =? LowFreqTickerDuration)%Z eqn:Hd;
          inversion Hadv; subst s1; simpl.
        -- rewrite Hf. tauto.
        -- split; [discriminate|]. split; [discriminate|]. split.
           ++ intros d' Hd'. inversion Hd'. split; [reflexivity | now right].
           ++ exact Hfreq.
    + inversion Hstep; subst s'. tauto.
    + discriminate.
Qed.

(** X17.  Between iterations of [announceThread]: the gossip ticker channel
    is live only when a ticker exists; the ticker's period is the current
    duration, one minute or ten; the tick counter is 0 before the first peer,
    between 0 and 10 in [HighFreqAfterFirstPeerState] and 11 in
    [LowFreqState], so it never wraps; and the ten-minute duration is in use
    only in [LowFreqState]. *)
Theorem loop_counter_and_ticker_invariant (s : loopState) :
  loopReachable s ->
  (announceGossipTickerCh s = true -> announceGossipTicker s <> None) /\
  (forall d, announceGossipTicker s = Some d ->
     d = currentAnnounceGossipTickerDuration s /\
     (d = HighFreqTickerDuration \/ d = LowFreqTickerDuration)) /\
  (0 <= numGossipedMsgsInHighFreqAfterFirstPeerState s <= 11)%Z /\
  (announceGossipFrequencyState s = HighFreqBeforeFirstPeerState ->
   numGossipedMsgsInHighFreqAfterFirstPeerState s = 0%Z) /\
  (announceGossipFrequencyState s = HighFreqAfterFirstPeerState ->
   (numGossipedMsgsInHighFreqAfterFirstPeerState s <= 10)%Z) /\
  (announceGossipFrequencyState s = LowFreqState <->
   numGossipedMsgsInHighFreqAfterFirstPeerState s = 11%Z) /\
  (currentAnnounceGossipTickerDuration s = LowFreqTickerDuration ->
   announceGossipFrequencyState s = LowFreqState).
Proof.
  intros Hreach.
  destruct (loop_invariant s Hreach) as (_ & Hch & Hper & Hfreq).
  split; [exact Hch|]. split; [exact Hper|].
  destruct (announceGossipFrequencyState s); repeat split;
    try discriminate; try tauto; try lia; try (intros; lia).
  all: try (intros Hd; destruct Hfreq as [_ Hne]; contradiction).
Qed.

(** X18.  In a reachable loop state, a stop signal ([false] on
    [coreStartStopCh]) calls [Stop] through a nil ticker exactly when no
    start signal has been handled yet, that is in the initial state; in every
    other state it stops the ticker, closes the tick case and keeps all other
    locals.  The gossip tick case can be selected exactly when the channel is
    live, and never in the initial state. *)
Theorem stop_before_start_panics (s : loopState) (numPeers : nat) :
  loopReachable s ->
  (loopStep s (CoreStartStop false) = Panic <-> s = loopInit) /\
  (s <> loopInit ->
   loopStep s (CoreStartStop false)
   = Continue
       {| announceGossipTicker := announceGossipTicker s;
          announceGossipTickerCh := false;
          announceGossipFrequencyState := announceGossipFrequencyState s;
          currentAnnounceGossipTickerDuration :=
            currentAnnounceGossipTickerDuration s;
          numGossipedMsgsInHighFreqAfterFirstPeerState :=
            numGossipedMsgsInHighFreqAfterFirstPeerState s |}
       [StopGossipTicker]) /\
  (loopStep s (GossipTick numPeers) = NotReady <->
   announceGossipTickerCh s = false) /\
  (s = loopInit -> loopStep s (GossipTick numPeers) = NotReady).
Proof.
  intros Hreach.
  destruct (loop_invariant s Hreach) as (Hnil & _).
  split; [|split; [|split]].
  - split.
    + simpl. destruct (announceGossipTicker s); [discriminate|].
      intros _. now apply Hnil.
    + intros ->. reflexivity.
  - intros Hne. simpl.
    destruct (announceGossipTicker s) eqn:Ht; [reflexivity|].
    exfalso. apply Hne. now apply Hnil.
  - simpl. destruct (announceGossipTickerCh s).
    + destruct (advanceFrequency s numPeers). split; discriminate.
    + now split.
  - intros ->. reflexivity.
Qed.

Lemma loop_counter_and_ticker_invariant_witness :
  let s :=
    {| announceGossipTicker := Some HighFreqTickerDuration;
       announceGossipTickerCh := true;
       announceGossipFrequencyState := HighFreqAfterFirstPeerState;
       currentAnnounceGossipTickerDuration := HighFreqTickerDuration;
       numGossipedMsgsInHighFreqAfterFirstPeerState := 0%Z |} in
  (0 <= numGossipedMsgsInHighFreqAfterFirstPeerState s <= 11)%Z.
Proof.
  intros s.
  assert (Hreach : loopReachable s).
  { pose proof (loop_next loopInit (CoreStartStop true) _ _
                  loop_start eq_refl) as Hstarted.
    exact (loop_next _ (GossipTick 1) s [GoGossipAnnounce]
             Hstarted eq_refl). }
  exact (proj1 (proj2 (proj2
           (loop_counter_and_ticker_invariant s Hreach)))).
Defined.

Lemma stop_before_start_panics_witness :
  loopStep loopInit (CoreStartStop false) = Panic <-> loopInit = loopInit.
Proof.
  exact (proj1 (stop_before_start_panics loopInit 0 loop_start)).
Defined.

Lemma gossipTicks_idle idle s :
  announceGossipTickerCh s = true ->
  announceGossipFrequencyState s = HighFreqBeforeFirstPeerState ->
  gossipTicks idle 0 s = Some (s, repeat [GoGossipAnnounce] idle).
Proof.
  intros Hch Hf. induction idle as [|k IH]; [reflexivity|].
  cbn [gossipTicks]. unfold loopStep, advanceFrequency.
  rewrite Hch, Hf. simpl. now rewrite IH.
Qed.

Lemma gossipTicks_low later numPeers s :
  announceGossipTickerCh s = true ->
  announceGossipFrequencyState s = LowFreqState ->
  currentAnnounceGossipTickerDuration s = LowFreqTickerDuration ->
  gossipTicks later numPeers s = Some (s, repeat [GoGossipAnnounce] later).
Proof.
  intros Hch Hf Hd. induction later as [|k IH]; [reflexivity|].
  cbn [gossipTicks]. unfold loopStep, advanceFrequency.
  rewrite Hch, Hf, Hd, Z.eqb_refl. simpl. now rewrite IH.
Qed.

(** X19.  The schedule after a start signal, whatever the loop state was.
    The start itself gossips and creates a one-minute ticker.  Ticks that
    find no peer gossip and change nothing.  From the first tick that finds a
    peer on, the loop gossips on each tick; the 13th such tick is the one
    that replaces the ticker by a ten-minute one (the state has become
    [LowFreqState] on the 12th), and from then on every tick only gossips. *)
Theorem gossip_schedule_after_start
    (s : loopState) (idle peers later laterPeers : nat) :
  let started :=
    {| announceGossipTicker := Some HighFreqTickerDuration;
       announceGossipTickerCh := true;
       announceGossipFrequencyState := HighFreqBeforeFirstPeerState;
       currentAnnounceGossipTickerDuration := HighFreqTickerDuration;
       numGossipedMsgsInHighFreqAfterFirstPeerState := 0%Z |} in
  let low :=
    {| announceGossipTicker := Some LowFreqTickerDuration;
       announceGossipTickerCh := true;
       announceGossipFrequencyState := LowFreqState;
       currentAnnounceGossipTickerDuration := LowFreqTickerDuration;
       numGossipedMsgsInHighFreqAfterFirstPeerState := 11%Z |} in
  loopStep s (CoreStartStop true)
  = Continue started
      [GoGossipAnnounce; NewGossipTicker HighFreqTickerDuration] /\
  gossipTicks idle 0 started
  = Some (started, repeat [GoGossipAnnounce] idle) /\
  (exists s12,
     gossipTicks 12 (S peers) started
     = Some (s12, repeat [GoGossipAnnounce] 12) /\
     announceGossipFrequencyState s12 = LowFreqState /\
     announceGossipTicker s12 = Some HighFreqTickerDuration) /\
  gossipTicks 13 (S peers) started
  = Some (low,
          repeat [GoGossipAnnounce] 12
            ++ [[StopGossipTicker; NewGossipTicker LowFreqTickerDuration;
                 GoGossipAnnounce]]) /\
  gossipTicks later laterPeers low
  = Some (low, repeat [GoGossipAnnounce] later).
Proof.
  intros started low. split; [reflexivity|].
  split; [now apply gossipTicks_idle|].
  split.
  { exists {| announceGossipTicker := Some HighFreqTickerDuration;
              announceGossipTickerCh := true;
              announceGossipFrequencyState := LowFreqState;
              currentAnnounceGossipTickerDuration := HighFreqTickerDuration;
              numGossipedMsgsInHighFreqAfterFirstPeerState := 11%Z |}.
    split; [vm_compute; reflexivity|]. split; reflexivity. }
  split; [vm_compute; reflexivity|].
  now apply gossipTicks_low.
Qed.

(** * Further properties of the EVM handler *)

(** ** Block hashes by number *)

Lemma decUint64_pos x :
  0 < x -> x < two64 -> decUint64 (Uint64 x) = x - 1.
Proof.
  intros Hpos Hlt. unfold decUint64, Uint64, two64 in *.
  rewrite (N.mod_small x) by lia.
  replace (x + (18446744073709551616 - 1))
    with (x - 1 + 1 * 18446744073709551616) by lia.
  rewrite N.Div0.mod_add. apply N.mod_small. lia.
Qed.

Lemma decUint64_zero : decUint64 (Uint64 0) = two64 - 1.
Proof. reflexivity. Qed.

Lemma decUint64_lt x : decUint64 x < two64.
Proof. unfold decUint64. apply N.mod_lt. discriminate. Qed.

Lemma succ_decUint64 x :
  x < two64 -> (decUint64 (Uint64 x) + 1) mod two64 = x.
Proof.
  intros Hlt. destruct (N.eq_dec x 0) as [-> | Hne]; [reflexivity|].
  rewrite decUint64_pos by lia.
  replace (x - 1 + 1) with x by lia. now apply N.mod_small.
Qed.

Lemma decUint64_succ n :
  n < two64 -> decUint64 (Uint64 ((n + 1) mod two64)) = n.
Proof.
  intros Hlt. destruct (N.eq_dec n (two64 - 1)) as [-> | Hne];
    [reflexivity|].
  assert (Hs : n + 1 < two64) by (unfold two64 in *; lia).
  rewrite (N.mod_small (n + 1)) by exact Hs.
  rewrite decUint64_pos by lia. lia.
Qed.

Section GetHash.
Variable ref : Header.
Variable getHeader : N -> N -> option Header.
Hypothesis Hnum : forall p k h, getHeader p k = Some h -> Number h = k.
Hypothesis Href : Number ref < two64.
Hypothesis Htop : forall p, getHeader p (two64 - 1) = None.

Lemma ancestor_S d :
  ancestor ref getHeader (S d)
  = match ancestor ref getHeader d with
    | Some h => getHeader (ParentHash h) (parentSlot h)
    | None => None
    end.
Proof. reflexivity. Qed.

Lemma ancestor_number d :
  forall h,
    ancestor ref getHeader d = Some h ->
    N.of_nat d <= Number ref /\ Number h = Number ref - N.of_nat d.
Proof.
  induction d as [|d IH]; intros h Hd.
  - simpl in Hd. inversion Hd; subst h. split; lia.
  - rewrite ancestor_S in Hd.
    destruct (ancestor ref getHeader d) as [h'|] eqn:Hd'; [|discriminate].
    destruct (IH h' eq_refl) as [Hle Hn].
    pose proof (Hnum _ _ _ Hd) as Hk. unfold parentSlot in Hk, Hd.
    destruct (N.eq_dec (Number h') 0) as [Hz | Hnz].
    + rewrite Hz, decUint64_zero, Htop in Hd. discriminate.
    + rewrite decUint64_pos in Hk by lia. lia.
Qed.

Lemma ancestor_none_mono d d' :
  ancestor ref getHeader d = None -> (d <= d')%nat ->
  ancestor ref getHeader d' = None.
Proof.
  intros Hd Hle. induction Hle as [|d' Hle IH]; [exact Hd|].
  rewrite ancestor_S. now rewrite IH.
Qed.

Lemma ancestor_slot d h :
  ancestor ref getHeader d = Some h ->
  parentSlot h = decUint64 (Uint64 (Number ref - N.of_nat d)).
Proof.
  intros Hd. destruct (ancestor_number d h Hd) as [_ Hn].
  unfold parentSlot. now rewrite Hn.
Qed.

Lemma ancestorHash_at d h :
  ancestor ref getHeader d = Some h ->
  ancestorHash ref getHeader (parentSlot h) = ParentHash h.
Proof.
  intros Hd. destruct (ancestor_number d h Hd) as [Hle Hn].
  unfold ancestorHash, parentSlot.
  assert (Hlt : Number h < two64) by lia.
  rewrite (succ_decUint64 _ Hlt).
  assert (Hb : (decUint64 (Uint64 (Number h)) <? two64) = true)
    by (apply N.ltb_lt, decUint64_lt).
  assert (Hm : (Number h <=? Number ref) = true) by (apply N.leb_le; lia).
  rewrite Hb, Hm. simpl.
  replace (N.to_nat (Number ref - Number h)) with d by lia.
  now rewrite Hd.
Qed.

Lemma ancestorHash_zero n :
  (forall d h, ancestor ref getHeader d = Some h -> parentSlot h <> n) ->
  ancestorHash ref getHeader n = 0.
Proof.
  intros Hno. unfold ancestorHash.
  destruct (n <? two64) eqn:Hlt; [|reflexivity].
  pose proof (decUint64_succ n) as Hdec.
  remember ((n + 1) mod two64) as m eqn:Hmdef.
  destruct (m <=? Number ref) eqn:Hm; [|reflexivity].
  simpl. apply N.ltb_lt in Hlt. apply N.leb_le in Hm.
  destruct (ancestor ref getHeader (N.to_nat (Number ref - m)))
    as [a|] eqn:Ha; [|reflexivity].
  exfalso. apply (Hno _ _ Ha). rewrite (ancestor_slot _ _ Ha).
  rewrite N2Nat.id.
  replace (Number ref - (Number ref - m)) with m by lia.
  now apply Hdec.
Qed.

Lemma walkHeaders_correct n fuel :
  forall d hd c,
    ancestor ref getHeader d = Some hd ->
    (N.to_nat (Number ref) + 2 <= fuel + d)%nat ->
    hashCacheOk ref getHeader c ->
    (forall j hj, (j <= d)%nat -> ancestor ref getHeader j = Some hj ->
       parentSlot hj <> n) ->
    exists c',
      walkHeaders getHeader fuel n (ancestor ref getHeader (S d)) c
      = Some (ancestorHash ref getHeader n, c') /\
      hashCacheOk ref getHeader c'.
Proof.
  induction fuel as [|fuel IH]; intros d hd c Hd Hfuel Hok Hmiss.
  - destruct (ancestor_number d hd Hd) as [Hle _]. lia.
  - remember (ancestor ref getHeader (S d)) as next eqn:HSd.
    symmetry in HSd. cbn [walkHeaders].
    destruct next as [h|].
    + assert (Hok' : hashCacheOk ref getHeader
                       (<[parentSlot h := ParentHash h]> c)).
      { destruct Hok as [Hall Href0]. split.
        - intros k v Hkv.
          destruct (decide (parentSlot h = k)) as [<- | Hne].
          + rewrite lookup_insert_eq in Hkv. inversion Hkv; subst v.
            symmetry. now apply (ancestorHash_at (S d)).
          + rewrite lookup_insert_ne in Hkv by exact Hne. now apply Hall.
        - destruct (decide (parentSlot h = parentSlot ref)) as [Heq | Hne].
          + rewrite Heq, lookup_insert_eq. f_equal.
            rewrite <- (ancestorHash_at (S d) h HSd), Heq.
            now apply (ancestorHash_at 0).
          + now rewrite lookup_insert_ne. }
      destruct (N.eqb n (parentSlot h)) eqn:Hn.
      * apply N.eqb_eq in Hn. subst n. eexists. split; [|exact Hok'].
        now rewrite (ancestorHash_at (S d) h HSd).
      * apply N.eqb_neq in Hn.
        assert (Hnext : getHeader (ParentHash h) (parentSlot h)
                        = ancestor ref getHeader (S (S d)))
          by (now rewrite (ancestor_S (S d)), HSd).
        rewrite Hnext. apply (IH (S d) h); [exact HSd | lia | exact Hok'|].
        intros j hj Hj Haj. destruct (decide (j = S d)) as [-> | Hjd].
        -- rewrite HSd in Haj. inversion Haj; subst hj. congruence.
        -- apply (Hmiss j hj); [lia | exact Haj].
    + exists c. split; [|exact Hok]. f_equal. f_equal. symmetry.
      apply ancestorHash_zero. intros j hj Haj.
      destruct (le_lt_dec j d) as [Hle | Hgt].
      * now apply (Hmiss j hj).
      * rewrite (ancestor_none_mono (S d) j HSd) in Haj by lia.
        discriminate.
Qed.

Lemma GetHashFn_correct fuel cache n :
  (N.to_nat (Number ref) + 2 <= fuel)%nat ->
  match cache with
  | None => True
  | Some c => hashCacheOk ref getHeader c
  end ->
  exists c',
    GetHashFn ref getHeader fuel cache n
    = Some (ancestorHash ref getHeader n, Some c') /\
    hashCacheOk ref getHeader c'.
Proof.
  intros Hfuel Hcache. unfold GetHashFn.
  set (cache0 := match cache with
                 | None => {[parentSlot ref := ParentHash ref]}
                 | Some c => c
                 end).
  assert (Hok : hashCacheOk ref getHeader cache0).
  { subst cache0. destruct cache as [c|]; [exact Hcache|]. split.
    - intros k v Hkv. apply lookup_singleton_Some in Hkv as [<- <-].
      symmetry. now apply (ancestorHash_at 0).
    - apply lookup_singleton_eq. }
  destruct (cache0 !! n) as [hash|] eqn:Hn.
  - exists cache0. split; [|exact Hok]. destruct Hok as [Hall _].
    now rewrite (Hall n hash Hn).
  - destruct (walkHeaders_correct n fuel 0 ref cache0 eq_refl
                ltac:(lia) Hok) as (c' & Hw & Hok').
    { intros j hj Hj Haj. assert (j = 0)%nat as -> by lia.
      simpl in Haj. inversion Haj; subst hj. intros Heq.
      destruct Hok as [_ Href0]. congruence. }
    exists c'. split; [|exact Hok'].
    change (ancestor ref getHeader 1)
      with (getHeader (ParentHash ref) (parentSlot ref)) in Hw.
    now rewrite Hw.
Qed.

Lemma getHashes_correct fuel ns :
  (N.to_nat (Number ref) + 2 <= fuel)%nat ->
  forall cache,
    match cache with
    | None => True
    | Some c => hashCacheOk ref getHeader c
    end ->
    getHashes ref getHeader fuel cache ns
    = Some (ancestorHash ref getHeader <$> ns).
Proof.
  intros Hfuel. induction ns as [|n rest IH]; intros cache Hcache;
    [reflexivity|].
  simpl. destruct (GetHashFn_correct fuel cache n Hfuel Hcache)
    as (c' & -> & Hok').
  now rewrite (IH (Some c') Hok').
Qed.

(** X20.  On a chain where a header looked up by number has that number,
    where no header is numbered 2^64 - 1 and [ref]'s number fits in 64 bits,
    a fresh function from [GetHashFn(ref, chain)] ends within
    [ref.Number + 2] iterations.  Asked for the slot of an ancestor of [ref]
    reached through the parent links (the ancestor's number minus one), it
    returns that ancestor's parent hash; asked for any other number, in
    particular [ref]'s own number or a later one, it returns the zero
    hash. *)
Theorem GetHashFn_returns_ancestor_hash (fuel : nat) :
  (N.to_nat (Number ref) + 2 <= fuel)%nat ->
  (forall d h,
     ancestor ref getHeader d = Some h ->
     parentSlot h = decUint64 (Uint64 (Number ref - N.of_nat d)) /\
     exists c,
       GetHashFn ref getHeader fuel None (parentSlot h)
       = Some (ParentHash h, Some c)) /\
  (forall n,
     (forall d h, ancestor ref getHeader d = Some h -> parentSlot h <> n) ->
     exists c, GetHashFn ref getHeader fuel None n = Some (0, Some c)) /\
  (forall n,
     Number ref <= n -> n <> two64 - 1 ->
     exists c, GetHashFn ref getHeader fuel None n = Some (0, Some c)).
Proof.
  intros Hfuel.
  assert (Hzero : forall n,
    (forall d h, ancestor ref getHeader d = Some h -> parentSlot h <> n) ->
    exists c, GetHashFn ref getHeader fuel None n = Some (0, Some c)).
  { intros n Hno.
    destruct (GetHashFn_correct fuel None n Hfuel I) as (c & Hc & _).
    exists c. now rewrite Hc, (ancestorHash_zero n Hno). }
  split; [|split; [exact Hzero|]].
  - intros d h Hd. split; [now apply ancestor_slot|].
    destruct (GetHashFn_correct fuel None (parentSlot h) Hfuel I)
      as (c & Hc & _).
    exists c. now rewrite Hc, (ancestorHash_at d h Hd).
  - intros n Hge Hne. apply Hzero. intros d h Hd Heq.
    destruct (ancestor_number d h Hd) as [Hle Hn].
    rewrite (ancestor_slot d h Hd) in Heq.
    destruct (N.eq_dec (Number ref - N.of_nat d) 0) as [Hz | Hnz].
    + rewrite Hz, decUint64_zero in Heq. congruence.
    + rewrite decUint64_pos in Heq by lia. lia.
Qed.

(** X21.  Under the same conditions the cache never changes an answer:
    whatever numbers one such function is asked for, and in whatever order,
    each call ends and returns the hash that a fresh function returns for
    that number. *)
Theorem GetHashFn_cache_transparent (fuel : nat) (ns : list N) :
  (N.to_nat (Number ref) + 2 <= fuel)%nat ->
  exists hashes,
    getHashes ref getHeader fuel None ns = Some hashes /\
    Forall2 (fun n hash =>
               exists c,
                 GetHashFn ref getHeader fuel None n = Some (hash, Some c))
      ns hashes.
Proof.
  intros Hfuel. exists (ancestorHash ref getHeader <$> ns).
  split; [now apply getHashes_correct|].
  induction ns as [|n rest IH]; [constructor|].
  rewrite fmap_cons. constructor; [|exact IH].
  destruct (GetHashFn_correct fuel None n Hfuel I) as (c & Hc & _).
  now exists c.
Qed.

End GetHash.

Lemma GetHashFn_returns_ancestor_hash_witness :
  let ref := {| Number := 3; ParentHash := 12 |} in
  let chainAt p k :=
    if (k <? 3) && (p =? 10 + k)
    then Some {| Number := k; ParentHash := 9 + k |}
    else None in
  exists c, GetHashFn ref chainAt 5 None 0 = Some (10, Some c).
Proof.
  intros ref chainAt.
  assert (Hnum : forall p k h, chainAt p k = Some h -> Number h = k).
  { intros p k h. unfold chainAt.
    destruct ((k <? 3) && (p =? 10 + k)); [|discriminate].
    intros Hh. now inversion Hh. }
  destruct (GetHashFn_returns_ancestor_hash ref chainAt Hnum eq_refl
              (fun p => eq_refl) 5 ltac:(simpl; lia))
    as (Hanc & _).
  exact (proj2 (Hanc 2%nat {| Number := 1; ParentHash := 10 |} eq_refl)).
Defined.

Lemma GetHashFn_cache_transparent_witness :
  let ref := {| Number := 3; ParentHash := 12 |} in
  let chainAt p k :=
    if (k <? 3) && (p =? 10 + k)
    then Some {| Number := k; ParentHash := 9 + k |}
    else None in
  exists hashes,
    getHashes ref chainAt 5 None [0; 2; 7; 0; 1] = Some hashes /\
    Forall2 (fun n hash =>
               exists c, GetHashFn ref chainAt 5 None n = Some (hash, Some c))
      [0; 2; 7; 0; 1] hashes.
Proof.
  intros ref chainAt.
  assert (Hnum : forall p k h, chainAt p k = Some h -> Number h = k).
  { intros p k h. unfold chainAt.
    destruct ((k <? 3) && (p =? 10 + k)); [|discriminate].
    intros Hh. now inversion Hh. }
  exact (GetHashFn_cache_transparent ref chainAt Hnum eq_refl
           (fun p => eq_refl) 5 [0; 2; 7; 0; 1] ltac:(simpl; lia)).
Defined.

(** The hashes of the chain above, asked for out of order and twice. *)
Example getHashes_small_chain :
  let ref := {| Number := 3; ParentHash := 12 |} in
  let chainAt p k :=
    if (k <? 3) && (p =? 10 + k)
    then Some {| Number := k; ParentHash := 9 + k |}
    else None in
  getHashes ref chainAt 5 None [0; 2; 7; 0; 1; 3]
  = Some [10; 12; 0; 10; 11; 0] /\
  GetHashFn ref chainAt 1 None 0 = None.
Proof. split; reflexivity. Qed.

(** ** Balances *)

Section TransferProperties.
Context {DB : Type} `{StateDB DB}.
Hypothesis sub_same :
  forall db a x, GetBalance (SubBalance db a x) a = (GetBalance db a - x)%Z.
Hypothesis sub_other :
  forall db a b x, a <> b ->
    GetBalance (SubBalance db a x) b = GetBalance db b.
Hypothesis add_same :
  forall db a x, GetBalance (AddBalance db a x) a = (GetBalance db a + x)%Z.
Hypothesis add_other :
  forall db a b x, a <> b ->
    GetBalance (AddBalance db a x) b = GetBalance db b.

(** X22.  Over a state database whose [SubBalance] and [AddBalance] change
    the balance of the address they are given by the amount and no other
    balance: [Transfer] takes the amount from the sender and gives it to the
    recipient, leaving every other balance and the sum of the two alone; a
    transfer to oneself changes no balance.  [Transfer] does not look at the
    sender's funds: when [CanTransfer] holds for a non-negative amount the
    sender's balance stays non-negative, and when it does not hold a transfer
    to another address leaves the sender's balance negative. *)
Theorem transfer_moves_amount
    (db : DB) (sender recipient : N) (amount : Z) :
  let db' := Transfer db sender recipient amount in
  (sender <> recipient ->
   GetBalance db' sender = (GetBalance db sender - amount)%Z /\
   GetBalance db' recipient = (GetBalance db recipient + amount)%Z /\
   (GetBalance db' sender + GetBalance db' recipient
    = GetBalance db sender + GetBalance db recipient)%Z) /\
  (sender = recipient -> GetBalance db' sender = GetBalance db sender) /\
  (forall a, a <> sender -> a <> recipient ->
     GetBalance db' a = GetBalance db a) /\
  (CanTransfer db sender amount = true -> (0 <= amount)%Z ->
   (0 <= GetBalance db' sender)%Z) /\
  (CanTransfer db sender amount = false -> sender <> recipient ->
   (GetBalance db' sender < 0)%Z).
Proof.
  intros db'. subst db'. unfold Transfer, CanTransfer.
  assert (Hne : sender <> recipient ->
    GetBalance (AddBalance (SubBalance db sender amount) recipient amount)
      sender = (GetBalance db sender - amount)%Z).
  { intros Hsr. rewrite add_other by congruence. apply sub_same. }
  assert (Heq : sender = recipient ->
    GetBalance (AddBalance (SubBalance db sender amount) recipient amount)
      sender = GetBalance db sender).
  { intros <-. rewrite add_same, sub_same. lia. }
  split; [|split; [exact Heq|split; [|split]]].
  - intros Hsr. rewrite (Hne Hsr), add_same, sub_other by exact Hsr.
    repeat split; lia.
  - intros a Has Har. rewrite add_other, sub_other by congruence.
    reflexivity.
  - intros Hcan Hpos. apply Z.leb_le in Hcan.
    destruct (N.eq_dec sender recipient) as [Hsr | Hsr].
    + rewrite (Heq Hsr). lia.
    + rewrite (Hne Hsr). lia.
  - intros Hcan Hsr. apply Z.leb_gt in Hcan. rewrite (Hne Hsr). lia.
Qed.

End TransferProperties.

Lemma balanceOf_insert_same (db : gmap N Z) a v :
  balanceOf (<[a := v]> db) a = v.
Proof. unfold balanceOf. now rewrite lookup_insert_eq. Qed.

Lemma balanceOf_insert_other (db : gmap N Z) a b v :
  a <> b -> balanceOf (<[a := v]> db) b = balanceOf db b.
Proof. intros Hne. unfold balanceOf. now rewrite lookup_insert_ne. Qed.

Lemma mapStateDB_sub_same (db : gmap N Z) a x :
  GetBalance (SubBalance db a x) a = (GetBalance db a - x)%Z.
Proof. apply balanceOf_insert_same. Qed.

Lemma mapStateDB_sub_other (db : gmap N Z) a b x :
  a <> b -> GetBalance (SubBalance db a x) b = GetBalance db b.
Proof. apply balanceOf_insert_other. Qed.

Lemma mapStateDB_add_same (db : gmap N Z) a x :
  GetBalance (AddBalance db a x) a = (GetBalance db a + x)%Z.
Proof. apply balanceOf_insert_same. Qed.

Lemma mapStateDB_add_other (db : gmap N Z) a b x :
  a <> b -> GetBalance (AddBalance db a x) b = GetBalance db b.
Proof. apply balanceOf_insert_other. Qed.

Lemma transfer_moves_amount_witness :
  let db : gmap N Z := <[1 := 10%Z]> ∅ in
  let db' := Transfer db 1 2 4%Z in
  GetBalance db' 1 = (GetBalance db 1 - 4)%Z /\
  GetBalance db' 2 = (GetBalance db 2 + 4)%Z /\
  (GetBalance db' 1 + GetBalance db' 2
   = GetBalance db 1 + GetBalance db 2)%Z.
Proof.
  intros db.
  apply (proj1 (transfer_moves_amount mapStateDB_sub_same
                  mapStateDB_sub_other mapStateDB_add_same
                  mapStateDB_add_other db 1 2 4%Z)).
  discriminate.
Defined.

(** ** The handler singleton *)

(** X23.  [SetInternalEVMHandler] sets the singleton once: after any
    sequence of calls the singleton holds the handler it held before, or, if
    it was nil, the chain of the first call; later calls change nothing. *)
Theorem SetInternalEVMHandler_set_once
    {Chain : Type} (singleton : option Chain) (chains : list Chain) :
  fold_left SetInternalEVMHandler chains singleton
  = match singleton with
    | Some c => Some c
    | None => head chains
    end.
Proof.
  revert singleton. induction chains as [|c rest IH]; intros singleton.
  - now destruct singleton.
  - simpl. rewrite IH. now destruct singleton.
Qed.

(** * Further properties of admission *)

Section AdmissionProperties.
Context {VET : Type} `{Collaborators VET}.

(** The tail of the handler when the flag is down. *)
Lemma admitAndRegossip_admits (sb0 : Backend VET) msg payload ap vals s done
    sinceNow recordNow draw :
  msgHasDupsOrIrrelevantEntries s = false ->
  inVals vals (MsgAddress msg) = true ->
  (forall p code, EvMulticast p code ∉ done) ->
  let o := admitAndRegossip sb0 msg payload ap vals s done
             sinceNow recordNow draw in
  let dh := RLPHashStrings (sortStrings (destAddresses s)) in
  let quiet :=
    throttled (lastAnnounceGossiped sb0) (MsgAddress msg)
      (EnodeURLHash ap) dh sinceNow in
  cachedAnnounceMsgs (stateOf o)
  = pruneTo vals
      (<[MsgAddress msg :=
           {| MsgTimestamp := Timestamp ap; MsgPayload := payload |}]>
         (cachedAnnounceMsgs sb0)) /\
  (quiet = true ->
   (forall p code, EvMulticast p code ∉ effectsOf o) /\
   lastAnnounceGossiped (stateOf o) = lastAnnounceGossiped sb0 /\
   errorOf o = None) /\
  (quiet = false ->
   EvMulticast payload istanbulAnnounceMsg ∈ effectsOf o /\
   lastAnnounceGossiped (stateOf o) !! MsgAddress msg
   = Some {| enodeURLHash := EnodeURLHash ap; timestamp := recordNow;
             destAddressesHash := dh |}).
Proof.
  intros Hflag Hin Hdone o dh quiet.
  split.
  { subst o. now rewrite admitAndRegossip_cache, Hflag. }
  subst o quiet dh. unfold admitAndRegossip. rewrite Hflag.
  set (sb1 := setCache sb0 _).
  pose proof (regossipAnnounce_multicast sb1 msg payload ap vals
                (destAddresses s) sinceNow recordNow draw) as Hm.
  pose proof (regossipAnnounce_records sb1 msg payload ap vals
                (destAddresses s) sinceNow recordNow draw Hin) as Hrec.
  pose proof (regossipAnnounce_throttled sb1 msg payload ap vals
                (destAddresses s) sinceNow recordNow draw) as Hth.
  change (lastAnnounceGossiped sb1) with (lastAnnounceGossiped sb0)
    in Hm, Hth.
  destruct (throttled (lastAnnounceGossiped sb0) (MsgAddress msg)
              (EnodeURLHash ap)
              (RLPHashStrings (sortStrings (destAddresses s))) sinceNow).
  - rewrite (Hth eq_refl). split; [|discriminate].
    intros _. unfold effectsOf, stateOf, errorOf. simpl.
    rewrite app_nil_r. repeat split. exact Hdone.
  - split; [discriminate|]. intros _.
    specialize (Hrec Hm). unfold multicast in Hm.
    destruct (regossipAnnounce sb1 msg payload ap vals (destAddresses s)
                sinceNow recordNow draw) as [[sb2 sent] err] eqn:Hr.
    unfold effectsOf, stateOf in *. simpl in *.
    split; [|exact Hrec].
    pose proof (regossipAnnounce_effects sb1 msg payload ap vals
                  (destAddresses s) sinceNow recordNow draw) as He.
    rewrite Hr in He. unfold effectsOf in He. simpl in He.
    apply elem_of_app. right.
    destruct He as [-> | [-> | ->]]; [discriminate| |];
      apply elem_of_cons; now left.
Qed.

(** An announce that passes every check reaches the tail of the handler. *)
Lemma handleAnnounceMsg_reaches_tail (sb : Backend VET) peer payload vals
    msg ap s sinceNow recordNow draw :
  FromPayload payload = Ok msg ->
  inVals vals (MsgAddress msg) = true ->
  DecodeVEE (Msg msg) = (ap, None) ->
  oldAnnounce (cachedAnnounceMsgs sb) (MsgAddress msg) ap = false ->
  scanAccepts sb vals (MsgAddress msg) ap s ->
  exists sb0 done,
    handleAnnounceMsg sb peer payload (Ok vals) sinceNow recordNow draw
    = admitAndRegossip sb0 msg payload ap vals s done
        sinceNow recordNow draw /\
    cachedAnnounceMsgs sb0 = cachedAnnounceMsgs sb /\
    lastAnnounceGossiped sb0 = lastAnnounceGossiped sb /\
    msgHasDupsOrIrrelevantEntries s = false /\
    (forall p code, EvMulticast p code ∉ done).
Proof.
  intros Hmsg Hin Hdec Hold Hacc. unfold handleAnnounceMsg.
  rewrite Hmsg, Hin, Hdec, Hold. simpl.
  unfold scanAccepts in Hacc.
  destruct (coreStarted sb && inVals vals (address sb)).
  - destruct Hacc as (Hscan & Hflag & Hup). rewrite Hscan.
    destruct (node s) as [n|] eqn:Hnode.
    + specialize (Hup n eq_refl).
      destruct (Upsert (valEnodeTable sb) (MsgAddress msg) n
                  (Timestamp ap)) as [table err].
      simpl in Hup. subst err.
      exists (setTable sb table),
        [EvUpsert (MsgAddress msg) n (Timestamp ap)].
      repeat split; auto. intros p code Hel.
      apply list_elem_of_singleton in Hel. discriminate.
    + exists sb, []. repeat split; auto. intros p code Hel.
      now apply elem_of_nil in Hel.
  - subst s. exists sb, []. repeat split; auto. intros p code Hel.
    now apply elem_of_nil in Hel.
Qed.

(** X24.  An announce that passes every check is admitted.  Its signer is in
    the validator set retrieved, the cache holds no entry for the signer at
    least as new and, on a node whose core is started and which is in the
    validator set, the scan ends with the flag down and the upsert (if any)
    succeeds.  Then the cache is the old one with the signer's entry replaced
    by the delivered payload and timestamp, pruned to the validator set.  The
    payload is multicast exactly when the throttle does not suppress it; then
    the throttle table records the announce's enode URL hash, the hash of the
    sorted destinations and the clock reading for the signer. *)
Theorem fresh_announce_admitted
    (sb : Backend VET) (peer : N) (payload : list Byte.byte)
    (vals : gmap N bool) (msg : Message) (ap : valEncryptedEnodes)
    (s : scanState) (sinceNow recordNow draw : Z) :
  FromPayload payload = Ok msg ->
  inVals vals (MsgAddress msg) = true ->
  DecodeVEE (Msg msg) = (ap, None) ->
  oldAnnounce (cachedAnnounceMsgs sb) (MsgAddress msg) ap = false ->
  scanAccepts sb vals (MsgAddress msg) ap s ->
  let o := handleAnnounceMsg sb peer payload (Ok vals)
             sinceNow recordNow draw in
  let entry := {| MsgTimestamp := Timestamp ap; MsgPayload := payload |} in
  let dh := RLPHashStrings (sortStrings (destAddresses s)) in
  let quiet :=
    throttled (lastAnnounceGossiped sb) (MsgAddress msg)
      (EnodeURLHash ap) dh sinceNow in
  cachedAnnounceMsgs (stateOf o)
  = pruneTo vals (<[MsgAddress msg := entry]> (cachedAnnounceMsgs sb)) /\
  cachedAnnounceMsgs (stateOf o) !! MsgAddress msg = Some entry /\
  (quiet = true ->
   (forall p code, EvMulticast p code ∉ effectsOf o) /\
   lastAnnounceGossiped (stateOf o) = lastAnnounceGossiped sb /\
   errorOf o = None) /\
  (quiet = false ->
   EvMulticast payload istanbulAnnounceMsg ∈ effectsOf o /\
   lastAnnounceGossiped (stateOf o) !! MsgAddress msg
   = Some {| enodeURLHash := EnodeURLHash ap; timestamp := recordNow;
             destAddressesHash := dh |}).
Proof.
  intros Hmsg Hin Hdec Hold Hacc o entry dh quiet.
  destruct (handleAnnounceMsg_reaches_tail sb peer payload vals msg ap s
              sinceNow recordNow draw Hmsg Hin Hdec Hold Hacc)
    as (sb0 & done & Ho & Hc & Hg & Hflag & Hdone).
  fold o in Ho.
  destruct (admitAndRegossip_admits sb0 msg payload ap vals s done
              sinceNow recordNow draw Hflag Hin Hdone)
    as (Hcache & Hquiet & Hloud).
  rewrite <- Ho in Hcache, Hquiet, Hloud. rewrite Hc in Hcache.
  rewrite Hg in Hquiet, Hloud.
  split; [exact Hcache|]. split; [|split; [exact Hquiet | exact Hloud]].
  rewrite Hcache. apply pruneTo_lookup_Some.
  split; [apply lookup_insert_eq | exact Hin].
Qed.

Lemma entry_eta (e : announceMsgCachedEntry) ts :
  ts = MsgTimestamp e ->
  {| MsgTimestamp := ts; MsgPayload := MsgPayload e |} = e.
Proof. intros ->. now destruct e. Qed.

(** X25.  Every cache entry written by [handleAnnounceMsg] is authored: if
    every entry of the cache holds a payload that decodes to an announce
    signed by the address it is filed under, with the entry's timestamp, then
    so does every entry after any sequence of deliveries. *)
Theorem cache_entries_authored
    (sb : Backend VET) (cs : list announceCall) :
  (forall a e, cachedAnnounceMsgs sb !! a = Some e -> entryAuthored a e) ->
  forall a e,
    cachedAnnounceMsgs (deliverAll sb cs) !! a = Some e ->
    entryAuthored a e.
Proof.
  revert sb. induction cs as [|c rest IH]; intros sb Hwf; [exact Hwf|].
  simpl. apply IH. intros a e Hl.
  destruct (deliver_cache sb c)
    as [Hsame | (msg & ap & vals & Hmsg & Hvals & Hin & Hdec & Hold & Hnew)].
  - apply Hwf. now rewrite <- Hsame.
  - rewrite Hnew in Hl. apply pruneTo_lookup_Some in Hl as [Hl _].
    destruct (decide (MsgAddress msg = a)) as [Heq | Hne].
    + subst a. rewrite lookup_insert_eq in Hl. inversion Hl; subst e.
      exists msg, ap. simpl. auto.
    + rewrite lookup_insert_ne in Hl by exact Hne. now apply Hwf.
Qed.

(** X26.  Passing on a cached entry brings the receiver up to date.  Let
    [e] be an authored entry for [a], [a] being in the receiver's validator
    set, and let the receiver hold no entry for [a] or a strictly older one.
    If the receiver accepts the scan of the announce, then after handling the
    entry's payload its cache holds the very same entry for [a]. *)
Theorem forwarded_entry_adopted
    (x : Backend VET) (peer : N) (vals : gmap N bool) (a : N)
    (e : announceMsgCachedEntry) (s : scanState)
    (sinceNow recordNow draw : Z) :
  entryAuthored a e ->
  inVals vals a = true ->
  match cachedAnnounceMsgs x !! a with
  | None => True
  | Some ex => MsgTimestamp ex < MsgTimestamp e
  end ->
  (forall msg ap,
     FromPayload (MsgPayload e) = Ok msg ->
     DecodeVEE (Msg msg) = (ap, None) ->
     scanAccepts x vals a ap s) ->
  cachedAnnounceMsgs
    (stateOf (handleAnnounceMsg x peer (MsgPayload e) (Ok vals)
                sinceNow recordNow draw)) !! a
  = Some e.
Proof.
  intros (msg & ap & Hmsg & Haddr & Hdec & Hts) Hin Hbehind Hacc.
  subst a. specialize (Hacc msg ap Hmsg Hdec).
  assert (Hold : oldAnnounce (cachedAnnounceMsgs x) (MsgAddress msg) ap
                 = false).
  { unfold oldAnnounce.
    destruct (cachedAnnounceMsgs x !! MsgAddress msg) as [ex|];
      [|reflexivity].
    apply N.leb_gt. lia. }
  destruct (handleAnnounceMsg_reaches_tail x peer (MsgPayload e) vals msg ap
              s sinceNow recordNow draw Hmsg Hin Hdec Hold Hacc)
    as (sb0 & done & Ho & Hc & _ & Hflag & _).
  rewrite Ho, admitAndRegossip_cache, Hflag, Hc.
  apply pruneTo_lookup_Some. split; [|exact Hin].
  rewrite lookup_insert_eq. f_equal. now apply entry_eta.
Qed.

End AdmissionProperties.

Lemma fresh_announce_admitted_witness :
  let sb := Small.node0 9 false in
  let payload := Small.announce 1 5 7 [2] in
  let o :=
    handleAnnounceMsg sb 3 payload (Ok (Small.valSet [1; 9])) 0 0 50 in
  cachedAnnounceMsgs (stateOf o) !! 1
  = Some {| MsgTimestamp := 5; MsgPayload := payload |}.
Proof.
  intros sb payload.
  assert (Hacc : scanAccepts sb (Small.valSet [1; 9]) 1
                   (fst (DecodeVEE (drop 1 payload))) scanInit)
    by reflexivity.
  exact (proj1 (proj2
           (fresh_announce_admitted sb 3 payload (Small.valSet [1; 9])
              _ _ scanInit 0 0 50 eq_refl eq_refl eq_refl eq_refl Hacc))).
Defined.

Lemma cache_entries_authored_witness :
  let sb := Small.node0 9 false in
  let payload := Small.announce 1 5 7 [2] in
  let c :=
    {| callPeer := 3; callPayload := payload;
       callRetrieved := Ok (Small.valSet [1; 9]); callSinceNow := 0%Z;
       callRecordNow := 0%Z; callDraw := 50%Z |} in
  entryAuthored 1 {| MsgTimestamp := 5; MsgPayload := payload |}.
Proof.
  intros sb payload c.
  apply (cache_entries_authored sb [c]); [|reflexivity].
  intros a e Hl. simpl in Hl. rewrite lookup_empty in Hl. discriminate.
Defined.

Lemma forwarded_entry_adopted_witness :
  let e :=
    {| MsgTimestamp := 5; MsgPayload := Small.announce 1 5 7 [2] |} in
  let x :=
    setCache (Small.node0 8 false)
      (<[1 := {| MsgTimestamp := 4; MsgPayload := [] |}]> ∅) in
  cachedAnnounceMsgs
    (stateOf (handleAnnounceMsg x 3 (MsgPayload e)
                (Ok (Small.valSet [1; 8])) 0 0 50)) !! 1
  = Some e.
Proof.
  intros e x.
  apply (forwarded_entry_adopted x 3 (Small.valSet [1; 8]) 1 e scanInit).
  - eexists _, _. repeat split; reflexivity.
  - reflexivity.
  - vm_compute. reflexivity.
  - intros msg ap _ _. reflexivity.
Defined.
